(** * The Jacobian assembler and the Newton update of the finite-volume
      discretization (ewoms/disc/common/fvbaseassembler.hh and
      fvbasenewtonmethod.hh), as a shallow embedding.

    The C++ classes are templates over the property [Scalar]; the embedding
    is generic over a class of scalar operations in the same way, and is
    instantiated with IEEE-754 binary64 (the Standard Library's [spec_float]
    at precision 53) wherever a concrete run is evaluated. *)

From Stdlib Require Import ZArith SpecFloat.
From stdpp Require Import base option list gmap.

Set Default Proof Using "Type".

(** ** Scalars and blocks *)

(** The operations the two classes use on [Scalar]. [s_ltb] is [operator<],
    [s_leb] is [operator<=], [s_of_Z] the conversion of an integer literal
    and [s_1em4] the literal [1e-4]. *)
Class ScalarOps (S : Type) := {
  s_zero : S;
  s_of_Z : Z → S;
  s_1em4 : S;
  s_add : S → S → S;
  s_sub : S → S → S;
  s_mul : S → S → S;
  s_div : S → S → S;
  s_abs : S → S;
  s_ltb : S → S → bool;
  s_leb : S → S → bool;
  s_isfinite : S → bool
}.

(** [Dune::FieldVector<Scalar, numEq>], and
    [Dune::FieldMatrix<Scalar, numEq, numEq>] row by row. *)
Abbreviation VectorBlock S := (list S) (only parsing).
Abbreviation MatrixBlock S := (list (list S)) (only parsing).

Section Blocks.
Context {S : Type} `{!ScalarOps S}.

#[global] Instance scalar_inhabited : Inhabited S := populate s_zero.

(** [std::max(a, b)] is [(a < b) ? b : a], [std::min(a, b)] is
    [(b < a) ? b : a]. *)
Definition s_max (a b : S) : S := if s_ltb a b then b else a.
Definition s_min (a b : S) : S := if s_ltb b a then b else a.

Definition vb_zero (numEq : nat) : VectorBlock S := replicate numEq s_zero.
Definition mb_zero (numEq : nat) : MatrixBlock S :=
  replicate numEq (replicate numEq s_zero).

(** [v = 0]: every entry becomes zero, the shape stays. *)
Definition vb_clear (v : VectorBlock S) : VectorBlock S := const s_zero <$> v.
Definition mb_clear (m : MatrixBlock S) : MatrixBlock S := vb_clear <$> m.

(** [v += w], [v -= w], [v *= k] *)
Definition vb_add (v w : VectorBlock S) : VectorBlock S := zip_with s_add v w.
Definition vb_sub (v w : VectorBlock S) : VectorBlock S := zip_with s_sub v w.
Definition vb_scale (v : VectorBlock S) (k : S) : VectorBlock S :=
  (λ x, s_mul x k) <$> v.

Definition mb_add (a b : MatrixBlock S) : MatrixBlock S := zip_with vb_add a b.
Definition mb_sub (a b : MatrixBlock S) : MatrixBlock S := zip_with vb_sub a b.
Definition mb_scale (a : MatrixBlock S) (k : S) : MatrixBlock S :=
  (λ r, vb_scale r k) <$> a.

(** [two_norm2()] of a block and of a block vector: the running sum of the
    squares of the entries, block after block (dune-common, dune-istl). *)
Definition vb_two_norm2 (v : VectorBlock S) : S :=
  foldl (λ acc x, s_add acc (s_mul x x)) s_zero v.
Definition two_norm2 (u : list (VectorBlock S)) : S :=
  foldl (λ acc b, s_add acc (vb_two_norm2 b)) s_zero u.
End Blocks.

(** A counted loop [for (i = 0; i < n; ++i) body], threading the state. *)
Definition forLoop {A : Type} (n : nat) (body : nat → A → A) (a : A) : A :=
  foldl (λ acc i, body i acc) a (seq 0 n).

(** Two arrays of the same length whose cells are related by [R], index by
    index. *)
Definition cellwise {A : Type} `{!Inhabited A} (R : A → A → Prop)
    (l l' : list A) : Prop :=
  length l' = length l ∧ ∀ j, R (l !!! j) (l' !!! j).

(** ** Outcome of code that may throw [Opm::NumericalProblem] *)

(** [Done s]: returned normally in state [s]; [Raised s]: the exception left
    the function with the object in state [s]. *)
Inductive outcome (A : Type) : Type :=
  | Done (s : A)
  | Raised (s : A).
Arguments Done {A} s.
Arguments Raised {A} s.

(** A loop over a sequence whose body may throw: the first exception ends
    the loop. *)
Fixpoint forEach {A E : Type} (body : E → A → outcome A) (es : list E)
    (a : A) : outcome A :=
  match es with
  | [] => Done a
  | e :: es' =>
      match body e a with
      | Done a' => forEach body es' a'
      | Raised a' => Raised a'
      end
  end.

Definition final_state {A : Type} (o : outcome A) : A :=
  match o with Done s | Raised s => s end.

Definition is_done {A : Type} (o : outcome A) : bool :=
  match o with Done _ => true | Raised _ => false end.

(** ** The grid and the discretization, as the assembler sees them *)

(** [EntityColor], in the order of the enumeration ([Red = 0] to
    [Green = 3]). *)
Inductive EntityColor : Type := Red | Yellow | Orange | Green.

#[global] Instance EntityColor_eq_dec : EqDecision EntityColor.
Proof. solve_decision. Defined.

(** [EntityColor()] is [Red], the color a resized vector is filled with. It
    is also what a read past the end of a color array yields in the
    embedding; in C++ such a read is undefined, and the statements below
    that depend on an index carry its bound as a hypothesis. *)
#[global] Instance EntityColor_inhabited : Inhabited EntityColor := populate Red.


(** An element of the grid view: its index under the element mapper, the
    global indices of the degrees of freedom of its stencil in local order
    ([globalSpaceIndex(dofIdx)] for [dofIdx < numDof()]; the first
    [numPrimaryDof] of them are the primary ones), and whether its partition
    type is [InteriorEntity]. *)
Record Element : Type := {
  elemIdx : nat;
  stencil : list nat;
  numPrimaryDof : nat;
  interior : bool
}.

(** What [localJacobian().assemble(elemCtx)] leaves behind for an element,
    indexed by local DOF index. *)
Record LocalJacobian (S : Type) : Type := {
  lj_residual : nat → VectorBlock S;
  lj_residualStorage : nat → VectorBlock S;
  lj_jacobianStorage : nat → MatrixBlock S;
  lj_jacobian : nat → nat → MatrixBlock S
}.
Arguments lj_residual {S}.
Arguments lj_residualStorage {S}.
Arguments lj_jacobianStorage {S}.
Arguments lj_jacobian {S}.

(** What [localResidual().eval(elemCtx)] leaves behind. *)
Record LocalResidual (S : Type) : Type := {
  lr_residual : nat → VectorBlock S;
  lr_storageTerm : nat → VectorBlock S
}.
Arguments lr_residual {S}.
Arguments lr_storageTerm {S}.

(** The per-element evaluators of the model at the current iterate; [None]
    stands for an [Opm::NumericalProblem] thrown by [updateAll] or by the
    evaluation. *)
Record Evaluator (S : Type) : Type := {
  localJacobian : Element → option (LocalJacobian S);
  localResidual : Element → option (LocalResidual S)
}.
Arguments localJacobian {S}.
Arguments localResidual {S}.

(** The problem: the two run-time parameters, the grid view as the sequence
    its element iterator visits, the number of DOFs of the model, [numEq],
    and the model's [dofTotalVolume] and [eqWeight]. *)
Record Problem (S : Type) : Type := {
  enableLinearizationRecycling_ : bool;
  enablePartialRelinearization_ : bool;
  gridView_ : list Element;
  numDof : nat;
  numEq : nat;
  dofTotalVolume : nat → S;
  eqWeight : nat → nat → S
}.
Arguments enableLinearizationRecycling_ {S}.
Arguments enablePartialRelinearization_ {S}.
Arguments gridView_ {S}.
Arguments numDof {S}.
Arguments numEq {S}.
Arguments dofTotalVolume {S}.
Arguments eqWeight {S}.

(** The attributes of [FvBaseAssembler]. The block-compressed-row matrix is
    the sequence of its rows, each a finite map from the column indices of
    the row's sparsity pattern to blocks. *)
Record Assembler (S : Type) : Type := {
  matrix_ : list (gmap nat (MatrixBlock S));
  residual_ : list (VectorBlock S);
  reuseLinearization_ : bool;
  storageJacobian_ : list (MatrixBlock S);
  storageTerm_ : list (VectorBlock S);
  oldDt_ : S;
  dofColor_ : list EntityColor;
  dofError_ : list S;
  elementColor_ : list EntityColor;
  totalElems_ : nat;
  greenElems_ : nat;
  nextRelinearizationAccuracy_ : S;
  relinearizationAccuracy_ : S
}.
Arguments matrix_ {S}.
Arguments residual_ {S}.
Arguments reuseLinearization_ {S}.
Arguments storageJacobian_ {S}.
Arguments storageTerm_ {S}.
Arguments oldDt_ {S}.
Arguments dofColor_ {S}.
Arguments dofError_ {S}.
Arguments elementColor_ {S}.
Arguments totalElems_ {S}.
Arguments greenElems_ {S}.
Arguments nextRelinearizationAccuracy_ {S}.
Arguments relinearizationAccuracy_ {S}.

(** Assignment to one attribute. *)
Section Setters.
Context {S : Type}.
Implicit Type s : Assembler S.

Definition set_matrix_ (v : list (gmap nat (MatrixBlock S))) s : Assembler S :=
  {| matrix_ := v; residual_ := residual_ s;
     reuseLinearization_ := reuseLinearization_ s;
     storageJacobian_ := storageJacobian_ s;
     storageTerm_ := storageTerm_ s; oldDt_ := oldDt_ s;
     dofColor_ := dofColor_ s; dofError_ := dofError_ s;
     elementColor_ := elementColor_ s; totalElems_ := totalElems_ s;
     greenElems_ := greenElems_ s;
     nextRelinearizationAccuracy_ := nextRelinearizationAccuracy_ s;
     relinearizationAccuracy_ := relinearizationAccuracy_ s |}.

Definition set_residual_ (v : list (VectorBlock S)) s : Assembler S :=
  {| matrix_ := matrix_ s; residual_ := v;
     reuseLinearization_ := reuseLinearization_ s;
     storageJacobian_ := storageJacobian_ s;
     storageTerm_ := storageTerm_ s; oldDt_ := oldDt_ s;
     dofColor_ := dofColor_ s; dofError_ := dofError_ s;
     elementColor_ := elementColor_ s; totalElems_ := totalElems_ s;
     greenElems_ := greenElems_ s;
     nextRelinearizationAccuracy_ := nextRelinearizationAccuracy_ s;
     relinearizationAccuracy_ := relinearizationAccuracy_ s |}.

Definition set_reuseLinearization_ (v : bool) s : Assembler S :=
  {| matrix_ := matrix_ s; residual_ := residual_ s;
     reuseLinearization_ := v; storageJacobian_ := storageJacobian_ s;
     storageTerm_ := storageTerm_ s; oldDt_ := oldDt_ s;
     dofColor_ := dofColor_ s; dofError_ := dofError_ s;
     elementColor_ := elementColor_ s; totalElems_ := totalElems_ s;
     greenElems_ := greenElems_ s;
     nextRelinearizationAccuracy_ := nextRelinearizationAccuracy_ s;
     relinearizationAccuracy_ := relinearizationAccuracy_ s |}.

Definition set_storageJacobian_ (v : list (MatrixBlock S)) s : Assembler S :=
  {| matrix_ := matrix_ s; residual_ := residual_ s;
     reuseLinearization_ := reuseLinearization_ s; storageJacobian_ := v;
     storageTerm_ := storageTerm_ s; oldDt_ := oldDt_ s;
     dofColor_ := dofColor_ s; dofError_ := dofError_ s;
     elementColor_ := elementColor_ s; totalElems_ := totalElems_ s;
     greenElems_ := greenElems_ s;
     nextRelinearizationAccuracy_ := nextRelinearizationAccuracy_ s;
     relinearizationAccuracy_ := relinearizationAccuracy_ s |}.

Definition set_storageTerm_ (v : list (VectorBlock S)) s : Assembler S :=
  {| matrix_ := matrix_ s; residual_ := residual_ s;
     reuseLinearization_ := reuseLinearization_ s;
     storageJacobian_ := storageJacobian_ s; storageTerm_ := v;
     oldDt_ := oldDt_ s; dofColor_ := dofColor_ s;
     dofError_ := dofError_ s; elementColor_ := elementColor_ s;
     totalElems_ := totalElems_ s; greenElems_ := greenElems_ s;
     nextRelinearizationAccuracy_ := nextRelinearizationAccuracy_ s;
     relinearizationAccuracy_ := relinearizationAccuracy_ s |}.

Definition set_oldDt_ (v : S) s : Assembler S :=
  {| matrix_ := matrix_ s; residual_ := residual_ s;
     reuseLinearization_ := reuseLinearization_ s;
     storageJacobian_ := storageJacobian_ s;
     storageTerm_ := storageTerm_ s; oldDt_ := v; dofColor_ := dofColor_ s;
     dofError_ := dofError_ s; elementColor_ := elementColor_ s;
     totalElems_ := totalElems_ s; greenElems_ := greenElems_ s;
     nextRelinearizationAccuracy_ := nextRelinearizationAccuracy_ s;
     relinearizationAccuracy_ := relinearizationAccuracy_ s |}.

Definition set_dofColor_ (v : list EntityColor) s : Assembler S :=
  {| matrix_ := matrix_ s; residual_ := residual_ s;
     reuseLinearization_ := reuseLinearization_ s;
     storageJacobian_ := storageJacobian_ s;
     storageTerm_ := storageTerm_ s; oldDt_ := oldDt_ s; dofColor_ := v;
     dofError_ := dofError_ s; elementColor_ := elementColor_ s;
     totalElems_ := totalElems_ s; greenElems_ := greenElems_ s;
     nextRelinearizationAccuracy_ := nextRelinearizationAccuracy_ s;
     relinearizationAccuracy_ := relinearizationAccuracy_ s |}.

Definition set_dofError_ (v : list S) s : Assembler S :=
  {| matrix_ := matrix_ s; residual_ := residual_ s;
     reuseLinearization_ := reuseLinearization_ s;
     storageJacobian_ := storageJacobian_ s;
     storageTerm_ := storageTerm_ s; oldDt_ := oldDt_ s;
     dofColor_ := dofColor_ s; dofError_ := v;
     elementColor_ := elementColor_ s; totalElems_ := totalElems_ s;
     greenElems_ := greenElems_ s;
     nextRelinearizationAccuracy_ := nextRelinearizationAccuracy_ s;
     relinearizationAccuracy_ := relinearizationAccuracy_ s |}.

Definition set_elementColor_ (v : list EntityColor) s : Assembler S :=
  {| matrix_ := matrix_ s; residual_ := residual_ s;
     reuseLinearization_ := reuseLinearization_ s;
     storageJacobian_ := storageJacobian_ s;
     storageTerm_ := storageTerm_ s; oldDt_ := oldDt_ s;
     dofColor_ := dofColor_ s; dofError_ := dofError_ s;
     elementColor_ := v; totalElems_ := totalElems_ s;
     greenElems_ := greenElems_ s;
     nextRelinearizationAccuracy_ := nextRelinearizationAccuracy_ s;
     relinearizationAccuracy_ := relinearizationAccuracy_ s |}.

Definition set_totalElems_ (v : nat) s : Assembler S :=
  {| matrix_ := matrix_ s; residual_ := residual_ s;
     reuseLinearization_ := reuseLinearization_ s;
     storageJacobian_ := storageJacobian_ s;
     storageTerm_ := storageTerm_ s; oldDt_ := oldDt_ s;
     dofColor_ := dofColor_ s; dofError_ := dofError_ s;
     elementColor_ := elementColor_ s; totalElems_ := v;
     greenElems_ := greenElems_ s;
     nextRelinearizationAccuracy_ := nextRelinearizationAccuracy_ s;
     relinearizationAccuracy_ := relinearizationAccuracy_ s |}.

Definition set_greenElems_ (v : nat) s : Assembler S :=
  {| matrix_ := matrix_ s; residual_ := residual_ s;
     reuseLinearization_ := reuseLinearization_ s;
     storageJacobian_ := storageJacobian_ s;
     storageTerm_ := storageTerm_ s; oldDt_ := oldDt_ s;
     dofColor_ := dofColor_ s; dofError_ := dofError_ s;
     elementColor_ := elementColor_ s; totalElems_ := totalElems_ s;
     greenElems_ := v;
     nextRelinearizationAccuracy_ := nextRelinearizationAccuracy_ s;
     relinearizationAccuracy_ := relinearizationAccuracy_ s |}.

Definition set_nextRelinearizationAccuracy_ (v : S) s : Assembler S :=
  {| matrix_ := matrix_ s; residual_ := residual_ s;
     reuseLinearization_ := reuseLinearization_ s;
     storageJacobian_ := storageJacobian_ s;
     storageTerm_ := storageTerm_ s; oldDt_ := oldDt_ s;
     dofColor_ := dofColor_ s; dofError_ := dofError_ s;
     elementColor_ := elementColor_ s; totalElems_ := totalElems_ s;
     greenElems_ := greenElems_ s; nextRelinearizationAccuracy_ := v;
     relinearizationAccuracy_ := relinearizationAccuracy_ s |}.

Definition set_relinearizationAccuracy_ (v : S) s : Assembler S :=
  {| matrix_ := matrix_ s; residual_ := residual_ s;
     reuseLinearization_ := reuseLinearization_ s;
     storageJacobian_ := storageJacobian_ s;
     storageTerm_ := storageTerm_ s; oldDt_ := oldDt_ s;
     dofColor_ := dofColor_ s; dofError_ := dofError_ s;
     elementColor_ := elementColor_ s; totalElems_ := totalElems_ s;
     greenElems_ := greenElems_ s;
     nextRelinearizationAccuracy_ := nextRelinearizationAccuracy_ s;
     relinearizationAccuracy_ := v |}.
End Setters.

(** ** The coloring passes of [computeColors] *)

Section Coloring.
Context {S : Type} `{!ScalarOps S}.

(** The inner loop with [break]: does the stencil hold a DOF of color [c]? *)
Definition containsColor (c : EntityColor) (col : list EntityColor)
    (st : list nat) : bool :=
  existsb (λ globalIdx, bool_decide (col !!! globalIdx = c)) st.

(** First loop: a DOF whose error is above the tolerance becomes red; the
    errors of the others feed the running maximum, which starts at 0. *)
Definition markRedDofs (tolerance : S) (err : list S)
    (col : list EntityColor) : list EntityColor * S :=
  forLoop (length col)
    (λ i '(col, acc),
       if s_ltb tolerance (err !!! i)
       then (<[i := Red]> col, acc)
       else (col, s_max acc (err !!! i)))
    (col, s_zero).

(** The running maximum of the first loop, on its own. *)
Definition accuracyOf (tolerance : S) (err : list S) (n : nat) : S :=
  forLoop n
    (λ i acc, if s_ltb tolerance (err !!! i) then acc
              else s_max acc (err !!! i))
    s_zero.

(** "Mark all red elements" *)
Definition markRedElements (grid : list Element) (col : list EntityColor)
    (ecol : list EntityColor) : list EntityColor :=
  foldl (λ ecol e,
           <[elemIdx e := if containsColor Red col (stencil e)
                          then Red else Green]> ecol)
        ecol grid.

(** "Mark yellow degrees of freedom (as orange for the mean time)" *)
Definition markOrangeDofs (grid : list Element) (ecol : list EntityColor)
    (col : list EntityColor) : list EntityColor :=
  foldl (λ col e,
           if bool_decide (ecol !!! elemIdx e ≠ Red) then col
           else foldl (λ col globalIdx,
                         if bool_decide (col !!! globalIdx ≠ Red)
                         then <[globalIdx := Orange]> col else col)
                      col (stencil e))
        col grid.

(** What the orange-marking loop may do to a cell: nothing, or turn a cell
    that is not red orange. *)
Definition tinted (x y : EntityColor) : Prop :=
  y = x ∨ (x ≠ Red ∧ y = Orange).

(** What the demotion loop may do to a cell: nothing, or turn an orange
    cell yellow. *)
Definition demoted (x y : EntityColor) : Prop :=
  y = x ∨ (x = Orange ∧ y = Yellow).

(** The border exchanges through [minHandle] and [maxHandle] over the
    [InteriorBorder_InteriorBorder_Interface]. On a grid with a single
    partition this interface is empty and [communicate] changes nothing;
    that is the case modelled here. *)
Definition communicateMin (col : list EntityColor) : list EntityColor := col.
Definition communicateMax (col : list EntityColor) : list EntityColor := col.

(** "Mark yellow elements" *)
Definition markYellowElements (grid : list Element) (col : list EntityColor)
    (ecol : list EntityColor) : list EntityColor :=
  foldl (λ ecol e,
           if bool_decide (ecol !!! elemIdx e = Red) then ecol
           else if containsColor Orange col (stencil e)
                then <[elemIdx e := Yellow]> ecol else ecol)
        ecol grid.

(** "Demote orange degrees of freedom to yellow ones if it has at least
    one green element as a neighbor." *)
Definition demoteOrangeDofs (grid : list Element) (ecol : list EntityColor)
    (col : list EntityColor) : list EntityColor :=
  foldl (λ col e,
           if bool_decide (ecol !!! elemIdx e ≠ Green) then col
           else foldl (λ col globalIdx,
                         if bool_decide (col !!! globalIdx = Orange)
                         then <[globalIdx := Yellow]> col else col)
                      col (stencil e))
        col grid.

(** "promote the remaining orange degrees of freedom to red", with the
    error of every red DOF set to 0. *)
Definition promoteOrangeDofs (col : list EntityColor) (err : list S)
    : list EntityColor * list S :=
  forLoop (length col)
    (λ i '(col, err),
       if bool_decide (col !!! i = Green) || bool_decide (col !!! i = Yellow)
       then (col, err)
       else (<[i := Red]> col, <[i := s_zero]> err))
    (col, err).
End Coloring.

(** ** The public and private methods of [FvBaseAssembler] *)

Section Assembler.
Context {S : Type} `{!ScalarOps S}.
Variable pb : Problem S.

Implicit Type s : Assembler S.

(** The constructor; [oldDt_] is not initialised by it (nor by [init]),
    so its value is whatever [dt0] the memory holds. *)
Definition FvBaseAssembler_new (dt0 : S) : Assembler S :=
  {| matrix_ := []; residual_ := []; reuseLinearization_ := false;
     storageJacobian_ := []; storageTerm_ := []; oldDt_ := dt0;
     dofColor_ := []; dofError_ := []; elementColor_ := [];
     totalElems_ := 0; greenElems_ := 0;
     nextRelinearizationAccuracy_ := s_zero;
     relinearizationAccuracy_ := s_zero |}.

Definition setLinearizationReusable (yesno : bool) s : Assembler S :=
  if enableLinearizationRecycling_ pb
  then set_reuseLinearization_ yesno s else s.

Definition relinearizeAll s : Assembler S :=
  let s := set_reuseLinearization_ false s in
  let s := set_nextRelinearizationAccuracy_ s_zero s in
  if enablePartialRelinearization_ pb then
    let s := set_dofError_ (const s_zero <$> dofError_ s) s in
    let s := set_dofColor_ (const Red <$> dofColor_ s) s in
    set_elementColor_ (const Red <$> elementColor_ s) s
  else s.

Definition relinearizationAccuracy s : S := relinearizationAccuracy_ s.

Definition updateDiscrepancy (previousResid : list (VectorBlock S)) s
    : Assembler S :=
  if negb (enablePartialRelinearization_ pb) then s
  else
    forLoop (length previousResid)
      (λ globalDofIdx s,
         if s_leb (dofTotalVolume pb globalDofIdx) s_zero
         then set_dofError_ (<[globalDofIdx := s_zero]> (dofError_ s)) s
         else
           let r := previousResid !!! globalDofIdx in
           let dist :=
             forLoop (length r)
               (λ eqIdx dist,
                  s_max dist
                    (s_abs (s_mul (r !!! eqIdx)
                                  (eqWeight pb globalDofIdx eqIdx))))
               s_zero in
           set_dofError_ (<[globalDofIdx := dist]> (dofError_ s)) s)
      s.

Definition markDofRed (globalDofIdx : nat) s : Assembler S :=
  if negb (enablePartialRelinearization_ pb) then s
  else set_dofColor_ (<[globalDofIdx := Red]> (dofColor_ s)) s.

Definition computeColors (tolerance : S) s : Assembler S :=
  if negb (enablePartialRelinearization_ pb) then s
  else
    let grid := gridView_ pb in
    let '(col, acc) := markRedDofs tolerance (dofError_ s) (dofColor_ s) in
    let ecol := markRedElements grid col (elementColor_ s) in
    let col := markOrangeDofs grid ecol col in
    let col := communicateMin col in
    let ecol := markYellowElements grid col ecol in
    let col := demoteOrangeDofs grid ecol col in
    let col := communicateMax col in
    let '(col, err) := promoteOrangeDofs col (dofError_ s) in
    set_dofError_ err
      (set_dofColor_ col
         (set_elementColor_ ecol
            (set_nextRelinearizationAccuracy_ acc s))).

(** [dofColor(int globalDofIdx)] *)
Definition dofColor s (globalDofIdx : nat) : EntityColor :=
  if negb (enablePartialRelinearization_ pb) then Red
  else dofColor_ s !!! globalDofIdx.

(** [dofColor(const ElementContext &elemCtx, int dofIdx)]; the context is
    bound to the element [elem]. *)
Definition dofColorCtx s (elem : Element) (dofIdx : nat) : EntityColor :=
  if negb (enablePartialRelinearization_ pb) then Red
  else dofColor_ s !!! (stencil elem !!! dofIdx).

(** [elementColor(int globalElementIdx)] *)
Definition elementColor s (globalElementIdx : nat) : EntityColor :=
  if negb (enablePartialRelinearization_ pb) then Red
  else elementColor_ s !!! globalElementIdx.

(** [elementColor(const Element &element)] *)
Definition elementColorOf s (element : Element) : EntityColor :=
  if negb (enablePartialRelinearization_ pb) then Red
  else elementColor_ s !!! elemIdx element.

(** The colors, the errors and the pending accuracy of [x] are those of
    [s]. *)
Definition colors_kept s (x : Assembler S) : Prop :=
  dofColor_ x = dofColor_ s
  ∧ elementColor_ x = elementColor_ s
  ∧ dofError_ x = dofError_ s
  ∧ nextRelinearizationAccuracy_ x = nextRelinearizationAccuracy_ s.

Definition matrix s : list (gmap nat (MatrixBlock S)) := matrix_ s.

(** The block [m[i][j]] of a matrix, if the sparsity pattern has it. *)
Definition block (m : list (gmap nat (MatrixBlock S))) (i j : nat)
    : option (MatrixBlock S) :=
  m !! i ≫= λ row, row !! j.
Definition residual s : list (VectorBlock S) := residual_ s.
End Assembler.

Section Assembly.
Context {S : Type} `{!ScalarOps S}.
Variable pb : Problem S.

Implicit Type s : Assembler S.

(** The collective reductions [comm().min], [comm().sum], [comm().max] of
    the grid view; with a single partition each returns its argument. *)
Definition comm_min (b : bool) : bool := b.
Definition comm_sum (n : nat) : nat := n.
Definition comm_max (x : S) : S := x.

(** [createMatrix_]: row [i] gets a block at every column that shares an
    element's stencil with [i] as a primary DOF. The blocks are allocated
    here and zeroed by [init]. *)
Definition createMatrix_ : list (gmap nat (MatrixBlock S)) :=
  let neighbors : list (gset nat) :=
    foldl (λ neighbors e,
             forLoop (numPrimaryDof e)
               (λ primaryDofIdx neighbors,
                  let myIdx := stencil e !!! primaryDofIdx in
                  forLoop (length (stencil e))
                    (λ dofIdx neighbors,
                       let neighborIdx := stencil e !!! dofIdx in
                       alter (λ ns, {[neighborIdx]} ∪ ns) myIdx neighbors)
                    neighbors)
               neighbors)
          (replicate (numDof pb) ∅) (gridView_ pb) in
  (λ ns, gset_to_gmap (mb_zero (numEq pb)) ns) <$> neighbors.

Definition init s : Assembler S :=
  let s := set_matrix_ (fmap (M:=gmap nat) mb_clear <$> createMatrix_) s in
  let s := set_reuseLinearization_ false s in
  let numElems := length (gridView_ pb) in
  let s := set_residual_
             (resize (numDof pb) (vb_zero (numEq pb)) (residual_ s)) s in
  let s :=
    if enableLinearizationRecycling_ pb then
      set_storageTerm_
        (resize (numDof pb) (vb_zero (numEq pb)) (storageTerm_ s))
        (set_storageJacobian_
           (resize (numDof pb) (mb_zero (numEq pb)) (storageJacobian_ s)) s)
    else s in
  let s := set_totalElems_ (comm_sum numElems) s in
  let s :=
    if enablePartialRelinearization_ pb then
      set_elementColor_ (resize numElems Red (elementColor_ s))
        (set_dofError_ (resize (numDof pb) s_zero (dofError_ s))
           (set_dofColor_ (resize (numDof pb) Red (dofColor_ s)) s))
    else s in
  relinearizeAll pb s.

Definition resetSystem_ s : Assembler S :=
  if reuseLinearization_ s then s
  else
    let s := set_residual_ (vb_clear <$> residual_ s) s in
    if negb (enablePartialRelinearization_ pb) then
      let s := set_matrix_ (fmap (M:=gmap nat) mb_clear <$> matrix_ s) s in
      if enableLinearizationRecycling_ pb then
        forLoop (length (matrix_ s))
          (λ i s,
             set_storageTerm_ (alter vb_clear i (storageTerm_ s))
               (set_storageJacobian_
                  (alter mb_clear i (storageJacobian_ s)) s))
          s
      else s
    else
      forLoop (length (matrix_ s))
        (λ rowIdx s,
           if bool_decide (dofColor_ s !!! rowIdx = Green) then s
           else
             let s :=
               if enableLinearizationRecycling_ pb then
                 set_storageTerm_ (alter vb_clear rowIdx (storageTerm_ s))
                   (set_storageJacobian_
                      (alter mb_clear rowIdx (storageJacobian_ s)) s)
               else s in
             set_matrix_ (alter (fmap (M:=gmap nat) mb_clear) rowIdx (matrix_ s)) s)
        s.

Variable ev : Evaluator S.

Definition assembleGreenElement_ (elem : Element) s
    : outcome (Assembler S) :=
  match localResidual ev elem with
  | None => Raised s
  | Some lr =>
      Done
        (forLoop (numPrimaryDof elem)
           (λ dofIdx s,
              let globI := stencil elem !!! dofIdx in
              let s :=
                set_residual_
                  (alter (λ r, vb_add r (lr_residual lr dofIdx)) globI
                     (residual_ s)) s in
              if enableLinearizationRecycling_ pb then
                set_storageTerm_
                  (alter (λ r, vb_add r (lr_storageTerm lr dofIdx)) globI
                     (storageTerm_ s)) s
              else s)
           s)
  end.

Definition assembleElement_ (elem : Element) s : outcome (Assembler S) :=
  if enablePartialRelinearization_ pb
     && bool_decide (elementColor_ s !!! elemIdx elem = Green)
  then assembleGreenElement_ elem (set_greenElems_ (greenElems_ s + 1) s)
  else
    match localJacobian ev elem with
    | None => Raised s
    | Some lj =>
        Done
          (forLoop (numPrimaryDof elem)
             (λ primaryDofIdx s,
                let globI := stencil elem !!! primaryDofIdx in
                let s :=
                  set_residual_
                    (alter (λ r, vb_add r (lj_residual lj primaryDofIdx))
                       globI (residual_ s)) s in
                let s :=
                  if enableLinearizationRecycling_ pb then
                    set_storageTerm_
                      (alter
                         (λ r, vb_add r (lj_residualStorage lj primaryDofIdx))
                         globI (storageTerm_ s)) s
                  else s in
                if bool_decide (dofColor pb s globI ≠ Green) then
                  let s :=
                    if enableLinearizationRecycling_ pb then
                      set_storageJacobian_
                        (alter
                           (λ b, mb_add b
                                   (lj_jacobianStorage lj primaryDofIdx))
                           globI (storageJacobian_ s)) s
                    else s in
                  forLoop (length (stencil elem))
                    (λ dofIdx s,
                       let globJ := stencil elem !!! dofIdx in
                       set_matrix_
                         (alter
                            (alter
                               (λ b, mb_add b
                                       (lj_jacobian lj primaryDofIdx dofIdx))
                               globJ)
                            globI (matrix_ s)) s)
                    s
                else s)
             s)
    end.

(** The storage terms that the evaluation of [elem] adds to the cached
    storage term of the DOF [i], in the order of the loop over the primary
    DOFs: those of [localResidual] when the element is assembled as a green
    one, those of [localJacobian] otherwise. [ecol] are the element colors. *)
Definition elementStorageTerms (ecol : list EntityColor) (i : nat)
    (elem : Element) : list (VectorBlock S) :=
  let storage :=
    if enablePartialRelinearization_ pb
       && bool_decide (ecol !!! elemIdx elem = Green)
    then lr_storageTerm <$> localResidual ev elem
    else lj_residualStorage <$> localJacobian ev elem in
  match storage with
  | None => []
  | Some f =>
      flat_map (λ p, if bool_decide (stencil elem !!! p = i) then [f p] else [])
               (seq 0 (numPrimaryDof elem))
  end.

(** The storage terms freshly evaluated for the DOF [i] by one traversal of
    the interior elements. *)
Definition freshStorageTerms (ecol : list EntityColor) (i : nat)
    : list (VectorBlock S) :=
  flat_map (λ elem, if negb (interior elem) then []
                    else elementStorageTerms ecol i elem)
           (gridView_ pb).

(** The loop of the recycled path of [assemble_]. *)
Definition recycleDof (curDt : S) (i : nat) s : Assembler S :=
  let s :=
    set_matrix_
      (alter (alter (λ J_i_i, mb_sub J_i_i (storageJacobian_ s !!! i)) i) i
         (matrix_ s)) s in
  let s :=
    set_storageJacobian_
      (alter (λ b, mb_scale b (s_div (oldDt_ s) curDt)) i
         (storageJacobian_ s)) s in
  let s :=
    set_matrix_
      (alter (alter (λ J_i_i, mb_add J_i_i (storageJacobian_ s !!! i)) i) i
         (matrix_ s)) s in
  let s := set_residual_ (<[i := storageTerm_ s !!! i]> (residual_ s)) s in
  set_residual_
    (alter (λ r, vb_scale r (s_of_Z (-1))) i (residual_ s)) s.

Definition assemble_ (curDt : S) s : outcome (Assembler S) :=
  let s := resetSystem_ s in
  if reuseLinearization_ s then
    let s := forLoop (length (storageJacobian_ s)) (recycleDof curDt) s in
    let s := set_reuseLinearization_ false s in
    Done (set_oldDt_ curDt s)
  else
    let s := set_oldDt_ curDt s in
    let s := set_greenElems_ 0 s in
    forEach (λ elem s,
               if negb (interior elem) then Done s
               else assembleElement_ elem s)
            (gridView_ pb) s.

(** [assemble()]. The exception caught around [assemble_] turns into
    [succeeded = 0] and is thrown again after the reduction, before the
    colors are reset. *)
Definition assemble (curDt : S) s : outcome (Assembler S) :=
  let linearizationReused := reuseLinearization_ s in
  let r := assemble_ curDt s in
  let succeeded := comm_min (is_done r) in
  let s := final_state r in
  if negb succeeded then Raised s
  else
    let s :=
      if negb linearizationReused && enablePartialRelinearization_ pb then
        let s := set_greenElems_ (comm_sum (greenElems_ s)) s in
        set_relinearizationAccuracy_
          (comm_max (nextRelinearizationAccuracy_ s)) s
      else s in
    Done (set_dofColor_ (const Green <$> dofColor_ s) s).
End Assembly.

(** ** [FvBaseNewtonMethod::update_] *)

Section Newton.
Context {S : Type} `{!ScalarOps S}.
Variable pb : Problem S.

(** The relinearization tolerance derived from the current error. *)
Definition reassembleTol (tolerance_ error_ : S) : S :=
  let minReasmTol := s_mul (s_of_Z 10) tolerance_ in
  let maxReasmTol := s_1em4 in
  let reassembleTol := s_mul error_ error_ in
  s_max minReasmTol (s_min maxReasmTol reassembleTol).

(** The state [update_] works on is the assembler of the model and the
    vector [uCurrentIter]; [uLastIter] and [deltaU] are read only.
    [enablePartialReassemble_], [tolerance_] and [error_] belong to the
    Newton method. The assembler's [updateDiscrepancy] takes one vector, the
    update [deltaU]. *)
Definition update_ (enablePartialReassemble_ : bool) (tolerance_ error_ : S)
    (uLastIter deltaU : list (VectorBlock S))
    (st : Assembler S * list (VectorBlock S))
    : outcome (Assembler S * list (VectorBlock S)) :=
  let '(asm, uCurrentIter) := st in
  if negb (s_isfinite (two_norm2 deltaU)) then Raised (asm, uCurrentIter)
  else
    let asm :=
      if enablePartialReassemble_ then
        computeColors pb (reassembleTol tolerance_ error_)
          (updateDiscrepancy pb deltaU asm)
      else asm in
    Done (asm,
          forLoop (length uLastIter)
            (λ i uCurrentIter,
               let uCurrentIter :=
                 <[i := uLastIter !!! i]> uCurrentIter in
               alter (λ u, vb_sub u (deltaU !!! i)) i uCurrentIter)
            uCurrentIter).
End Newton.

(** ** An assembler without any coloring, for comparison

    The linear system and the recycling cache are all the state there is;
    every non-recycled assembly resets everything and evaluates the full
    local residual and Jacobian of every interior element. *)

Record LinearSystem (S : Type) : Type := {
  ls_matrix : list (gmap nat (MatrixBlock S));
  ls_residual : list (VectorBlock S);
  ls_reuse : bool;
  ls_storageJacobian : list (MatrixBlock S);
  ls_storageTerm : list (VectorBlock S);
  ls_oldDt : S
}.
Arguments ls_matrix {S}.
Arguments ls_residual {S}.
Arguments ls_reuse {S}.
Arguments ls_storageJacobian {S}.
Arguments ls_storageTerm {S}.
Arguments ls_oldDt {S}.

(** The part of the assembler that is the linear system. *)
Definition linearSystemOf {S : Type} (s : Assembler S) : LinearSystem S :=
  {| ls_matrix := matrix_ s; ls_residual := residual_ s;
     ls_reuse := reuseLinearization_ s;
     ls_storageJacobian := storageJacobian_ s;
     ls_storageTerm := storageTerm_ s; ls_oldDt := oldDt_ s |}.

Definition outcome_map {A B : Type} (f : A → B) (o : outcome A) : outcome B :=
  match o with
  | Done s => Done (f s)
  | Raised s => Raised (f s)
  end.

Section Plain.
Context {S : Type} `{!ScalarOps S}.
Variable pb : Problem S.
Variable ev : Evaluator S.

Implicit Type l : LinearSystem S.

(** Reset the whole system. *)
Definition plainReset l : LinearSystem S :=
  let l :=
    {| ls_matrix := fmap (M:=gmap nat) mb_clear <$> ls_matrix l;
       ls_residual := vb_clear <$> ls_residual l;
       ls_reuse := ls_reuse l;
       ls_storageJacobian := ls_storageJacobian l;
       ls_storageTerm := ls_storageTerm l; ls_oldDt := ls_oldDt l |} in
  if enableLinearizationRecycling_ pb then
    forLoop (length (ls_matrix l))
      (λ i l,
         {| ls_matrix := ls_matrix l; ls_residual := ls_residual l;
            ls_reuse := ls_reuse l;
            ls_storageJacobian := alter mb_clear i (ls_storageJacobian l);
            ls_storageTerm := alter vb_clear i (ls_storageTerm l);
            ls_oldDt := ls_oldDt l |})
      l
  else l.

(** Evaluate one element in full and accumulate all of it. *)
Definition plainElement (elem : Element) l : outcome (LinearSystem S) :=
  match localJacobian ev elem with
  | None => Raised l
  | Some lj =>
      Done
        (forLoop (numPrimaryDof elem)
           (λ primaryDofIdx l,
              let globI := stencil elem !!! primaryDofIdx in
              let l :=
                {| ls_matrix := ls_matrix l;
                   ls_residual :=
                     alter (λ r, vb_add r (lj_residual lj primaryDofIdx))
                       globI (ls_residual l);
                   ls_reuse := ls_reuse l;
                   ls_storageJacobian :=
                     if enableLinearizationRecycling_ pb then
                       alter (λ b, mb_add b
                                     (lj_jacobianStorage lj primaryDofIdx))
                         globI (ls_storageJacobian l)
                     else ls_storageJacobian l;
                   ls_storageTerm :=
                     if enableLinearizationRecycling_ pb then
                       alter
                         (λ r, vb_add r (lj_residualStorage lj primaryDofIdx))
                         globI (ls_storageTerm l)
                     else ls_storageTerm l;
                   ls_oldDt := ls_oldDt l |} in
              forLoop (length (stencil elem))
                (λ dofIdx l,
                   let globJ := stencil elem !!! dofIdx in
                   {| ls_matrix :=
                        alter
                          (alter
                             (λ b, mb_add b
                                     (lj_jacobian lj primaryDofIdx dofIdx))
                             globJ)
                          globI (ls_matrix l);
                      ls_residual := ls_residual l; ls_reuse := ls_reuse l;
                      ls_storageJacobian := ls_storageJacobian l;
                      ls_storageTerm := ls_storageTerm l;
                      ls_oldDt := ls_oldDt l |})
                l)
           l)
  end.

(** The full element traversal: reset, then every interior element. *)
Definition plainTraversal (curDt : S) l : outcome (LinearSystem S) :=
  let l := plainReset l in
  let l :=
    {| ls_matrix := ls_matrix l; ls_residual := ls_residual l;
       ls_reuse := ls_reuse l; ls_storageJacobian := ls_storageJacobian l;
       ls_storageTerm := ls_storageTerm l; ls_oldDt := curDt |} in
  forEach (λ elem l, if negb (interior elem) then Done l
                     else plainElement elem l)
          (gridView_ pb) l.

(** The recycled path: rescale the cached storage term of every DOF. *)
Definition plainRecycle (curDt : S) l : LinearSystem S :=
  let l :=
    forLoop (length (ls_storageJacobian l))
      (λ i l,
         let m :=
           alter (alter (λ J_i_i, mb_sub J_i_i (ls_storageJacobian l !!! i)) i)
             i (ls_matrix l) in
         let sj :=
           alter (λ b, mb_scale b (s_div (ls_oldDt l) curDt)) i
             (ls_storageJacobian l) in
         {| ls_matrix := alter (alter (λ J_i_i, mb_add J_i_i (sj !!! i)) i) i m;
            ls_residual :=
              alter (λ r, vb_scale r (s_of_Z (-1))) i
                (<[i := ls_storageTerm l !!! i]> (ls_residual l));
            ls_reuse := ls_reuse l; ls_storageJacobian := sj;
            ls_storageTerm := ls_storageTerm l; ls_oldDt := ls_oldDt l |})
      l in
  {| ls_matrix := ls_matrix l; ls_residual := ls_residual l;
     ls_reuse := false; ls_storageJacobian := ls_storageJacobian l;
     ls_storageTerm := ls_storageTerm l; ls_oldDt := curDt |}.

Definition plainAssemble (curDt : S) l : outcome (LinearSystem S) :=
  if ls_reuse l then Done (plainRecycle curDt l) else plainTraversal curDt l.
End Plain.

(** ** IEEE-754 binary64 as the scalar type *)

Definition b64_of_Z (z : Z) : spec_float := binary_normalize 53 1024 z 0 false.

Definition b64_isfinite (x : spec_float) : bool :=
  match x with
  | S754_zero _ | S754_finite _ _ _ => true
  | S754_infinity _ | S754_nan => false
  end.

(** [m * 2^e], rounded to binary64 *)
Definition b64 (m e : Z) : spec_float := binary_normalize 53 1024 m e false.

#[global] Instance binary64_ops : ScalarOps spec_float := {|
  s_zero := S754_zero false;
  s_of_Z := b64_of_Z;
  s_1em4 := S754_finite false 7378697629483821 (-66);
  s_add := SFadd 53 1024;
  s_sub := SFsub 53 1024;
  s_mul := SFmul 53 1024;
  s_div := SFdiv 53 1024;
  s_abs := SFabs;
  s_ltb := SFltb;
  s_leb := SFleb;
  s_isfinite := b64_isfinite
|}.

(** A vector block holds a non-finite entry. *)
Definition has_nonfinite (u : list (list spec_float)) : Prop :=
  ∃ b x, b ∈ u ∧ x ∈ b ∧ b64_isfinite x = false.

(** ** A small grid for concrete runs

    Three degrees of freedom in a row and two elements, each coupling two
    neighbours; one equation; binary64 scalars. *)

Definition chainElement (i : nat) : Element :=
  {| elemIdx := i; stencil := [i; i + 1]; numPrimaryDof := 2;
     interior := true |}.

Definition chain : Problem spec_float :=
  {| enableLinearizationRecycling_ := true;
     enablePartialRelinearization_ := true;
     gridView_ := [chainElement 0; chainElement 1];
     numDof := 3; numEq := 1;
     dofTotalVolume := λ _, b64_of_Z 1;
     eqWeight := λ _ _, b64_of_Z 1 |}.

(** An evaluator with constant local results. *)
Definition chainEvaluator : Evaluator spec_float :=
  {| localJacobian := λ _,
       Some {| lj_residual := λ _, [b64_of_Z 1];
               lj_residualStorage := λ _, [b64_of_Z 2];
               lj_jacobianStorage := λ _, [[b64_of_Z 3]];
               lj_jacobian := λ _ _, [[b64_of_Z 4]] |};
     localResidual := λ _,
       Some {| lr_residual := λ _, [b64_of_Z 1];
               lr_storageTerm := λ _, [b64_of_Z 2] |} |}.

(** After [init], and after the first (full) assembly. *)
Definition chain_init : Assembler spec_float :=
  init chain (FvBaseAssembler_new (b64_of_Z 1)).
Definition chain_assembled : Assembler spec_float :=
  final_state (assemble chain chainEvaluator (b64_of_Z 1) chain_init).

(** An update of 1/2, 1/4 and 1/8 at the three DOFs, and the tolerance 3/8. *)
Definition chainUpdate : list (list spec_float) :=
  [[b64 1 (-1)]; [b64 1 (-2)]; [b64 1 (-3)]].
Definition chainTolerance : spec_float := b64 3 (-3).
Definition chain_updated : Assembler spec_float :=
  updateDiscrepancy chain chainUpdate chain_assembled.
Definition chain_colored : Assembler spec_float :=
  computeColors chain chainTolerance chain_updated.

(** The same chain with partial relinearization disabled, assembled once. *)
Definition chainPlain : Problem spec_float :=
  {| enableLinearizationRecycling_ := true;
     enablePartialRelinearization_ := false;
     gridView_ := gridView_ chain;
     numDof := 3; numEq := 1;
     dofTotalVolume := dofTotalVolume chain;
     eqWeight := eqWeight chain |}.
Definition chainPlain_assembled : Assembler spec_float :=
  final_state
    (assemble chainPlain chainEvaluator (b64_of_Z 1)
       (init chainPlain (FvBaseAssembler_new (b64_of_Z 1)))).

(** A quiet step: no error anywhere, so [computeColors] finds everything
    green, and the assembly that follows. *)
Definition chain_quiet : Assembler spec_float :=
  final_state
    (assemble chain chainEvaluator (b64_of_Z 1)
       (computeColors chain chainTolerance chain_assembled)).

(** The largest error among the DOFs that are green, the quantity
    [relinearizationAccuracy()] is documented to return. *)
Definition greenMaxError {S : Type} `{!ScalarOps S}
    (col : list EntityColor) (err : list S) : S :=
  forLoop (length col)
    (λ i acc, if bool_decide (col !!! i = Green) then s_max acc (err !!! i)
              else acc)
    s_zero.

(** ** The shape of the linear system *)

(** The sparsity pattern of a matrix: the column indices of every row. *)
Definition pattern {S : Type} (m : list (gmap nat (MatrixBlock S)))
    : list (gset nat) :=
  dom <$> m.

(** [x] has the sparsity pattern and the array sizes of [s]. *)
Definition shape_kept {S : Type} (s x : Assembler S) : Prop :=
  pattern (matrix_ x) = pattern (matrix_ s)
  ∧ length (residual_ x) = length (residual_ s)
  ∧ length (storageJacobian_ x) = length (storageJacobian_ s)
  ∧ length (storageTerm_ x) = length (storageTerm_ s).

(** ** The coupling of degrees of freedom *)

(** [i] and [j] are coupled by the grid: some element has [i] among its
    primary DOFs and [j] in its stencil. *)
Definition couples (grid : list Element) (i j : nat) : Prop :=
  ∃ e p d, e ∈ grid ∧ p < numPrimaryDof e
           ∧ stencil e !! p = Some i ∧ stencil e !! d = Some j.

(** ** Sequences of calls to the public methods *)

Inductive Op (S : Type) : Type :=
  | OpAssemble (ev : Evaluator S) (curDt : S)
  | OpSetLinearizationReusable (yesno : bool)
  | OpRelinearizeAll
  | OpUpdateDiscrepancy (previousResid : list (VectorBlock S))
  | OpMarkDofRed (globalDofIdx : nat)
  | OpComputeColors (tolerance : S).
Arguments OpAssemble {S} ev curDt.
Arguments OpSetLinearizationReusable {S} yesno.
Arguments OpRelinearizeAll {S}.
Arguments OpUpdateDiscrepancy {S} previousResid.
Arguments OpMarkDofRed {S} globalDofIdx.
Arguments OpComputeColors {S} tolerance.

(** One call; an [assemble()] that throws leaves the object as it is at the
    throw. *)
Definition runOp {S : Type} `{!ScalarOps S} (pb : Problem S)
    (s : Assembler S) (op : Op S) : Assembler S :=
  match op with
  | OpAssemble ev curDt => final_state (assemble pb ev curDt s)
  | OpSetLinearizationReusable yesno => setLinearizationReusable pb yesno s
  | OpRelinearizeAll => relinearizeAll pb s
  | OpUpdateDiscrepancy previousResid => updateDiscrepancy pb previousResid s
  | OpMarkDofRed globalDofIdx => markDofRed pb globalDofIdx s
  | OpComputeColors tolerance => computeColors pb tolerance s
  end.

Definition runOps {S : Type} `{!ScalarOps S} (pb : Problem S)
    (ops : list (Op S)) (s : Assembler S) : Assembler S :=
  foldl (runOp pb) s ops.

(** The arrays have the sizes [init] gives them, and the linearization is
    only marked reusable when recycling is enabled. *)
Definition sizes_ok {S : Type} (pb : Problem S) (s : Assembler S) : Prop :=
  length (matrix_ s) = numDof pb
  ∧ length (residual_ s) = numDof pb
  ∧ (enableLinearizationRecycling_ pb = true →
     length (storageJacobian_ s) = numDof pb
     ∧ length (storageTerm_ s) = numDof pb)
  ∧ (enablePartialRelinearization_ pb = true →
     length (dofColor_ s) = numDof pb
     ∧ length (dofError_ s) = numDof pb
     ∧ length (elementColor_ s) = length (gridView_ pb))
  ∧ (reuseLinearization_ s = true → enableLinearizationRecycling_ pb = true).

(** ** What makes a degree of freedom red *)

(** A DOF is hot for [computeColors(tolerance)] when it is red on entry or
    its error is above the tolerance: the DOFs that are red after the first
    loop. *)
Definition hot {S : Type} `{!ScalarOps S} (tolerance : S) (s : Assembler S)
    (g : nat) : Prop :=
  dofColor_ s !!! g = Red ∨ s_ltb tolerance (dofError_ s !!! g) = true.

(** The grid and the arrays fit: the elements have distinct indices within
    the element colors, and the DOFs of every stencil are within the DOF
    colors. *)
Definition grid_fits {S : Type} (pb : Problem S) (s : Assembler S) : Prop :=
  NoDup (elemIdx <$> gridView_ pb)
  ∧ (∀ e, e ∈ gridView_ pb → elemIdx e < length (elementColor_ s))
  ∧ (∀ e g, e ∈ gridView_ pb → g ∈ stencil e → g < length (dofColor_ s)).

(** ** What one traversal adds to the residual and to the matrix *)

Section Fresh.
Context {S : Type} `{!ScalarOps S}.
Variable pb : Problem S.
Variable ev : Evaluator S.

(** The residual blocks that the evaluation of [elem] adds to the residual
    of the DOF [i]: those of [localResidual] when the element is assembled as
    a green one, those of [localJacobian] otherwise. *)
Definition elementResiduals (ecol : list EntityColor) (i : nat)
    (elem : Element) : list (VectorBlock S) :=
  let res :=
    if enablePartialRelinearization_ pb
       && bool_decide (ecol !!! elemIdx elem = Green)
    then lr_residual <$> localResidual ev elem
    else lj_residual <$> localJacobian ev elem in
  match res with
  | None => []
  | Some f =>
      flat_map (λ p, if bool_decide (stencil elem !!! p = i) then [f p] else [])
               (seq 0 (numPrimaryDof elem))
  end.

Definition freshResiduals (ecol : list EntityColor) (i : nat)
    : list (VectorBlock S) :=
  flat_map (λ elem, if negb (interior elem) then []
                    else elementResiduals ecol i elem)
           (gridView_ pb).

(** The Jacobian blocks that the evaluation of [elem] offers to the block
    [(i, j)] of the matrix; an element assembled as a green one offers
    none. *)
Definition elementJacobians (ecol : list EntityColor) (i j : nat)
    (elem : Element) : list (MatrixBlock S) :=
  if enablePartialRelinearization_ pb
     && bool_decide (ecol !!! elemIdx elem = Green)
  then []
  else
    match localJacobian ev elem with
    | None => []
    | Some lj =>
        flat_map
          (λ p, if bool_decide (stencil elem !!! p = i)
                then flat_map
                       (λ d, if bool_decide (stencil elem !!! d = j)
                             then [lj_jacobian lj p d] else [])
                       (seq 0 (length (stencil elem)))
                else [])
          (seq 0 (numPrimaryDof elem))
    end.

Definition freshJacobians (ecol : list EntityColor) (i j : nat)
    : list (MatrixBlock S) :=
  flat_map (λ elem, if negb (interior elem) then []
                    else elementJacobians ecol i j elem)
           (gridView_ pb).
End Fresh.


(** ** Whether the evaluation of an element succeeds

    The local Jacobian is asked for every element that is not assembled as
    a green one, the local residual for the green ones; each of them may
    throw. *)

Section Evaluates.
Context {S : Type} `{!ScalarOps S}.
Variable pb : Problem S.
Variable ev : Evaluator S.

Definition evaluates (ecol : list EntityColor) (elem : Element) : bool :=
  if enablePartialRelinearization_ pb
     && bool_decide (ecol !!! elemIdx elem = Green)
  then match localResidual ev elem with Some _ => true | None => false end
  else match localJacobian ev elem with Some _ => true | None => false end.
End Evaluates.


(** An evaluator whose local Jacobian throws on the element 1. *)
Definition chainFaulty : Evaluator spec_float :=
  {| localJacobian := λ elem,
       if bool_decide (elemIdx elem = 1) then None
       else localJacobian chainEvaluator elem;
     localResidual := localResidual chainEvaluator |}.


(** * [BoundaryTypesPDELab::evaluate]

    The flags are those of [Dune::BoundaryConditions]; only [neumann] is
    looked at. [values] is declared once, before the loop over the vertices
    of the face, and is handed to [problem_.boundaryTypes] by reference for
    every vertex: what the problem does not overwrite is seen again. The
    content [values] is created with is [values0]. In the code [values] has
    [numEq] entries; an entry that the list lacks is not [neumann]. *)

Section BoundaryTypes.
Context {Flag : Type} `{!EqDecision Flag}.
Variable neumann : Flag.
Variable numEq : nat.

(** [problem_.boundaryTypes(values, element, fvGeom, is, scvIdx,
    boundaryFaceIdx)] for the vertex [faceVertIdx] of the face. *)
Variable boundaryTypes : nat → list Flag → list Flag.

(** [values] after the calls for the first [n] vertices. *)
Definition valuesAfter (values0 : list Flag) (n : nat) : list Flag :=
  forLoop n boundaryTypes values0.

Definition evaluate (corners : nat) (values0 : list Flag) : list Z :=
  let y := replicate numEq 1%Z in
  (forLoop corners
     (λ faceVertIdx '(values, y),
        let values := boundaryTypes faceVertIdx values in
        (values,
         forLoop numEq
           (λ comp y,
              if bool_decide (values !! comp = Some neumann)
              then <[comp := 0%Z]> y else y)
           y))
     (values0, y)).2.
End BoundaryTypes.

(** * [BoxNewtonConvergenceWriter]

    The [VtkMultiWriter] is seen through the calls made on it. A method
    answers [None] where the C++ code has no defined behaviour: a null
    [vtkMultiWriter_] is dereferenced, or an [int] counter overflows. *)

Module ConvergenceWriter.

(** What the writer is asked to do; [Fields u] stands for the call of
    [addConvergenceVtkFields] with the vectors [u]. *)
Inductive VtkEvent (Sol : Type) : Type :=
  | BeginWrite (t : spec_float)
  | Fields (u : Sol)
  | EndWrite.
Arguments BeginWrite {Sol} t.
Arguments Fields {Sol} u.
Arguments EndWrite {Sol}.

Record BoxNewtonConvergenceWriter (Sol : Type) : Type := {
  timeStepIndex_ : Z;
  iteration_ : Z;
  vtkMultiWriter_ : option (list (VtkEvent Sol))
}.
Arguments timeStepIndex_ {Sol}.
Arguments iteration_ {Sol}.
Arguments vtkMultiWriter_ {Sol}.

Definition INT_MAX : Z := 2147483647.

(** [++i] on an [int] *)
Definition incr (i : Z) : option Z :=
  if bool_decide (i < INT_MAX)%Z then Some (i + 1)%Z else None.

(** [timeStepIndex_ + iteration_ / 100.0] *)
Definition writeTime (timeStepIndex iteration : Z) : spec_float :=
  SFadd 53 1024 (b64_of_Z timeStepIndex)
    (SFdiv 53 1024 (b64_of_Z iteration) (b64_of_Z 100)).

Section Methods.
Context {Sol : Type}.

Implicit Type w : BoxNewtonConvergenceWriter Sol.

Definition BoxNewtonConvergenceWriter_new : BoxNewtonConvergenceWriter Sol :=
  {| timeStepIndex_ := 0; iteration_ := 0; vtkMultiWriter_ := None |}.

Definition beginTimestep w : option (BoxNewtonConvergenceWriter Sol) :=
  t ← incr (timeStepIndex_ w);
  Some {| timeStepIndex_ := t; iteration_ := 0;
          vtkMultiWriter_ := vtkMultiWriter_ w |}.

Definition beginIteration w : option (BoxNewtonConvergenceWriter Sol) :=
  i ← incr (iteration_ w);
  let writer :=
    match vtkMultiWriter_ w with
    | None => []
    | Some writer => writer
    end in
  Some {| timeStepIndex_ := timeStepIndex_ w; iteration_ := i;
          vtkMultiWriter_ :=
            Some (writer ++ [BeginWrite (writeTime (timeStepIndex_ w) i)]) |}.

Definition writeFields (u : Sol) w : option (BoxNewtonConvergenceWriter Sol) :=
  writer ← vtkMultiWriter_ w;
  Some {| timeStepIndex_ := timeStepIndex_ w; iteration_ := iteration_ w;
          vtkMultiWriter_ := Some (writer ++ [Fields u]) |}.

Definition endIteration w : option (BoxNewtonConvergenceWriter Sol) :=
  writer ← vtkMultiWriter_ w;
  Some {| timeStepIndex_ := timeStepIndex_ w; iteration_ := iteration_ w;
          vtkMultiWriter_ := Some (writer ++ [EndWrite]) |}.

Definition endTimestep w : option (BoxNewtonConvergenceWriter Sol) :=
  Some {| timeStepIndex_ := timeStepIndex_ w; iteration_ := 0;
          vtkMultiWriter_ := vtkMultiWriter_ w |}.
End Methods.

(** Sequences of calls to the public methods. *)
Inductive Call (Sol : Type) : Type :=
  | BeginTimestep
  | BeginIteration
  | WriteFields (u : Sol)
  | EndIteration
  | EndTimestep.
Arguments BeginTimestep {Sol}.
Arguments BeginIteration {Sol}.
Arguments WriteFields {Sol} u.
Arguments EndIteration {Sol}.
Arguments EndTimestep {Sol}.

Definition call {Sol : Type} (c : Call Sol)
    (w : BoxNewtonConvergenceWriter Sol)
    : option (BoxNewtonConvergenceWriter Sol) :=
  match c with
  | BeginTimestep => beginTimestep w
  | BeginIteration => beginIteration w
  | WriteFields u => writeFields u w
  | EndIteration => endIteration w
  | EndTimestep => endTimestep w
  end.

Fixpoint calls {Sol : Type} (cs : list (Call Sol))
    (w : BoxNewtonConvergenceWriter Sol)
    : option (BoxNewtonConvergenceWriter Sol) :=
  match cs with
  | [] => Some w
  | c :: cs' => call c w ≫= calls cs'
  end.

Definition isBeginTimestep {Sol : Type} (c : Call Sol) : bool :=
  match c with BeginTimestep => true | _ => false end.
Definition isBeginIteration {Sol : Type} (c : Call Sol) : bool :=
  match c with BeginIteration => true | _ => false end.
(** The calls that set [iteration_] to zero. *)
Definition resetsIteration {Sol : Type} (c : Call Sol) : bool :=
  match c with BeginTimestep | EndTimestep => true | _ => false end.
(** The calls that dereference [vtkMultiWriter_] without creating it. *)
Definition needsWriter {Sol : Type} (c : Call Sol) : bool :=
  match c with WriteFields _ | EndIteration => true | _ => false end.

Definition count {A : Type} (p : A → bool) (l : list A) : Z :=
  Z.of_nat (length (List.filter p l)).
End ConvergenceWriter.


(** A face with two vertices and two equations: the problem sets the flags
    at the vertex 0 and leaves [values] alone at the vertex 1. *)
Inductive SampleFlag : Type := bc_neumann | bc_process | bc_dirichlet.

#[global] Instance SampleFlag_eq_dec : EqDecision SampleFlag.
Proof. solve_decision. Defined.

Definition sampleBoundaryTypes (faceVertIdx : nat) (values : list SampleFlag)
    : list SampleFlag :=
  if bool_decide (faceVertIdx = 0) then [bc_dirichlet; bc_neumann]
  else values.


(** ** What one traversal adds to the cached storage Jacobian *)

Section FreshStorage.
Context {S : Type} `{!ScalarOps S}.
Variable pb : Problem S.
Variable ev : Evaluator S.

(** The storage Jacobians that the evaluation of [elem] offers to the cache
    of the DOF [i]; an element assembled as a green one offers none. *)
Definition elementStorageJacobians (ecol : list EntityColor) (i : nat)
    (elem : Element) : list (MatrixBlock S) :=
  if enablePartialRelinearization_ pb
     && bool_decide (ecol !!! elemIdx elem = Green)
  then []
  else
    match localJacobian ev elem with
    | None => []
    | Some lj =>
        flat_map
          (λ p, if bool_decide (stencil elem !!! p = i)
                then [lj_jacobianStorage lj p] else [])
          (seq 0 (numPrimaryDof elem))
    end.

Definition freshStorageJacobians (ecol : list EntityColor) (i : nat)
    : list (MatrixBlock S) :=
  flat_map (λ elem, if negb (interior elem) then []
                    else elementStorageJacobians ecol i elem)
           (gridView_ pb).
End FreshStorage.


(** ** Where the calls have defined behaviour

    None of the vectors is indexed with a check. [markDofRed] writes
    [dofColor_[globalDofIdx]] and [updateDiscrepancy] writes [dofError_] at
    every index of [previousResid], both only with partial relinearization
    enabled; every method that walks the grid indexes the per-DOF arrays
    with the DOFs of the stencils and the element colors with the element
    indices. *)
Definition op_in_range {S : Type} (pb : Problem S) (op : Op S) : Prop :=
  match op with
  | OpMarkDofRed globalDofIdx =>
      enablePartialRelinearization_ pb = true → globalDofIdx < numDof pb
  | OpUpdateDiscrepancy previousResid =>
      enablePartialRelinearization_ pb = true →
      length previousResid ≤ numDof pb
  | _ => True
  end.

Definition grid_in_range {S : Type} (pb : Problem S) : Prop :=
  ∀ e, e ∈ gridView_ pb →
       numPrimaryDof e ≤ length (stencil e)
       ∧ elemIdx e < length (gridView_ pb)
       ∧ ∀ g, g ∈ stencil e → g < numDof pb.

(** * Properties *)

(** ** Loops *)

Lemma forLoop_S {A : Type} (n : nat) (body : nat → A → A) (a : A) :
  forLoop (S n) body a = body n (forLoop n body a).
Proof.
  unfold forLoop. rewrite seq_S, foldl_app. reflexivity.
Qed.

(** Loop invariants: [P i a] holds before iteration [i]. *)
Lemma forLoop_inv {A : Type} (P : nat → A → Prop) (n : nat)
    (body : nat → A → A) (a : A) :
  P 0 a →
  (∀ i x, i < n → P i x → P (S i) (body i x)) →
  P n (forLoop n body a).
Proof.
  intros H0 Hstep. induction n as [|n IH].
  - exact H0.
  - rewrite forLoop_S. apply Hstep; [lia|]. apply IH.
    intros i x Hi. apply Hstep. lia.
Qed.

Lemma forLoop_ext {A : Type} (n : nat) (f g : nat → A → A) (a : A) :
  (∀ i x, i < n → f i x = g i x) → forLoop n f a = forLoop n g a.
Proof.
  intros Hfg. induction n as [|n IH]; [reflexivity|].
  rewrite !forLoop_S, IH by (intros; apply Hfg; lia). apply Hfg. lia.
Qed.

(** [loop_invariant P] proves the goal about the outermost loop of the goal
    from the invariant [P], which it asks to establish first. *)
Ltac loop_invariant P :=
  match goal with
  | |- context [forLoop ?n ?body ?a] =>
      let H := fresh "Hloop" in
      assert (H : P n (forLoop n body a));
      [ apply (forLoop_inv P n body a)
      | revert H; generalize (forLoop n body a); cbv beta ]
  end.

Lemma foldl_inv {A B : Type} (P : A → Prop) (f : A → B → A) (l : list B)
    (a : A) :
  P a → (∀ x b, b ∈ l → P x → P (f x b)) → P (foldl f a l).
Proof.
  revert a. induction l as [|b l IH]; intros a Ha Hstep; simpl; [done|].
  apply IH.
  - apply Hstep; [left | done].
  - intros x b' Hb'. apply Hstep. by right.
Qed.

(** ** Cell-wise relations between two arrays of the same length *)

Lemma cellwise_refl {A : Type} `{!Inhabited A} (R : A → A → Prop)
    `{!Reflexive R} (l : list A) :
  cellwise R l l.
Proof. split; [done|]. intros j. reflexivity. Qed.

Lemma cellwise_trans {A : Type} `{!Inhabited A} (R : A → A → Prop)
    `{!Transitive R} (l1 l2 l3 : list A) :
  cellwise R l1 l2 → cellwise R l2 l3 → cellwise R l1 l3.
Proof.
  intros [Hl1 H1] [Hl2 H2]. split; [congruence|].
  intros j. etrans; [apply H1 | apply H2].
Qed.

(** Writing [y] into cell [i] relates the arrays when the old content of the
    cell is related to [y]. *)
Lemma cellwise_insert {A : Type} `{!Inhabited A} (R : A → A → Prop)
    `{!Reflexive R} (l : list A) (i : nat) (y : A) :
  R (l !!! i) y → cellwise R l (<[i := y]> l).
Proof.
  intros HR. split; [apply length_insert|].
  intros j. destruct (decide (i = j)) as [<-|Hne].
  - destruct (decide (i < length l)) as [Hlt|Hge].
    + by rewrite list_lookup_total_insert_eq.
    + rewrite list_insert_ge by lia. reflexivity.
  - rewrite list_lookup_total_insert_ne by done. reflexivity.
Qed.

Lemma cellwise_foldl {A B : Type} `{!Inhabited A} (R : A → A → Prop)
    `{!Reflexive R} `{!Transitive R} (f : list A → B → list A)
    (bs : list B) (l : list A) :
  (∀ x b, cellwise R x (f x b)) → cellwise R l (foldl f l bs).
Proof.
  intros Hf. revert l. induction bs as [|b bs IH]; intros l; simpl.
  - by apply cellwise_refl.
  - eapply cellwise_trans; [done | apply Hf | apply IH].
Qed.

Lemma list_insert_total_id {A : Type} `{!Inhabited A} (l : list A) (i : nat) :
  <[i := l !!! i]> l = l.
Proof.
  destruct (decide (i < length l)) as [Hlt|Hge].
  - apply list_insert_id. by apply list_lookup_lookup_total_lt.
  - apply list_insert_ge. lia.
Qed.

(** ** The passes of [computeColors], one by one *)

Section ColoringFacts.
Context {S : Type} `{!ScalarOps S}.

Implicit Types col ecol : list EntityColor.

Lemma markRedDofs_spec (tolerance : S) (err : list S) col :
  let r := markRedDofs tolerance err col in
  length r.1 = length col
  ∧ (∀ j, r.1 !!! j =
          if bool_decide (j < length col) && s_ltb tolerance (err !!! j)
          then Red else col !!! j)
  ∧ r.2 = accuracyOf tolerance err (length col).
Proof.
  unfold markRedDofs, accuracyOf. cbv zeta.
  refine (forLoop_inv
           (λ k (r : list EntityColor * S),
              length r.1 = length col
              ∧ (∀ j, r.1 !!! j =
                      if bool_decide (j < k) && s_ltb tolerance (err !!! j)
                      then Red else col !!! j)
              ∧ r.2 = forLoop k
                        (λ i acc, if s_ltb tolerance (err !!! i) then acc
                                  else s_max acc (err !!! i)) s_zero)
           (length col) _ _ _ _).
  - split; [done|]. split; [|done]. intros j.
    rewrite bool_decide_eq_false_2 by lia. done.
  - intros i [c a] Hi (Hlen & Hcells & Hacc); simpl in *.
    rewrite forLoop_S, <- Hacc.
    destruct (s_ltb tolerance (err !!! i)) eqn:Hlt; simpl.
    + split; [by rewrite length_insert|]. split; [|done].
      intros j. destruct (decide (j = i)) as [->|Hne].
      * rewrite list_lookup_total_insert_eq by lia.
        rewrite bool_decide_eq_true_2 by lia. by rewrite Hlt.
      * rewrite list_lookup_total_insert_ne by done. rewrite Hcells.
        destruct (decide (j < i)).
        -- rewrite !bool_decide_eq_true_2 by lia. done.
        -- rewrite !bool_decide_eq_false_2 by lia. done.
    + split; [done|]. split; [|done].
      intros j. rewrite Hcells. destruct (decide (j = i)) as [->|Hne].
      * rewrite bool_decide_eq_false_2 by lia.
        rewrite bool_decide_eq_true_2 by lia. by rewrite Hlt.
      * destruct (decide (j < i)).
        -- rewrite !bool_decide_eq_true_2 by lia. done.
        -- rewrite !bool_decide_eq_false_2 by lia. done.
Qed.

Lemma containsColor_false c col (st : list nat) :
  containsColor c col st = false ↔ ∀ g, g ∈ st → col !!! g ≠ c.
Proof.
  unfold containsColor. induction st as [|g st IH]; simpl.
  - split; [|done]. intros _ g Hg. by apply not_elem_of_nil in Hg.
  - rewrite orb_false_iff, IH, bool_decide_eq_false. split.
    + intros [Hg Hst] g' [->|Hg']%elem_of_cons; auto.
    + intros Hall. split; [apply Hall; left|].
      intros g' Hg'. apply Hall. by right.
Qed.

Lemma containsColor_true c col (st : list nat) :
  containsColor c col st = true ↔ ∃ g, g ∈ st ∧ col !!! g = c.
Proof.
  unfold containsColor. rewrite existsb_exists. split.
  - intros (g & Hg & Hc). exists g. split; [by apply list_elem_of_In|].
    by apply bool_decide_eq_true in Hc.
  - intros (g & Hg & Hc). exists g. split; [by apply list_elem_of_In|].
    by apply bool_decide_eq_true.
Qed.

(** A loop over the elements in which the element visited recomputes its
    own cell from the cell's old content. *)
Lemma foldl_element_cells (h : Element → EntityColor → EntityColor)
    (step : list EntityColor → Element → list EntityColor)
    (grid : list Element) ecol :
  (∀ ecol e, step ecol e = <[elemIdx e := h e (ecol !!! elemIdx e)]> ecol) →
  NoDup (elemIdx <$> grid) →
  length (foldl step ecol grid) = length ecol
  ∧ (∀ j, j ∉ elemIdx <$> grid → foldl step ecol grid !!! j = ecol !!! j)
  ∧ (∀ e, e ∈ grid → elemIdx e < length ecol →
          foldl step ecol grid !!! elemIdx e = h e (ecol !!! elemIdx e)).
Proof.
  intros Hstep. revert ecol.
  induction grid as [|e0 grid IH]; intros ecol Hnd; simpl.
  - split; [done|]. split; [done|]. intros e He. by apply not_elem_of_nil in He.
  - rewrite fmap_cons in Hnd. apply NoDup_cons in Hnd as [Hfresh Hnd].
    destruct (IH (step ecol e0) Hnd) as (Hlen & Hout & Hin).
    rewrite Hstep in Hlen, Hout, Hin |- *. rewrite length_insert in Hlen, Hin.
    split; [done|]. split.
    + intros j Hj. rewrite not_elem_of_cons in Hj.
      destruct Hj as [Hne Hj]. rewrite Hout by done.
      by rewrite list_lookup_total_insert_ne.
    + intros e [->|He]%elem_of_cons Hlt.
      * rewrite Hout by done. by rewrite list_lookup_total_insert_eq.
      * rewrite Hin by done. f_equal.
        rewrite list_lookup_total_insert_ne; [done|].
        intros Heq. apply Hfresh. rewrite Heq.
        by apply list_elem_of_fmap_2.
Qed.
End ColoringFacts.

Section ColoringPasses.
Context {S : Type} `{!ScalarOps S}.

Implicit Types col ecol : list EntityColor.

Lemma markRedElements_spec (grid : list Element) col ecol :
  NoDup (elemIdx <$> grid) →
  length (markRedElements grid col ecol) = length ecol
  ∧ ∀ e, e ∈ grid → elemIdx e < length ecol →
         markRedElements grid col ecol !!! elemIdx e =
         if containsColor Red col (stencil e) then Red else Green.
Proof.
  intros Hnd. unfold markRedElements.
  destruct (foldl_element_cells
              (λ e _, if containsColor Red col (stencil e) then Red else Green)
              (λ ecol e,
                 <[elemIdx e := if containsColor Red col (stencil e)
                                then Red else Green]> ecol)
              grid ecol) as (Hlen & _ & Hin); [done | done |].
  split; [exact Hlen | exact Hin].
Qed.

Lemma markYellowElements_spec (grid : list Element) col ecol :
  NoDup (elemIdx <$> grid) →
  length (markYellowElements grid col ecol) = length ecol
  ∧ ∀ e, e ∈ grid → elemIdx e < length ecol →
         markYellowElements grid col ecol !!! elemIdx e =
         if bool_decide (ecol !!! elemIdx e = Red) then Red
         else if containsColor Orange col (stencil e) then Yellow
              else ecol !!! elemIdx e.
Proof.
  intros Hnd. unfold markYellowElements.
  destruct (foldl_element_cells
              (λ e c, if bool_decide (c = Red) then Red
                      else if containsColor Orange col (stencil e)
                           then Yellow else c)
              (λ ecol e,
                 if bool_decide (ecol !!! elemIdx e = Red) then ecol
                 else if containsColor Orange col (stencil e)
                      then <[elemIdx e := Yellow]> ecol else ecol)
              grid ecol) as (Hlen & _ & Hin); [| done |].
  - intros ec e. case_bool_decide as Hred.
    + transitivity (<[elemIdx e := ec !!! elemIdx e]> ec);
        [by rewrite list_insert_total_id | by rewrite Hred].
    + destruct (containsColor Orange col (stencil e)); [done|].
      by rewrite list_insert_total_id.
  - split; [exact Hlen | exact Hin].
Qed.

#[local] Instance tinted_refl : Reflexive tinted.
Proof. intros x. by left. Qed.
#[local] Instance tinted_trans : Transitive tinted.
Proof. intros x y z [->|[Hx ->]] [->|[Hy ->]]; unfold tinted; auto. Qed.
#[local] Instance demoted_refl : Reflexive demoted.
Proof. intros x. by left. Qed.
#[local] Instance demoted_trans : Transitive demoted.
Proof.
  intros x y z [->|[Hx ->]] [->|[Hy ->]]; unfold demoted; auto.
Qed.

Lemma markOrangeDofs_cellwise (grid : list Element) ecol col :
  cellwise tinted col (markOrangeDofs grid ecol col).
Proof.
  unfold markOrangeDofs. apply cellwise_foldl; try apply _.
  intros c e. case_bool_decide; [by apply cellwise_refl; apply _|].
  apply cellwise_foldl; try apply _.
  intros c' g. case_bool_decide as Hg; [|by apply cellwise_refl; apply _].
  apply cellwise_insert; [apply _|]. by right.
Qed.

Lemma demoteOrangeDofs_cellwise (grid : list Element) ecol col :
  cellwise demoted col (demoteOrangeDofs grid ecol col).
Proof.
  unfold demoteOrangeDofs. apply cellwise_foldl; try apply _.
  intros c e. case_bool_decide; [by apply cellwise_refl; apply _|].
  apply cellwise_foldl; try apply _.
  intros c' g. case_bool_decide as Hg; [|by apply cellwise_refl; apply _].
  apply cellwise_insert; [apply _|]. by right.
Qed.

Lemma promoteOrangeDofs_spec col (err : list S) :
  let r := promoteOrangeDofs col err in
  length r.1 = length col
  ∧ ∀ j, j < length col →
         r.1 !!! j =
         if bool_decide (col !!! j = Green) || bool_decide (col !!! j = Yellow)
         then col !!! j else Red.
Proof.
  unfold promoteOrangeDofs. cbv zeta.
  match goal with |- context [forLoop ?n ?body ?a] => set (r := forLoop n body a) end.
  cut (length r.1 = length col
       ∧ (∀ j, length col ≤ j → r.1 !!! j = col !!! j)
       ∧ ∀ j, j < length col →
              r.1 !!! j =
              if bool_decide (col !!! j = Green)
                 || bool_decide (col !!! j = Yellow)
              then col !!! j else Red).
  { intros (Hlen & _ & Hdone). by split. }
  subst r.
  refine (forLoop_inv
            (λ k (r : list EntityColor * list S),
               length r.1 = length col
               ∧ (∀ j, k ≤ j → r.1 !!! j = col !!! j)
               ∧ ∀ j, j < k →
                      r.1 !!! j =
                      if bool_decide (col !!! j = Green)
                         || bool_decide (col !!! j = Yellow)
                      then col !!! j else Red)
            (length col) _ _ _ _).
  - split; [done|]. split; [done|]. intros j Hj. lia.
  - intros i [c e] Hi (Hlen & Hrest & Hdone); simpl in *.
    rewrite (Hrest i) by lia.
    destruct (bool_decide (col !!! i = Green) || bool_decide (col !!! i = Yellow))
      eqn:Hkeep; simpl.
    + split; [done|]. split; [intros j Hj; apply Hrest; lia|].
      intros j Hj. destruct (decide (j = i)) as [->|Hne].
      * rewrite Hkeep. apply Hrest. lia.
      * apply Hdone. lia.
    + split; [by rewrite length_insert|]. split.
      * intros j Hj. rewrite list_lookup_total_insert_ne by lia.
        apply Hrest. lia.
      * intros j Hj. destruct (decide (j = i)) as [->|Hne].
        -- rewrite Hkeep. apply list_lookup_total_insert_eq. lia.
        -- rewrite list_lookup_total_insert_ne by done. apply Hdone. lia.
Qed.
End ColoringPasses.

(** ** [computeColors] as a whole *)

Section ComputeColors.
Context {S : Type} `{!ScalarOps S}.
Variable pb : Problem S.

Implicit Type s : Assembler S.

(** The intermediate arrays of one call, named after the loop that
    produces them. *)
Lemma computeColors_fields (tolerance : S) s :
  enablePartialRelinearization_ pb = true →
  let grid := gridView_ pb in
  let col1 := (markRedDofs tolerance (dofError_ s) (dofColor_ s)).1 in
  let ecol1 := markRedElements grid col1 (elementColor_ s) in
  let col2 := markOrangeDofs grid ecol1 col1 in
  let ecol3 := markYellowElements grid col2 ecol1 in
  let col4 := demoteOrangeDofs grid ecol3 col2 in
  let s' := computeColors pb tolerance s in
  dofColor_ s' = (promoteOrangeDofs col4 (dofError_ s)).1
  ∧ dofError_ s' = (promoteOrangeDofs col4 (dofError_ s)).2
  ∧ elementColor_ s' = ecol3
  ∧ nextRelinearizationAccuracy_ s' =
      (markRedDofs tolerance (dofError_ s) (dofColor_ s)).2.
Proof.
  intros Hen. unfold computeColors. rewrite Hen. simpl.
  unfold communicateMin, communicateMax.
  destruct (markRedDofs tolerance (dofError_ s) (dofColor_ s))
    as [col1 acc]; simpl.
  destruct (promoteOrangeDofs _ (dofError_ s)) as [col5 err5] eqn:Hp.
  simpl. done.
Qed.

(** A cell that is red after the first loop is red at the end. *)
Lemma computeColors_keeps_red (tolerance : S) s (i : nat) :
  enablePartialRelinearization_ pb = true →
  i < length (dofColor_ s) →
  (markRedDofs tolerance (dofError_ s) (dofColor_ s)).1 !!! i = Red →
  dofColor_ (computeColors pb tolerance s) !!! i = Red.
Proof.
  intros Hen Hi Hred.
  destruct (computeColors_fields tolerance s Hen) as (-> & _).
  destruct (markRedDofs_spec tolerance (dofError_ s) (dofColor_ s))
    as (Hlen1 & _ & _).
  set (col1 := (markRedDofs tolerance (dofError_ s) (dofColor_ s)).1) in *.
  set (ecol1 := markRedElements (gridView_ pb) col1 (elementColor_ s)).
  destruct (markOrangeDofs_cellwise (gridView_ pb) ecol1 col1)
    as [Hlen2 Hc2].
  set (col2 := markOrangeDofs (gridView_ pb) ecol1 col1) in *.
  set (ecol3 := markYellowElements (gridView_ pb) col2 ecol1).
  destruct (demoteOrangeDofs_cellwise (gridView_ pb) ecol3 col2)
    as [Hlen4 Hc4].
  set (col4 := demoteOrangeDofs (gridView_ pb) ecol3 col2) in *.
  destruct (promoteOrangeDofs_spec col4 (dofError_ s)) as [_ Hc5].
  assert (H2 : col2 !!! i = Red).
  { destruct (Hc2 i) as [->|[Hne _]]; [done|]. by rewrite Hred in Hne. }
  assert (H4 : col4 !!! i = Red).
  { destruct (Hc4 i) as [->|[Ho _]]; [done|]. by rewrite H2 in Ho. }
  rewrite Hc5 by lia. by rewrite H4.
Qed.
End ComputeColors.

(** A cell read with its default is the cell itself within the bounds. *)
Lemma lookup_total_Some {A : Type} `{!Inhabited A} (l : list A) (i : nat)
    (c : A) :
  i < length l → l !!! i = c → l !! i = Some c.
Proof. intros Hi <-. by apply list_lookup_lookup_total_lt. Qed.

(** [computeColors] keeps the sizes of the two color arrays. *)
Lemma computeColors_dofColor_length
    {S : Type} `{!ScalarOps S} (pb : Problem S) (tolerance : S)
    (s : Assembler S) :
  enablePartialRelinearization_ pb = true →
  length (dofColor_ (computeColors pb tolerance s)) = length (dofColor_ s).
Proof.
  intros Hen.
  destruct (computeColors_fields pb tolerance s Hen) as (-> & _).
  match goal with
  | |- length (promoteOrangeDofs ?c ?e).1 = _ =>
      destruct (promoteOrangeDofs_spec c e) as [-> _]
  end.
  match goal with
  | |- length (demoteOrangeDofs ?g ?ec ?c) = _ =>
      destruct (demoteOrangeDofs_cellwise g ec c) as [-> _]
  end.
  match goal with
  | |- length (markOrangeDofs ?g ?ec ?c) = _ =>
      destruct (markOrangeDofs_cellwise g ec c) as [-> _]
  end.
  by destruct (markRedDofs_spec tolerance (dofError_ s) (dofColor_ s))
    as (-> & _).
Qed.

Lemma computeColors_elementColor_length
    {S : Type} `{!ScalarOps S} (pb : Problem S) (tolerance : S)
    (s : Assembler S) :
  enablePartialRelinearization_ pb = true →
  NoDup (elemIdx <$> gridView_ pb) →
  length (elementColor_ (computeColors pb tolerance s))
  = length (elementColor_ s).
Proof.
  intros Hen Hnd.
  destruct (computeColors_fields pb tolerance s Hen) as (_ & _ & -> & _).
  match goal with
  | |- length (markYellowElements ?g ?c ?ec) = _ =>
      destruct (markYellowElements_spec g c ec Hnd) as [-> _]
  end.
  match goal with
  | |- length (markRedElements ?g ?c ?ec) = _ =>
      by destruct (markRedElements_spec g c ec Hnd) as [-> _]
  end.
Qed.

(** C2. With partial relinearization enabled, a degree of freedom whose
    recorded error exceeds the tolerance when [computeColors(tolerance)] is
    called has a cell in the color array after the call, the cell holds
    red, and so [dofColor] reports red. *)
Theorem computeColors_error_above_tolerance_is_red
    {S : Type} `{!ScalarOps S} (pb : Problem S) (tolerance : S)
    (s : Assembler S) (i : nat) :
  enablePartialRelinearization_ pb = true →
  i < length (dofColor_ s) →
  s_ltb tolerance (dofError_ s !!! i) = true →
  dofColor_ (computeColors pb tolerance s) !! i = Some Red
  ∧ dofColor pb (computeColors pb tolerance s) i = Red.
Proof.
  intros Hen Hi Herr.
  assert (Hred : dofColor_ (computeColors pb tolerance s) !!! i = Red).
  { apply computeColors_keeps_red; [done | done |].
    destruct (markRedDofs_spec tolerance (dofError_ s) (dofColor_ s))
      as (_ & Hcells & _).
    rewrite Hcells, Herr. by rewrite bool_decide_eq_true_2. }
  split.
  - apply lookup_total_Some; [|exact Hred].
    by rewrite computeColors_dofColor_length.
  - unfold dofColor. by rewrite Hen.
Qed.

(** C3, as stated, fails on the chain: the second element is left yellow
    although the degree of freedom 1 of its stencil ends up red (it was
    tinted orange by the first element and then promoted). *)
Lemma computeColors_red_dof_in_yellow_element :
  chainElement 1 ∈ gridView_ chain
  ∧ 1 ∈ stencil (chainElement 1)
  ∧ dofColor chain (computeColors chain chainTolerance chain_updated) 1 = Red
  ∧ elementColor chain (computeColors chain chainTolerance chain_updated)
      (elemIdx (chainElement 1)) ≠ Red.
Proof.
  split; [right; left|]. split; [left|]. split; [by vm_compute|].
  by vm_compute.
Qed.

(** The propagation of red, on the cells read with their default. *)
Lemma computeColors_spreads_red
    {S : Type} `{!ScalarOps S} (pb : Problem S) (tolerance : S)
    (s : Assembler S) (e : Element) :
  enablePartialRelinearization_ pb = true →
  NoDup (elemIdx <$> gridView_ pb) →
  (∀ e', e' ∈ gridView_ pb → elemIdx e' < length (elementColor_ s)) →
  (∀ e' g, e' ∈ gridView_ pb → g ∈ stencil e' → g < length (dofColor_ s)) →
  e ∈ gridView_ pb →
  let s' := computeColors pb tolerance s in
  ((∃ g, g ∈ stencil e
         ∧ (dofColor pb s g = Red
            ∨ s_ltb tolerance (dofError_ s !!! g) = true)) →
   elementColor pb s' (elemIdx e) = Red)
  ∧ (∀ g, g ∈ stencil e → dofColor pb s' g = Red →
          elementColor pb s' (elemIdx e) = Red
          ∨ elementColor pb s' (elemIdx e) = Yellow)
  ∧ (elementColor pb s' (elemIdx e) = Green →
     ∀ g, g ∈ stencil e → dofColor pb s' g ≠ Red).
Proof.
  intros Hen Hnd Hidx Hdof He s'. subst s'.
  unfold elementColor, dofColor. rewrite Hen. simpl.
  destruct (computeColors_fields pb tolerance s Hen) as (-> & _ & -> & _).
  destruct (markRedDofs_spec tolerance (dofError_ s) (dofColor_ s))
    as (Hlen1 & Hc1 & _).
  set (col1 := (markRedDofs tolerance (dofError_ s) (dofColor_ s)).1) in *.
  destruct (markRedElements_spec (gridView_ pb) col1 (elementColor_ s) Hnd)
    as [Hlene1 He1].
  set (ecol1 := markRedElements (gridView_ pb) col1 (elementColor_ s)) in *.
  destruct (markOrangeDofs_cellwise (gridView_ pb) ecol1 col1) as [Hlen2 Hc2].
  set (col2 := markOrangeDofs (gridView_ pb) ecol1 col1) in *.
  destruct (markYellowElements_spec (gridView_ pb) col2 ecol1 Hnd)
    as [_ He3].
  set (ecol3 := markYellowElements (gridView_ pb) col2 ecol1) in *.
  destruct (demoteOrangeDofs_cellwise (gridView_ pb) ecol3 col2)
    as [Hlen4 Hc4].
  set (col4 := demoteOrangeDofs (gridView_ pb) ecol3 col2) in *.
  destruct (promoteOrangeDofs_spec col4 (dofError_ s)) as [_ Hc5].
  specialize (He1 e He (Hidx e He)).
  specialize (He3 e He). rewrite Hlene1 in He3. specialize (He3 (Hidx e He)).
  (* a red cell at the end is red or orange after the tinting loop *)
  assert (Hback : ∀ g, g ∈ stencil e →
            (promoteOrangeDofs col4 (dofError_ s)).1 !!! g = Red →
            col1 !!! g = Red ∨ col2 !!! g = Orange).
  { intros g Hg Hred. rewrite Hc5 in Hred by (rewrite Hlen4, Hlen2, Hlen1; eauto).
    assert (H4 : col4 !!! g = Red ∨ col4 !!! g = Orange).
    { destruct (col4 !!! g); simpl in Hred; try discriminate; auto. }
    assert (H2 : col2 !!! g = Red ∨ col2 !!! g = Orange).
    { destruct (Hc4 g) as [Heq|[Ho Hy]]; [by rewrite <- Heq | by right]. }
    destruct H2 as [H2|H2]; [left | by right].
    destruct (Hc2 g) as [Heq|[_ Ho]]; [by rewrite <- Heq | congruence]. }
  (* and then the element is red or yellow *)
  assert (Hmid : ∀ g, g ∈ stencil e →
            (promoteOrangeDofs col4 (dofError_ s)).1 !!! g = Red →
            ecol3 !!! elemIdx e = Red ∨ ecol3 !!! elemIdx e = Yellow).
  { intros g Hg Hred. rewrite He3.
    case_bool_decide as Hr; [by left|].
    destruct (Hback g Hg Hred) as [H1|H2].
    - exfalso. apply Hr. rewrite He1.
      replace (containsColor Red col1 (stencil e)) with true; [done|].
      symmetry. apply containsColor_true. eauto.
    - replace (containsColor Orange col2 (stencil e)) with true; [by right|].
      symmetry. apply containsColor_true. eauto. }
  split; [|split].
  - intros (g & Hg & Hsrc). rewrite He3.
    replace (ecol1 !!! elemIdx e) with Red; [by rewrite bool_decide_eq_true_2|].
    rewrite He1.
    replace (containsColor Red col1 (stencil e)) with true; [done|].
    symmetry. apply containsColor_true. exists g. split; [done|].
    rewrite Hc1. destruct Hsrc as [Hwas|Herr].
    + by destruct (_ && _).
    + rewrite Herr, bool_decide_eq_true_2; [done|]. eauto.
  - exact Hmid.
  - intros Hgreen g Hg Hred.
    destruct (Hmid g Hg Hred) as [Hc|Hc]; rewrite Hc in Hgreen; discriminate.
Qed.

(** C3, amended. After [computeColors(tolerance)] with partial
    relinearization enabled on a single partition, the two color arrays
    have the sizes they had, and in them: an element whose stencil holds a
    degree of freedom that was red on entry or whose error exceeds the
    tolerance is red; an element whose stencil holds a degree of freedom
    that is red on return is red or yellow; and no degree of freedom of a
    green element is red. ([dofColor] and [elementColor] answer with these
    cells.) *)
Theorem computeColors_propagation
    {S : Type} `{!ScalarOps S} (pb : Problem S) (tolerance : S)
    (s : Assembler S) (e : Element) :
  enablePartialRelinearization_ pb = true →
  NoDup (elemIdx <$> gridView_ pb) →
  (∀ e', e' ∈ gridView_ pb → elemIdx e' < length (elementColor_ s)) →
  (∀ e' g, e' ∈ gridView_ pb → g ∈ stencil e' → g < length (dofColor_ s)) →
  e ∈ gridView_ pb →
  let s' := computeColors pb tolerance s in
  length (dofColor_ s') = length (dofColor_ s)
  ∧ length (elementColor_ s') = length (elementColor_ s)
  ∧ ((∃ g, g ∈ stencil e
           ∧ (dofColor_ s !! g = Some Red
              ∨ s_ltb tolerance (dofError_ s !!! g) = true)) →
     elementColor_ s' !! elemIdx e = Some Red)
  ∧ (∀ g, g ∈ stencil e → dofColor_ s' !! g = Some Red →
          elementColor_ s' !! elemIdx e = Some Red
          ∨ elementColor_ s' !! elemIdx e = Some Yellow)
  ∧ (elementColor_ s' !! elemIdx e = Some Green →
     ∀ g, g ∈ stencil e → dofColor_ s' !! g ≠ Some Red).
Proof.
  intros Hen Hnd Hidx Hdof He. cbv zeta.
  pose proof (computeColors_dofColor_length pb tolerance s Hen) as Hlend.
  pose proof (computeColors_elementColor_length pb tolerance s Hen Hnd)
    as Hlene.
  destruct (computeColors_spreads_red pb tolerance s e Hen Hnd Hidx
              Hdof He) as (Hhot & Hred & Hgreen).
  unfold elementColor, dofColor in Hhot, Hred, Hgreen.
  rewrite Hen in Hhot, Hred, Hgreen. simpl in Hhot, Hred, Hgreen.
  assert (He' : elemIdx e < length (elementColor_
                                       (computeColors pb tolerance s))).
  { rewrite Hlene. by apply Hidx. }
  split; [exact Hlend|]. split; [exact Hlene|]. split; [|split].
  - intros (g & Hg & Hsrc). apply lookup_total_Some; [exact He'|].
    apply Hhot. exists g. split; [done|].
    destruct Hsrc as [Hwas|Herr]; [left|by right].
    by apply list_lookup_total_correct.
  - intros g Hg Hcell.
    destruct (Hred g Hg (list_lookup_total_correct _ _ _ Hcell)) as [Hc|Hc];
      [left|right]; by apply lookup_total_Some.
  - intros Hcell g Hg Hdofred.
    exact (Hgreen (list_lookup_total_correct _ _ _ Hcell) g Hg
             (list_lookup_total_correct _ _ _ Hdofred)).
Qed.

Lemma computeColors_error_above_tolerance_is_red_witness :
  s_ltb chainTolerance (dofError_ chain_updated !!! 0) = true
  ∧ dofColor_ (computeColors chain chainTolerance chain_updated) !! 0
    = Some Red
  ∧ dofColor chain (computeColors chain chainTolerance chain_updated) 0 = Red.
Proof.
  split; [reflexivity|].
  apply computeColors_error_above_tolerance_is_red;
    [reflexivity | vm_compute; lia | reflexivity].
Defined.

Lemma computeColors_propagation_witness :
  elementColor_ (computeColors chain chainTolerance chain_updated)
    !! elemIdx (chainElement 0) = Some Red
  ∧ (elementColor_ (computeColors chain chainTolerance chain_updated)
       !! elemIdx (chainElement 1) = Some Red
     ∨ elementColor_ (computeColors chain chainTolerance chain_updated)
         !! elemIdx (chainElement 1) = Some Yellow).
Proof.
  assert (Hnd : NoDup (elemIdx <$> gridView_ chain)).
  { refine (bool_decide_unpack _ _). vm_compute. exact I. }
  assert (Hidx : ∀ e', e' ∈ gridView_ chain →
                       elemIdx e' < length (elementColor_ chain_updated)).
  { apply Forall_forall. repeat constructor; vm_compute; lia. }
  assert (Hdof : ∀ e' g, e' ∈ gridView_ chain → g ∈ stencil e' →
                         g < length (dofColor_ chain_updated)).
  { intros e' g He'. revert g. apply Forall_forall. revert e' He'.
    apply Forall_forall. repeat constructor; vm_compute; lia. }
  split.
  - destruct (computeColors_propagation chain chainTolerance chain_updated
                (chainElement 0) eq_refl Hnd Hidx Hdof ltac:(left))
      as (_ & _ & Hhot & _).
    apply Hhot. exists 0. split; [left|]. right. reflexivity.
  - destruct (computeColors_propagation chain chainTolerance chain_updated
                (chainElement 1) eq_refl Hnd Hidx Hdof ltac:(right; left))
      as (_ & _ & _ & Hred & _).
    apply (Hred 1); [left|reflexivity].
Defined.

(** ** Blocks of the matrix *)

Section MatrixFacts.
Context {S : Type} `{!ScalarOps S}.

Implicit Type m : list (gmap nat (MatrixBlock S)).

Lemma block_alter_eq (f : MatrixBlock S → MatrixBlock S) m (i j : nat) :
  block (alter (alter f j) i m) i j = f <$> block m i j.
Proof.
  unfold block. rewrite list_lookup_alter_eq.
  destruct (m !! i) as [row|]; simpl; [|done].
  by rewrite lookup_alter_eq.
Qed.

Lemma block_alter_ne (f : MatrixBlock S → MatrixBlock S) m (i j i' j' : nat) :
  (i', j') ≠ (i, j) →
  block (alter (alter f j') i' m) i j = block m i j.
Proof.
  intros Hne. unfold block. destruct (decide (i' = i)) as [->|Hi].
  - rewrite list_lookup_alter_eq.
    destruct (m !! i) as [row|]; simpl; [|done].
    rewrite lookup_alter_ne; [done|]. congruence.
  - by rewrite list_lookup_alter_ne.
Qed.

Lemma block_alter (f : MatrixBlock S → MatrixBlock S) m (i j i' j' : nat) :
  block (alter (alter f j') i' m) i j =
  if decide ((i', j') = (i, j)) then f <$> block m i j else block m i j.
Proof.
  case_decide as Heq.
  - injection Heq as -> ->. apply block_alter_eq.
  - by apply block_alter_ne.
Qed.
End MatrixFacts.

Lemma forEach_inv {A E : Type} (P : A → Prop) (body : E → A → outcome A)
    (es : list E) (a : A) :
  P a →
  (∀ e x, e ∈ es → P x → P (final_state (body e x))) →
  P (final_state (forEach body es a)).
Proof.
  revert a. induction es as [|e es IH]; intros a Ha Hstep; simpl; [done|].
  pose proof (Hstep e a ltac:(left) Ha) as Hb.
  destruct (body e a) as [a'|a']; simpl in *; [|done].
  apply IH; [done|]. intros e' x He'. apply Hstep. by right.
Qed.

(** ** The recycled path of [assemble_] *)

Section Recycling.
Context {S : Type} `{!ScalarOps S}.
Variable pb : Problem S.

Implicit Type s : Assembler S.

(** The diagonal block and the residual block that the recycled path leaves
    at a DOF, from the block [J], the cached storage Jacobian [Js] and the
    cached storage term [Rs]. *)
Lemma recycle_loop (curDt : S) s (i : nat) (J Js : MatrixBlock S)
    (Rs : VectorBlock S) :
  i < length (residual_ s) →
  block (matrix_ s) i i = Some J →
  storageJacobian_ s !! i = Some Js →
  storageTerm_ s !! i = Some Rs →
  let s' := forLoop (length (storageJacobian_ s)) (recycleDof curDt) s in
  block (matrix_ s') i i =
    Some (mb_add (mb_sub J Js) (mb_scale Js (s_div (oldDt_ s) curDt)))
  ∧ residual_ s' !! i = Some (vb_scale Rs (s_of_Z (-1)))
  ∧ dofColor_ s' = dofColor_ s
  ∧ elementColor_ s' = elementColor_ s
  ∧ reuseLinearization_ s' = reuseLinearization_ s.
Proof.
  intros Hres HJ HJs HRs. cbv zeta.
  assert (Hi : i < length (storageJacobian_ s)) by by eapply lookup_lt_Some.
  set (Jnew := mb_add (mb_sub J Js) (mb_scale Js (s_div (oldDt_ s) curDt))).
  set (Rnew := vb_scale Rs (s_of_Z (-1))).
  cut (let x := forLoop (length (storageJacobian_ s)) (recycleDof curDt) s in
       (storageTerm_ x = storageTerm_ s ∧ oldDt_ x = oldDt_ s
        ∧ dofColor_ x = dofColor_ s ∧ elementColor_ x = elementColor_ s
        ∧ reuseLinearization_ x = reuseLinearization_ s
        ∧ length (residual_ x) = length (residual_ s))
       ∧ (i < length (storageJacobian_ s) →
          block (matrix_ x) i i = Some Jnew ∧ residual_ x !! i = Some Rnew)
       ∧ (length (storageJacobian_ s) ≤ i →
          block (matrix_ x) i i = Some J ∧ storageJacobian_ x !! i = Some Js)).
  { cbv zeta. intros ((_ & _ & Hd & He & Hr & _) & Hdone & _).
    destruct (Hdone Hi). done. }
  refine (forLoop_inv
            (λ k x,
               (storageTerm_ x = storageTerm_ s ∧ oldDt_ x = oldDt_ s
                ∧ dofColor_ x = dofColor_ s ∧ elementColor_ x = elementColor_ s
                ∧ reuseLinearization_ x = reuseLinearization_ s
                ∧ length (residual_ x) = length (residual_ s))
               ∧ (i < k →
                  block (matrix_ x) i i = Some Jnew
                  ∧ residual_ x !! i = Some Rnew)
               ∧ (k ≤ i →
                  block (matrix_ x) i i = Some J
                  ∧ storageJacobian_ x !! i = Some Js))
            (length (storageJacobian_ s)) _ _ _ _).
  - split; [done|]. split; [lia|]. done.
  - intros k x Hk ((Hst & Hdt & Hd & He & Hr & Hlen) & Hdone & Htodo).
    split.
    { unfold recycleDof; simpl. rewrite length_alter, length_insert. done. }
    split.
    + intros Hlt. destruct (decide (i = k)) as [->|Hne].
      * destruct (Htodo ltac:(lia)) as [HJx HJsx].
        unfold recycleDof; simpl. rewrite !block_alter_eq, HJx. simpl.
        rewrite (list_lookup_total_correct _ _ _ HJsx).
        rewrite list_lookup_total_alter_eq by by eapply lookup_lt_Some.
        rewrite (list_lookup_total_correct _ _ _ HJsx), Hdt.
        split; [done|].
        rewrite list_lookup_alter_eq, list_lookup_insert_eq by lia.
        simpl. rewrite Hst. by rewrite (list_lookup_total_correct _ _ _ HRs).
      * destruct (Hdone ltac:(lia)) as [HJx HRx].
        unfold recycleDof; simpl.
        rewrite !block_alter_ne by congruence. split; [done|].
        by rewrite list_lookup_alter_ne, list_lookup_insert_ne by done.
    + intros Hle. destruct (Htodo ltac:(lia)) as [HJx HJsx].
      unfold recycleDof; simpl.
      rewrite !block_alter_ne by (intros [=]; lia). split; [done|].
      by rewrite list_lookup_alter_ne by lia.
Qed.
End Recycling.

(** C1. With linearization recycling enabled and the reuse flag set through
    [setLinearizationReusable(true)], [assemble()] returns normally, and for
    every DOF [i] the diagonal block of the matrix is the previous block [J]
    minus the cached storage Jacobian [Js] plus [Js] scaled by
    [oldDt / curDt], the residual block is the cached storage term [Rs]
    times -1, and the reuse flag is cleared. *)
Theorem assemble_recycled
    {S : Type} `{!ScalarOps S} (pb : Problem S) (ev : Evaluator S) (curDt : S)
    (s0 : Assembler S) (i : nat) (J Js : MatrixBlock S) (Rs : VectorBlock S) :
  enableLinearizationRecycling_ pb = true →
  i < length (residual_ s0) →
  block (matrix_ s0) i i = Some J →
  storageJacobian_ s0 !! i = Some Js →
  storageTerm_ s0 !! i = Some Rs →
  ∃ s', assemble pb ev curDt (setLinearizationReusable pb true s0) = Done s'
        ∧ block (matrix s') i i =
            Some (mb_add (mb_sub J Js)
                    (mb_scale Js (s_div (oldDt_ s0) curDt)))
        ∧ residual s' !! i = Some (vb_scale Rs (s_of_Z (-1)))
        ∧ reuseLinearization_ s' = false.
Proof.
  intros Hen Hres HJ HJs HRs.
  unfold setLinearizationReusable. rewrite Hen.
  set (s := set_reuseLinearization_ true s0).
  destruct (recycle_loop curDt s i J Js Rs Hres HJ HJs HRs)
    as (Hblock & Hresid & _).
  unfold assemble, assemble_, resetSystem_. simpl.
  eexists. split; [reflexivity|]. simpl. done.
Qed.

Lemma assemble_recycled_witness :
  ∃ s', assemble chain chainEvaluator (b64_of_Z 2)
          (setLinearizationReusable chain true chain_assembled) = Done s'
        ∧ block (matrix s') 1 1 = Some [[b64_of_Z 5]]
        ∧ residual s' !! 1 = Some [b64_of_Z (-4)]
        ∧ reuseLinearization_ s' = false.
Proof.
  destruct (assemble_recycled chain chainEvaluator (b64_of_Z 2)
              chain_assembled 1 [[b64_of_Z 8]] [[b64_of_Z 6]] [b64_of_Z 4])
    as (s' & Hrun & Hblock & Hresid & Hflag);
    [reflexivity | vm_compute; lia | reflexivity | reflexivity | reflexivity |].
  exists s'. split; [exact Hrun|]. split; [|split].
  - rewrite Hblock. reflexivity.
  - rewrite Hresid. reflexivity.
  - exact Hflag.
Defined.

(** ** What assembling leaves alone *)

Section Frame.
Context {S : Type} `{!ScalarOps S}.
Variable pb : Problem S.
Variable ev : Evaluator S.

Implicit Type s : Assembler S.

Lemma colors_kept_refl s : colors_kept s s.
Proof. by repeat split. Qed.

Lemma resetSystem_colors s : colors_kept s (resetSystem_ pb s).
Proof.
  unfold resetSystem_. destruct (reuseLinearization_ s); [apply colors_kept_refl|].
  destruct (enablePartialRelinearization_ pb); simpl.
  - apply (forLoop_inv (λ _ x, colors_kept s x)); [by repeat split|].
    intros i x _ Hx. case_bool_decide; [done|].
    destruct (enableLinearizationRecycling_ pb); exact Hx.
  - destruct (enableLinearizationRecycling_ pb); [|by repeat split].
    apply (forLoop_inv (λ _ x, colors_kept s x)); [by repeat split|].
    intros i x _ Hx. exact Hx.
Qed.

Lemma assembleGreenElement_colors (elem : Element) s :
  colors_kept s (final_state (assembleGreenElement_ pb ev elem s)).
Proof.
  unfold assembleGreenElement_.
  destruct (localResidual ev elem) as [lr|]; simpl; [|apply colors_kept_refl].
  apply (forLoop_inv (λ _ x, colors_kept s x)); [apply colors_kept_refl|].
  intros i x _ Hx. destruct (enableLinearizationRecycling_ pb); exact Hx.
Qed.

Lemma assembleElement_colors (elem : Element) s :
  colors_kept s (final_state (assembleElement_ pb ev elem s)).
Proof.
  unfold assembleElement_.
  destruct (enablePartialRelinearization_ pb
            && bool_decide (elementColor_ s !!! elemIdx elem = Green)).
  { apply (assembleGreenElement_colors elem
             (set_greenElems_ (greenElems_ s + 1) s)). }
  destruct (localJacobian ev elem) as [lj|]; simpl; [|apply colors_kept_refl].
  apply (forLoop_inv (λ _ x, colors_kept s x)); [apply colors_kept_refl|].
  intros i x _ Hx. case_bool_decide.
  - apply (forLoop_inv (λ _ x, colors_kept s x)).
    + destruct (enableLinearizationRecycling_ pb); exact Hx.
    + intros j y _ Hy. exact Hy.
  - destruct (enableLinearizationRecycling_ pb); exact Hx.
Qed.

Lemma recycleDof_colors (curDt : S) (i : nat) s :
  colors_kept s (recycleDof curDt i s).
Proof. by repeat split. Qed.

Lemma colors_kept_trans s x y :
  colors_kept s x → colors_kept x y → colors_kept s y.
Proof.
  intros (H1 & H2 & H3 & H4) (H1' & H2' & H3' & H4').
  repeat split; congruence.
Qed.

Lemma assemble__colors (curDt : S) s :
  colors_kept s (final_state (assemble_ pb ev curDt s)).
Proof.
  unfold assemble_.
  pose proof (resetSystem_colors s) as Hreset.
  destruct (reuseLinearization_ (resetSystem_ pb s)); simpl.
  - eapply colors_kept_trans; [exact Hreset|].
    cut (colors_kept (resetSystem_ pb s)
           (forLoop (length (storageJacobian_ (resetSystem_ pb s)))
              (recycleDof curDt) (resetSystem_ pb s))).
    { intros (? & ? & ? & ?). by repeat split. }
    apply (forLoop_inv (λ _ x, colors_kept (resetSystem_ pb s) x));
      [apply colors_kept_refl|].
    intros i x _ Hx. eapply colors_kept_trans; [exact Hx|].
    apply recycleDof_colors.
  - apply (forEach_inv (colors_kept s)).
    + destruct Hreset as (? & ? & ? & ?). by repeat split.
    + intros e x _ Hx. destruct (interior e); simpl; [|exact Hx].
      eapply colors_kept_trans; [exact Hx|]. apply assembleElement_colors.
Qed.
End Frame.

Lemma vb_clear_idemp {S : Type} `{!ScalarOps S} (v : VectorBlock S) :
  vb_clear (vb_clear v) = vb_clear v.
Proof. unfold vb_clear. rewrite <- list_fmap_compose. done. Qed.

Lemma resetSystem_cleared_residual {S : Type} `{!ScalarOps S}
    (pb : Problem S) (s : Assembler S) :
  reuseLinearization_ s = false →
  residual_ (resetSystem_ pb s) = vb_clear <$> residual_ s
  ∧ resetSystem_ pb (set_residual_ (vb_clear <$> residual_ s) s)
    = resetSystem_ pb s.
Proof.
  intros Hreuse. split.
  - unfold resetSystem_. rewrite Hreuse.
    destruct (enablePartialRelinearization_ pb); simpl.
    + refine (forLoop_inv
                (λ _ x, residual_ x = vb_clear <$> residual_ s) _ _ _ _ _);
        [done|].
      intros i x _ Hx. case_bool_decide; [done|].
      destruct (enableLinearizationRecycling_ pb); exact Hx.
    + destruct (enableLinearizationRecycling_ pb); [|done].
      refine (forLoop_inv
                (λ _ x, residual_ x = vb_clear <$> residual_ s) _ _ _ _ _);
        [done|].
      intros i x _ Hx. exact Hx.
  - unfold resetSystem_. simpl. rewrite Hreuse.
    replace (vb_clear <$> (vb_clear <$> residual_ s))
      with (vb_clear <$> residual_ s); [done|].
    rewrite <- list_fmap_compose. apply list_fmap_ext.
    intros j v _. simpl. by rewrite vb_clear_idemp.
Qed.

(** C5, as stated, fails: on the recycled path the reset step returns at
    once and the residual keeps its non-zero content. *)
Lemma recycled_assemble_skips_residual_reset :
  reuseLinearization_ (setLinearizationReusable chain true chain_assembled)
    = true
  ∧ residual_ (resetSystem_ chain
                 (setLinearizationReusable chain true chain_assembled))
    = [[b64_of_Z 1]; [b64_of_Z 2]; [b64_of_Z 1]]
  ∧ residual_ (resetSystem_ chain
                 (setLinearizationReusable chain true chain_assembled))
    ≠ vb_clear <$> residual_ chain_assembled.
Proof.
  split; [reflexivity|]. split; [reflexivity|]. by vm_compute.
Qed.

(** C5, amended. An [assemble()] that does not take the recycled path resets
    the residual vector to zero before it accumulates: the reset step leaves
    every entry zero, and the call is the one it would be had the residual
    been zero on entry. On the recycled path the reset step changes
    nothing. *)
Theorem assemble_resets_residual_unless_recycled
    {S : Type} `{!ScalarOps S} (pb : Problem S) (ev : Evaluator S) (curDt : S)
    (s : Assembler S) :
  (reuseLinearization_ s = false →
   residual_ (resetSystem_ pb s) = vb_clear <$> residual_ s
   ∧ assemble pb ev curDt s
     = assemble pb ev curDt (set_residual_ (vb_clear <$> residual_ s) s))
  ∧ (reuseLinearization_ s = true → resetSystem_ pb s = s).
Proof.
  split.
  - intros Hreuse.
    destruct (resetSystem_cleared_residual pb s Hreuse) as [Hres Hsame].
    split; [exact Hres|].
    unfold assemble, assemble_. rewrite Hsame. reflexivity.
  - intros Hreuse. unfold resetSystem_. by rewrite Hreuse.
Qed.

Lemma assemble_resets_residual_unless_recycled_witness :
  residual_ (resetSystem_ chain chain_assembled)
  = [[S754_zero false]; [S754_zero false]; [S754_zero false]]
  ∧ resetSystem_ chain (setLinearizationReusable chain true chain_assembled)
    = setLinearizationReusable chain true chain_assembled.
Proof.
  destruct (assemble_resets_residual_unless_recycled chain chainEvaluator
              (b64_of_Z 1) chain_assembled) as [Hfull _].
  destruct (assemble_resets_residual_unless_recycled chain chainEvaluator
              (b64_of_Z 1)
              (setLinearizationReusable chain true chain_assembled))
    as [_ Hrec].
  split.
  - rewrite (proj1 (Hfull eq_refl)). reflexivity.
  - apply Hrec. reflexivity.
Defined.

Lemma updateDiscrepancy_elementColor {S : Type} `{!ScalarOps S}
    (pb : Problem S) (previousResid : list (VectorBlock S)) (s : Assembler S) :
  elementColor_ (updateDiscrepancy pb previousResid s) = elementColor_ s.
Proof.
  unfold updateDiscrepancy.
  destruct (enablePartialRelinearization_ pb); simpl; [|done].
  refine (forLoop_inv (λ _ x, elementColor_ x = elementColor_ s) _ _ _ _ _);
    [done|].
  intros i x _ Hx. by destruct (s_leb _ _).
Qed.

(** C9. An [assemble()] that returns normally leaves every stored DOF color
    green, whether or not the linearization was recycled, and [dofColor]
    reports green when partial relinearization is enabled; it does not touch
    the element colors, so [elementColor] answers as before the call. The
    element colors are also left alone when [assemble()] throws, and by
    [setLinearizationReusable], [markDofRed] and [updateDiscrepancy]: of the
    public methods only [computeColors] and [relinearizeAll] write them. *)
Theorem assemble_colors_frame
    {S : Type} `{!ScalarOps S} (pb : Problem S) (ev : Evaluator S) (curDt : S)
    (s : Assembler S) :
  (∀ s', assemble pb ev curDt s = Done s' →
         dofColor_ s' = const Green <$> dofColor_ s
         ∧ (enablePartialRelinearization_ pb = true →
            ∀ i, i < length (dofColor_ s) → dofColor pb s' i = Green)
         ∧ (∀ idx, elementColor pb s' idx = elementColor pb s idx)
         ∧ (∀ e, elementColorOf pb s' e = elementColorOf pb s e))
  ∧ elementColor_ (final_state (assemble pb ev curDt s)) = elementColor_ s
  ∧ (∀ yesno, elementColor_ (setLinearizationReusable pb yesno s)
              = elementColor_ s)
  ∧ (∀ i, elementColor_ (markDofRed pb i s) = elementColor_ s)
  ∧ (∀ r, elementColor_ (updateDiscrepancy pb r s) = elementColor_ s).
Proof.
  pose proof (assemble__colors pb ev curDt s) as (Hd & He & _ & _).
  assert (Hfinal :
            dofColor_ (final_state (assemble pb ev curDt s))
            = (if is_done (assemble pb ev curDt s)
               then const Green <$> dofColor_ s else dofColor_ s)
            ∧ elementColor_ (final_state (assemble pb ev curDt s))
              = elementColor_ s).
  { unfold assemble, comm_min.
    destruct (assemble_ pb ev curDt s) as [x|x]; simpl in *.
    - destruct (negb (reuseLinearization_ s)
                && enablePartialRelinearization_ pb); simpl;
        by rewrite Hd, He.
    - done. }
  destruct Hfinal as [Hdof Helem].
  split; [|split; [exact Helem|split; [|split]]].
  - intros s' Hrun. rewrite Hrun in Hdof, Helem. simpl in *.
    split; [exact Hdof|]. split; [|split].
    + intros Hen i Hi. unfold dofColor. rewrite Hen, Hdof. simpl.
      apply list_lookup_total_correct.
      rewrite list_lookup_fmap.
      destruct (lookup_lt_is_Some_2 (dofColor_ s) i Hi) as [c ->]. done.
    + intros idx. unfold elementColor. by rewrite Helem.
    + intros e. unfold elementColorOf. by rewrite Helem.
  - intros yesno. unfold setLinearizationReusable.
    by destruct (enableLinearizationRecycling_ pb).
  - intros i. unfold markDofRed.
    by destruct (enablePartialRelinearization_ pb).
  - intros r. apply updateDiscrepancy_elementColor.
Qed.

Lemma assemble_colors_frame_witness :
  ∃ s', assemble chain chainEvaluator (b64_of_Z 2)
          (setLinearizationReusable chain true chain_colored) = Done s'
        ∧ dofColor_ s' = [Green; Green; Green]
        ∧ elementColor chain s' 1 = Yellow.
Proof.
  assert (Hrun : assemble chain chainEvaluator (b64_of_Z 2)
                   (setLinearizationReusable chain true chain_colored)
                 = Done (final_state
                           (assemble chain chainEvaluator (b64_of_Z 2)
                              (setLinearizationReusable chain true
                                 chain_colored)))).
  { vm_compute. reflexivity. }
  eexists. split; [exact Hrun|].
  destruct (proj1 (assemble_colors_frame chain chainEvaluator (b64_of_Z 2)
                     (setLinearizationReusable chain true chain_colored))
              _ Hrun) as (Hd & _ & He & _).
  split.
  - rewrite Hd. reflexivity.
  - rewrite He. reflexivity.
Defined.

(** ** The cached storage term of a green row *)

Section GreenStorage.
Context {S : Type} `{!ScalarOps S}.
Variable pb : Problem S.
Variable ev : Evaluator S.
Hypothesis recycling : enableLinearizationRecycling_ pb = true.
Hypothesis partial : enablePartialRelinearization_ pb = true.

Implicit Type s : Assembler S.

(** The reset skips the caches of a green row. *)
Lemma resetSystem_green_row s (i : nat) :
  reuseLinearization_ s = false →
  dofColor_ s !!! i = Green →
  storageTerm_ (resetSystem_ pb s) !! i = storageTerm_ s !! i
  ∧ storageJacobian_ (resetSystem_ pb s) !! i = storageJacobian_ s !! i.
Proof using recycling partial.
  intros Hreuse Hgreen. unfold resetSystem_.
  rewrite Hreuse, partial, recycling. simpl.
  loop_invariant
    (λ (_ : nat) x, dofColor_ x = dofColor_ s
                    ∧ storageTerm_ x !! i = storageTerm_ s !! i
                    ∧ storageJacobian_ x !! i = storageJacobian_ s !! i).
  - done.
  - intros k x _ (Hcol & Hst & HJs). case_bool_decide as Hk; [done|].
    simpl. split; [done|].
    assert (k ≠ i) by (intros ->; apply Hk; by rewrite Hcol).
    by rewrite !list_lookup_alter_ne.
  - intros x (_ & Hst & HJs). done.
Qed.

Lemma foldl_vb_add_step (old : option (VectorBlock S))
    (cs ds : list (VectorBlock S)) :
  (λ o, foldl vb_add o ds) <$> ((λ o, foldl vb_add o cs) <$> old)
  = (λ o, foldl vb_add o (cs ++ ds)) <$> old.
Proof. destruct old; simpl; [|done]. by rewrite foldl_app. Qed.

(** One element, seen from a green row [i]. *)
Lemma assembleElement_green_row (elem : Element) s (y : Assembler S)
    (i : nat) :
  dofColor_ s !!! i = Green →
  assembleElement_ pb ev elem s = Done y →
  storageTerm_ y !! i
  = (λ old, foldl vb_add old (elementStorageTerms pb ev (elementColor_ s) i elem))
      <$> storageTerm_ s !! i
  ∧ storageJacobian_ y !! i = storageJacobian_ s !! i.
Proof using recycling partial.
  intros Hgreen. unfold assembleElement_, elementStorageTerms.
  rewrite partial. simpl.
  case_bool_decide as Hel.
  - unfold assembleGreenElement_.
    destruct (localResidual ev elem) as [lr|]; simpl; [|done].
    intros [= <-]. rewrite recycling.
    refine (forLoop_inv
              (λ k x,
                 storageTerm_ x !! i
                 = (λ old, foldl vb_add old
                             (flat_map
                                (λ p, if bool_decide (stencil elem !!! p = i)
                                      then [lr_storageTerm lr p] else [])
                                (seq 0 k)))
                     <$> storageTerm_ s !! i
                 ∧ storageJacobian_ x !! i = storageJacobian_ s !! i)
              _ _ _ _ _).
    + simpl. split; [|done]. by destruct (storageTerm_ s !! i).
    + intros k x _ [Hst HJs]. cbv beta. split; [|done].
      rewrite seq_S, flat_map_app, <- foldl_vb_add_step, <- Hst. simpl.
      case_bool_decide as Hk.
      * rewrite Hk, list_lookup_alter_eq. simpl.
        by destruct (storageTerm_ x !! i).
      * rewrite list_lookup_alter_ne by done. simpl.
        by destruct (storageTerm_ x !! i).
  - destruct (localJacobian ev elem) as [lj|]; simpl; [|done].
    intros [= <-]. rewrite recycling.
    loop_invariant
      (λ k x,
         dofColor_ x = dofColor_ s
         ∧ storageTerm_ x !! i
           = (λ old, foldl vb_add old
                       (flat_map
                          (λ p, if bool_decide (stencil elem !!! p = i)
                                then [lj_residualStorage lj p] else [])
                          (seq 0 k)))
               <$> storageTerm_ s !! i
         ∧ storageJacobian_ x !! i = storageJacobian_ s !! i);
      [| | by intros x (_ & Hst & HJs)].
    + simpl. split; [done|]. split; [|done]. by destruct (storageTerm_ s !! i).
    + intros k x _ (Hcol & Hst & HJs).
      assert (Hterm :
                alter (λ r, vb_add r (lj_residualStorage lj k))
                  (stencil elem !!! k) (storageTerm_ x) !! i
                = (λ old, foldl vb_add old
                            (flat_map
                               (λ p, if bool_decide (stencil elem !!! p = i)
                                     then [lj_residualStorage lj p] else [])
                               (seq 0 (Datatypes.S k))))
                    <$> storageTerm_ s !! i).
      { rewrite seq_S, flat_map_app, <- foldl_vb_add_step, <- Hst. simpl.
        case_bool_decide as Hk.
        - rewrite Hk, list_lookup_alter_eq. simpl.
          by destruct (storageTerm_ x !! i).
        - rewrite list_lookup_alter_ne by done. simpl.
          by destruct (storageTerm_ x !! i). }
      unfold dofColor. rewrite partial. simpl. rewrite Hcol.
      case_bool_decide as Hk.
      * refine (forLoop_inv
                  (λ _ z,
                     dofColor_ z = dofColor_ s
                     ∧ storageTerm_ z !! i = _ <$> storageTerm_ s !! i
                     ∧ storageJacobian_ z !! i = storageJacobian_ s !! i)
                  _ _ _ _ _).
        -- simpl. split; [done|]. split; [exact Hterm|].
           rewrite list_lookup_alter_ne; [done|].
           intros Heq. apply Hk. by rewrite Heq.
        -- intros j z _ Hz. exact Hz.
      * simpl. done.
Qed.

(** The traversal of the elements, seen from a green row [i]. *)
Lemma traversal_green_row (es : list Element) s (y : Assembler S) (i : nat) :
  dofColor_ s !!! i = Green →
  forEach (λ elem x, if negb (interior elem) then Done x
                     else assembleElement_ pb ev elem x) es s = Done y →
  storageTerm_ y !! i
  = (λ old, foldl vb_add old
              (flat_map (λ elem, if negb (interior elem) then []
                                 else elementStorageTerms pb ev
                                        (elementColor_ s) i elem) es))
      <$> storageTerm_ s !! i
  ∧ storageJacobian_ y !! i = storageJacobian_ s !! i.
Proof using recycling partial.
  revert s. induction es as [|e es IH]; intros s Hgreen; simpl.
  - intros [= <-]. split; [|done]. by destruct (storageTerm_ s !! i).
  - destruct (negb (interior e)) eqn:Hint; simpl.
    + apply IH. done.
    + destruct (assembleElement_ pb ev e s) as [x|x] eqn:He; [|done].
      intros Hrest.
      destruct (assembleElement_green_row e s x i Hgreen He) as [Hst HJs].
      pose proof (assembleElement_colors pb ev e s) as Hc.
      rewrite He in Hc. simpl in Hc. destruct Hc as (Hcol & Hecol & _ & _).
      destruct (IH x ltac:(by rewrite Hcol) Hrest) as [Hst' HJs'].
      rewrite Hecol in Hst'.
      split; [|congruence].
      rewrite Hst', Hst. apply foldl_vb_add_step.
Qed.
End GreenStorage.

Lemma resetSystem_reuse {S : Type} `{!ScalarOps S} (pb : Problem S)
    (s : Assembler S) :
  reuseLinearization_ (resetSystem_ pb s) = reuseLinearization_ s.
Proof.
  unfold resetSystem_. destruct (reuseLinearization_ s) eqn:Hreuse; [done|].
  destruct (enablePartialRelinearization_ pb); simpl.
  - loop_invariant (λ (_ : nat) (x : Assembler S),
                      reuseLinearization_ x = false); [done| |done].
    intros i x _ Hx. case_bool_decide; [done|].
    by destruct (enableLinearizationRecycling_ pb).
  - destruct (enableLinearizationRecycling_ pb); [|done].
    loop_invariant (λ (_ : nat) (x : Assembler S),
                      reuseLinearization_ x = false); done.
Qed.

(** C10. With linearization recycling and partial relinearization both
    enabled, an [assemble()] that is not recycled and returns normally leaves
    the cached storage term and storage Jacobian of a green row as they are
    when it resets the system, and then adds the storage terms it evaluates
    for that row to the cached storage term: the new cached storage term is
    the previous one plus the fresh contributions, and the cached storage
    Jacobian of the row is unchanged. *)
Theorem assemble_green_row_storage_accumulates
    {S : Type} `{!ScalarOps S} (pb : Problem S) (ev : Evaluator S) (curDt : S)
    (s s' : Assembler S) (i : nat) :
  enableLinearizationRecycling_ pb = true →
  enablePartialRelinearization_ pb = true →
  reuseLinearization_ s = false →
  dofColor pb s i = Green →
  assemble pb ev curDt s = Done s' →
  storageTerm_ (resetSystem_ pb s) !! i = storageTerm_ s !! i
  ∧ storageJacobian_ (resetSystem_ pb s) !! i = storageJacobian_ s !! i
  ∧ storageTerm_ s' !! i
    = (λ old, foldl vb_add old
                (freshStorageTerms pb ev (elementColor_ s) i))
        <$> storageTerm_ s !! i
  ∧ storageJacobian_ s' !! i = storageJacobian_ s !! i.
Proof.
  intros Hrec Hpart Hreuse Hgreen Hrun.
  unfold dofColor in Hgreen. rewrite Hpart in Hgreen. simpl in Hgreen.
  destruct (resetSystem_green_row pb Hrec Hpart s i Hreuse Hgreen)
    as [Hst0 HJs0].
  split; [exact Hst0|]. split; [exact HJs0|].
  unfold assemble, comm_min in Hrun.
  destruct (assemble_ pb ev curDt s) as [x|x] eqn:Hasm; simpl in Hrun;
    [|done].
  rewrite Hreuse, Hpart in Hrun. simpl in Hrun. injection Hrun as <-. simpl.
  unfold assemble_ in Hasm. rewrite resetSystem_reuse, Hreuse in Hasm.
  destruct (resetSystem_colors pb s) as (Hcol & Hecol & _ & _).
  destruct (traversal_green_row pb ev Hrec Hpart (gridView_ pb)
              (set_greenElems_ 0 (set_oldDt_ curDt (resetSystem_ pb s)))
              x i) as [Hst HJs].
  - simpl. by rewrite Hcol.
  - exact Hasm.
  - simpl in Hst, HJs. rewrite Hecol, Hst0 in Hst. rewrite HJs0 in HJs.
    split; [exact Hst | exact HJs].
Qed.

Lemma assemble_green_row_storage_accumulates_witness :
  storageTerm_ chain_colored !! 2 = Some [b64_of_Z 2]
  ∧ freshStorageTerms chain chainEvaluator (elementColor_ chain_colored) 2
    = [[b64_of_Z 2]]
  ∧ storageTerm_
      (final_state (assemble chain chainEvaluator (b64_of_Z 1) chain_colored))
      !! 2 = Some [b64_of_Z 4].
Proof.
  split; [reflexivity|]. split; [reflexivity|].
  destruct (assemble_green_row_storage_accumulates chain chainEvaluator
              (b64_of_Z 1) chain_colored
              (final_state
                 (assemble chain chainEvaluator (b64_of_Z 1) chain_colored))
              2 eq_refl eq_refl eq_refl eq_refl)
    as (_ & _ & Hst & _).
  - vm_compute. reflexivity.
  - rewrite Hst. reflexivity.
Defined.

(** ** Simulation of the assembler by the one without coloring *)

Lemma forLoop_sim {A B : Type} (f : A → B) (n m : nat)
    (body1 : nat → A → A) (body2 : nat → B → B) (a : A) (b : B) :
  n = m → f a = b →
  (∀ i x, i < n → f (body1 i x) = body2 i (f x)) →
  f (forLoop n body1 a) = forLoop m body2 b.
Proof.
  intros <- <- Hsim. induction n as [|n IH]; [reflexivity|].
  rewrite !forLoop_S, Hsim by lia. f_equal. apply IH.
  intros i x Hi. apply Hsim. lia.
Qed.

Lemma forEach_sim {A B E : Type} (f : A → B)
    (body1 : E → A → outcome A) (body2 : E → B → outcome B)
    (es : list E) (a : A) :
  (∀ e x, outcome_map f (body1 e x) = body2 e (f x)) →
  outcome_map f (forEach body1 es a) = forEach body2 es (f a).
Proof.
  intros Hsim. revert a. induction es as [|e es IH]; intros a; simpl;
    [reflexivity|].
  rewrite <- Hsim. destruct (body1 e a) as [a'|a']; simpl; [apply IH|done].
Qed.

Section DisabledColoring.
Context {S : Type} `{!ScalarOps S}.
Variable pb : Problem S.
Variable ev : Evaluator S.
Hypothesis disabled : enablePartialRelinearization_ pb = false.

Implicit Type s : Assembler S.

Lemma resetSystem_plain s :
  reuseLinearization_ s = false →
  linearSystemOf (resetSystem_ pb s) = plainReset pb (linearSystemOf s).
Proof using disabled.
  intros Hreuse. unfold resetSystem_, plainReset.
  rewrite Hreuse, disabled. simpl.
  destruct (enableLinearizationRecycling_ pb); [|by unfold linearSystemOf].
  apply (forLoop_sim linearSystemOf); reflexivity.
Qed.

Lemma assembleElement_plain (elem : Element) s :
  outcome_map linearSystemOf (assembleElement_ pb ev elem s)
  = plainElement pb ev elem (linearSystemOf s).
Proof using disabled.
  unfold assembleElement_, plainElement. rewrite disabled. simpl.
  destruct (localJacobian ev elem) as [lj|]; simpl; [|reflexivity].
  f_equal. apply (forLoop_sim linearSystemOf); [reflexivity..|].
  intros p x _. unfold dofColor. rewrite disabled. simpl.
  apply (forLoop_sim linearSystemOf); [reflexivity| |reflexivity].
  by destruct (enableLinearizationRecycling_ pb).
Qed.

Lemma recycle_plain (curDt : S) s :
  linearSystemOf
    (set_oldDt_ curDt
       (set_reuseLinearization_ false
          (forLoop (length (storageJacobian_ s)) (recycleDof curDt) s)))
  = plainRecycle curDt (linearSystemOf s).
Proof.
  unfold plainRecycle.
  match goal with
  | |- _ = {| ls_matrix := ls_matrix ?l; ls_residual := _; ls_reuse := _;
              ls_storageJacobian := _; ls_storageTerm := _; ls_oldDt := _ |} =>
      replace l
        with (linearSystemOf
                (forLoop (length (storageJacobian_ s)) (recycleDof curDt) s))
  end; [reflexivity|].
  apply (forLoop_sim linearSystemOf); reflexivity.
Qed.

Lemma assemble__plain (curDt : S) s :
  outcome_map linearSystemOf (assemble_ pb ev curDt s)
  = plainAssemble pb ev curDt (linearSystemOf s).
Proof using disabled.
  unfold assemble_, plainAssemble. simpl.
  rewrite resetSystem_reuse.
  destruct (reuseLinearization_ s) eqn:Hreuse.
  - unfold resetSystem_. rewrite Hreuse. simpl. f_equal. apply recycle_plain.
  - unfold plainTraversal. rewrite <- resetSystem_plain by done.
    apply (forEach_sim linearSystemOf).
    intros e x. destruct (negb (interior e)); [reflexivity|].
    apply assembleElement_plain.
Qed.

Lemma assemble_plain (curDt : S) s :
  outcome_map linearSystemOf (assemble pb ev curDt s)
  = plainAssemble pb ev curDt (linearSystemOf s).
Proof using disabled.
  rewrite <- assemble__plain. unfold assemble, comm_min. rewrite disabled.
  rewrite andb_false_r.
  destruct (assemble_ pb ev curDt s) as [x|x]; reflexivity.
Qed.
End DisabledColoring.

(** C8, as stated, fails: with partial relinearization disabled and the
    linearization marked reusable, [assemble()] does not traverse the
    elements, and its residual is not the one of the full traversal. *)
Lemma disabled_coloring_recycled_is_no_traversal :
  enablePartialRelinearization_ chainPlain = false
  ∧ outcome_map linearSystemOf
      (assemble chainPlain chainEvaluator (b64_of_Z 2)
         (setLinearizationReusable chainPlain true chainPlain_assembled))
    ≠ plainTraversal chainPlain chainEvaluator (b64_of_Z 2)
        (linearSystemOf
           (setLinearizationReusable chainPlain true chainPlain_assembled)).
Proof.
  split; [reflexivity|]. intros Heq.
  apply (f_equal (λ o, ls_residual (final_state o))) in Heq.
  vm_compute in Heq. discriminate Heq.
Qed.

(** C8, amended. With partial relinearization disabled, [dofColor] and
    [elementColor] answer red for every index in both of their forms;
    [assemble()] produces the linear system, and throws, exactly as the
    assembler without coloring does; and unless the recycled path is taken
    that is the full element traversal. *)
Theorem disabled_coloring_equivalence
    {S : Type} `{!ScalarOps S} (pb : Problem S) (ev : Evaluator S) (curDt : S)
    (s : Assembler S) :
  enablePartialRelinearization_ pb = false →
  (∀ i, dofColor pb s i = Red)
  ∧ (∀ elem dofIdx, dofColorCtx pb s elem dofIdx = Red)
  ∧ (∀ i, elementColor pb s i = Red)
  ∧ (∀ elem, elementColorOf pb s elem = Red)
  ∧ outcome_map linearSystemOf (assemble pb ev curDt s)
    = plainAssemble pb ev curDt (linearSystemOf s)
  ∧ (reuseLinearization_ s = false →
     outcome_map linearSystemOf (assemble pb ev curDt s)
     = plainTraversal pb ev curDt (linearSystemOf s)).
Proof.
  intros Hdis.
  unfold dofColor, dofColorCtx, elementColor, elementColorOf.
  rewrite Hdis. simpl. repeat (split; [done|]).
  pose proof (assemble_plain pb ev Hdis curDt s) as Hsim.
  split; [exact Hsim|].
  intros Hreuse. rewrite Hsim. unfold plainAssemble. simpl. by rewrite Hreuse.
Qed.

Lemma disabled_coloring_equivalence_witness :
  dofColor chainPlain chainPlain_assembled 1 = Red
  ∧ ls_residual
      (final_state
         (plainTraversal chainPlain chainEvaluator (b64_of_Z 2)
            (linearSystemOf chainPlain_assembled)))
    = residual
        (final_state
           (assemble chainPlain chainEvaluator (b64_of_Z 2)
              chainPlain_assembled)).
Proof.
  destruct (disabled_coloring_equivalence chainPlain chainEvaluator
              (b64_of_Z 2) chainPlain_assembled eq_refl)
    as (Hd & _ & _ & _ & _ & Hfull).
  split; [apply Hd|].
  rewrite <- (Hfull eq_refl).
  by destruct (assemble chainPlain chainEvaluator (b64_of_Z 2)
                 chainPlain_assembled).
Defined.

(** ** The Newton update *)

Section UpdateFacts.
Context {S : Type} `{!ScalarOps S}.

(** The subtraction loop of [update_]. *)
Lemma update_loop (uLastIter deltaU uCurrentIter : list (VectorBlock S)) :
  let u :=
    forLoop (length uLastIter)
      (λ i uCurrentIter,
         let uCurrentIter := <[i := uLastIter !!! i]> uCurrentIter in
         alter (λ u, vb_sub u (deltaU !!! i)) i uCurrentIter)
      uCurrentIter in
  length u = length uCurrentIter
  ∧ (∀ i, i < length uLastIter → i < length uCurrentIter →
          u !! i = Some (vb_sub (uLastIter !!! i) (deltaU !!! i)))
  ∧ (∀ i, length uLastIter ≤ i → u !! i = uCurrentIter !! i).
Proof.
  cbv zeta.
  loop_invariant
    (λ k (u : list (VectorBlock S)),
       length u = length uCurrentIter
       ∧ (∀ i, i < k → i < length uCurrentIter →
               u !! i = Some (vb_sub (uLastIter !!! i) (deltaU !!! i)))
       ∧ (∀ i, k ≤ i → u !! i = uCurrentIter !! i)).
  - split; [done|]. split; [|done]. intros i Hi. lia.
  - intros k u _ (Hlen & Hdone & Hrest). cbv zeta.
    split; [by rewrite length_alter, length_insert|]. split.
    + intros i Hi Hin. destruct (decide (i = k)) as [->|Hne].
      * rewrite list_lookup_alter_eq, list_lookup_insert_eq by lia. done.
      * rewrite list_lookup_alter_ne, list_lookup_insert_ne by done.
        apply Hdone; lia.
    + intros i Hi.
      rewrite list_lookup_alter_ne, list_lookup_insert_ne by lia.
      apply Hrest. lia.
  - done.
Qed.
End UpdateFacts.

(** Non-finite binary64 values absorb additions and survive squaring. *)
Lemma b64_add_nonfinite_l (x y : spec_float) :
  b64_isfinite x = false → b64_isfinite (SFadd 53 1024 x y) = false.
Proof. destruct x as [|[]| |], y as [|[]| |]; simpl; done. Qed.

Lemma b64_add_nonfinite_r (x y : spec_float) :
  b64_isfinite y = false → b64_isfinite (SFadd 53 1024 x y) = false.
Proof. destruct x as [|[]| |], y as [|[]| |]; simpl; done. Qed.

Lemma b64_square_nonfinite (x : spec_float) :
  b64_isfinite x = false → b64_isfinite (SFmul 53 1024 x x) = false.
Proof. destruct x as [|[]| |]; simpl; done. Qed.

Lemma b64_sum_nonfinite {A : Type} (g : A → spec_float) (l : list A)
    (acc : spec_float) :
  b64_isfinite acc = false ∨ (∃ x, x ∈ l ∧ b64_isfinite (g x) = false) →
  b64_isfinite (foldl (λ acc x, SFadd 53 1024 acc (g x)) acc l) = false.
Proof.
  revert acc. induction l as [|x l IH]; intros acc Hnf; simpl.
  - destruct Hnf as [Hacc|(x & Hx & _)]; [done|]. by apply not_elem_of_nil in Hx.
  - apply IH. destruct Hnf as [Hacc|(y & Hy & Hgy)].
    + left. by apply b64_add_nonfinite_l.
    + apply elem_of_cons in Hy as [->|Hy].
      * left. by apply b64_add_nonfinite_r.
      * right. eauto.
Qed.

Lemma two_norm2_nonfinite (deltaU : list (list spec_float)) :
  has_nonfinite deltaU → b64_isfinite (two_norm2 deltaU) = false.
Proof.
  intros (b & x & Hb & Hx & Hnf). unfold two_norm2.
  apply (b64_sum_nonfinite vb_two_norm2). right. exists b. split; [done|].
  unfold vb_two_norm2.
  apply (b64_sum_nonfinite (λ x, SFmul 53 1024 x x)). right.
  exists x. split; [done|]. by apply b64_square_nonfinite.
Qed.

(** C7, as stated, fails in binary64: the update [2^600] holds no non-finite
    value, yet its squared norm overflows and [update_] rejects it. *)
Lemma update__rejects_a_finite_update :
  ¬ has_nonfinite [[b64 1 600]]
  ∧ update_ chain false (b64_of_Z 1) (b64_of_Z 1)
      [[b64_of_Z 1]] [[b64 1 600]] (chain_assembled, [[b64_of_Z 0]])
    = Raised (chain_assembled, [[b64_of_Z 0]]).
Proof.
  split; [|reflexivity].
  intros (b & x & Hb & Hx & Hnf).
  apply list_elem_of_singleton in Hb as ->.
  apply list_elem_of_singleton in Hx as ->.
  discriminate Hnf.
Qed.

(** C7, amended. [update_] throws exactly when the squared two-norm of
    [deltaU], as computed in the scalar arithmetic, is not finite, and then
    leaves the assembler and [uCurrentIter] as they were; otherwise it
    returns with [uCurrentIter[i] = uLastIter[i] - deltaU[i]] for every index
    [i] of [uLastIter]. In binary64 the squared norm of a [deltaU] that holds
    a non-finite value is not finite, so such an update is always rejected
    (but so is a finite one whose squares overflow). *)
Theorem update__contract :
  (∀ (S : Type) (ops : ScalarOps S) (pb : Problem S)
     (enablePartialReassemble_ : bool) (tolerance_ error_ : S)
     (uLastIter deltaU uCurrentIter : list (VectorBlock S))
     (asm : Assembler S),
     (s_isfinite (two_norm2 deltaU) = false →
      update_ pb enablePartialReassemble_ tolerance_ error_ uLastIter deltaU
        (asm, uCurrentIter)
      = Raised (asm, uCurrentIter))
     ∧ (s_isfinite (two_norm2 deltaU) = true →
        ∃ asm' u',
          update_ pb enablePartialReassemble_ tolerance_ error_ uLastIter
            deltaU (asm, uCurrentIter)
          = Done (asm', u')
          ∧ length u' = length uCurrentIter
          ∧ ∀ i, i < length uLastIter → i < length uCurrentIter →
                 u' !! i = Some (vb_sub (uLastIter !!! i) (deltaU !!! i))))
  ∧ (∀ deltaU : list (list spec_float),
       has_nonfinite deltaU →
       s_isfinite (two_norm2 deltaU) = false).
Proof.
  split; [|exact two_norm2_nonfinite].
  intros S ops pb flag tol err uLast dU uCur asm. split.
  - intros Hnf. unfold update_. by rewrite Hnf.
  - intros Hfin. unfold update_. rewrite Hfin. simpl.
    destruct (update_loop uLast dU uCur) as (Hlen & Hsub & _).
    eexists _, _. split; [reflexivity|]. split; [exact Hlen | exact Hsub].
Qed.

Lemma update__contract_witness :
  (∃ asm' u',
     update_ chain false (b64_of_Z 1) (b64_of_Z 1)
       [[b64_of_Z 5]] [[b64_of_Z 2]] (chain_assembled, [[b64_of_Z 0]])
     = Done (asm', u')
     ∧ u' !! 0 = Some [b64_of_Z 3])
  ∧ update_ chain false (b64_of_Z 1) (b64_of_Z 1)
      [[b64_of_Z 5]] [[S754_infinity false]] (chain_assembled, [[b64_of_Z 0]])
    = Raised (chain_assembled, [[b64_of_Z 0]]).
Proof.
  split.
  - destruct (proj2 (proj1 update__contract spec_float binary64_ops chain false
                       (b64_of_Z 1) (b64_of_Z 1)
                       [[b64_of_Z 5]] [[b64_of_Z 2]] [[b64_of_Z 0]]
                       chain_assembled) eq_refl)
      as (asm' & u' & Hrun & _ & Hsub).
    exists asm', u'. split; [exact Hrun|].
    rewrite (Hsub 0) by (vm_compute; lia). reflexivity.
  - apply (proj1 (proj1 update__contract spec_float binary64_ops chain false
                    (b64_of_Z 1) (b64_of_Z 1)
                    [[b64_of_Z 5]] [[S754_infinity false]] [[b64_of_Z 0]]
                    chain_assembled)).
    apply (proj2 update__contract). exists [S754_infinity false], (S754_infinity false).
    split; [left|]. split; [left|]. reflexivity.
Defined.

(** ** The relinearization accuracy *)

(** What [relinearizationAccuracy()] returns after a non-recycled assembly:
    the running maximum of the first loop of the last [computeColors], taken
    over the DOFs whose error did not exceed the tolerance. *)
Lemma computeColors_accuracy {S : Type} `{!ScalarOps S} (pb : Problem S)
    (tolerance : S) (s : Assembler S) :
  enablePartialRelinearization_ pb = true →
  nextRelinearizationAccuracy_ (computeColors pb tolerance s)
  = accuracyOf tolerance (dofError_ s) (length (dofColor_ s)).
Proof.
  intros Hen.
  destruct (computeColors_fields pb tolerance s Hen) as (_ & _ & _ & ->).
  by destruct (markRedDofs_spec tolerance (dofError_ s) (dofColor_ s))
    as (_ & _ & ->).
Qed.


(** C4 on the chain. The errors are 1/2, 1/4, 1/8 and the tolerance is 3/8:
    the DOF 0 is red, the DOF 1 is tinted by the red element and promoted to
    red, and the DOF 2 is the only green one, with error 1/8. The assembly
    that follows is not recycled and returns normally, and
    [relinearizationAccuracy()] is 1/4, the error of the promoted DOF 1, not
    the largest error 1/8 of a green DOF. *)
Theorem relinearizationAccuracy_counts_promoted_dof :
  enablePartialRelinearization_ chain = true
  ∧ dofError_ chain_updated = [b64 1 (-1); b64 1 (-2); b64 1 (-3)]
  ∧ chainTolerance = b64 3 (-3)
  ∧ dofColor_ chain_colored = [Red; Red; Green]
  ∧ reuseLinearization_ chain_colored = false
  ∧ is_done (assemble chain chainEvaluator (b64_of_Z 1) chain_colored) = true
  ∧ relinearizationAccuracy
      (final_state (assemble chain chainEvaluator (b64_of_Z 1) chain_colored))
    = b64 1 (-2)
  ∧ greenMaxError (dofColor_ chain_colored) (dofError_ chain_updated)
    = b64 1 (-3)
  ∧ greenMaxError (dofColor_ chain_colored) (dofError_ chain_colored)
    = b64 1 (-3).
Proof. repeat split; by vm_compute. Qed.

(** ** [markDofRed] without [computeColors] *)

Section GreenElements.
Context {S : Type} `{!ScalarOps S}.
Variable pb : Problem S.
Variable ev : Evaluator S.
Hypothesis partial : enablePartialRelinearization_ pb = true.

Implicit Type s : Assembler S.

(** The reset zeroes the row of a DOF that is not green. *)
Lemma resetSystem_clears_row s (i : nat) :
  reuseLinearization_ s = false →
  i < length (matrix_ s) →
  dofColor_ s !!! i ≠ Green →
  matrix_ (resetSystem_ pb s) !! i
  = fmap (M:=gmap nat) mb_clear <$> matrix_ s !! i.
Proof using partial.
  intros Hreuse Hi Hcol. unfold resetSystem_. rewrite Hreuse, partial. simpl.
  loop_invariant
    (λ k x, dofColor_ x = dofColor_ s
            ∧ matrix_ x !! i
              = if bool_decide (i < k)
                then fmap (M:=gmap nat) mb_clear <$> matrix_ s !! i
                else matrix_ s !! i).
  - done.
  - intros k x _ [Hc Hm]. rewrite Hc.
    destruct (decide (dofColor_ s !!! k = Green)) as [Hg|Hg].
    + rewrite (bool_decide_eq_true_2 _ Hg). split; [done|]. rewrite Hm.
      assert (k ≠ i) by congruence.
      destruct (decide (i < k)).
      * by rewrite !bool_decide_eq_true_2 by lia.
      * by rewrite !bool_decide_eq_false_2 by lia.
    + rewrite (bool_decide_eq_false_2 _ Hg).
      assert (Hrow : alter (fmap (M:=gmap nat) mb_clear) k (matrix_ x) !! i
                     = if bool_decide (i < Datatypes.S k)
                       then fmap (M:=gmap nat) mb_clear <$> matrix_ s !! i
                       else matrix_ s !! i).
      { destruct (decide (k = i)) as [->|Hne].
        - rewrite list_lookup_alter_eq, Hm.
          rewrite bool_decide_eq_false_2, bool_decide_eq_true_2 by lia. done.
        - rewrite list_lookup_alter_ne, Hm by done.
          destruct (decide (i < k)).
          + by rewrite !bool_decide_eq_true_2 by lia.
          + by rewrite !bool_decide_eq_false_2 by lia. }
      destruct (enableLinearizationRecycling_ pb); simpl; by split.
  - intros x [_ Hm]. rewrite Hm. by rewrite bool_decide_eq_true_2.
Qed.

(** A green element leaves the matrix alone. *)
Lemma assembleElement_green_matrix (elem : Element) s :
  elementColor_ s !!! elemIdx elem = Green →
  matrix_ (final_state (assembleElement_ pb ev elem s)) = matrix_ s.
Proof using partial.
  intros Hgreen. unfold assembleElement_.
  rewrite partial, bool_decide_eq_true_2 by done. simpl.
  unfold assembleGreenElement_.
  destruct (localResidual ev elem) as [lr|]; simpl; [|done].
  loop_invariant (λ (_ : nat) x, matrix_ x = matrix_ s); [done| |done].
  intros k x _ Hx. by destruct (enableLinearizationRecycling_ pb).
Qed.

(** When every interior element is green, an assembly that is not recycled
    leaves the row of a DOF that is not green zeroed: nothing recomputes
    it. *)
Lemma assemble_green_elements_leave_row_zero (curDt : S) s (i : nat) :
  reuseLinearization_ s = false →
  i < length (matrix_ s) →
  dofColor_ s !!! i ≠ Green →
  (∀ e, e ∈ gridView_ pb → interior e = true →
        elementColor_ s !!! elemIdx e = Green) →
  matrix_ (final_state (assemble pb ev curDt s)) !! i
  = fmap (M:=gmap nat) mb_clear <$> matrix_ s !! i.
Proof using partial.
  intros Hreuse Hi Hcol Hgreen.
  rewrite <- (resetSystem_clears_row s i Hreuse Hi Hcol).
  destruct (resetSystem_colors pb s) as (_ & Hecol & _ & _).
  assert (Hasm : matrix_ (final_state (assemble_ pb ev curDt s))
                 = matrix_ (resetSystem_ pb s)).
  { unfold assemble_. rewrite resetSystem_reuse, Hreuse.
    apply (forEach_inv
             (λ x, elementColor_ x = elementColor_ s
                   ∧ matrix_ x = matrix_ (resetSystem_ pb s))); [done|].
    intros e x He [Hex Hmx]. destruct (interior e) eqn:Hint; simpl; [|done].
    destruct (assembleElement_colors pb ev e x) as (_ & Hey & _ & _).
    split; [congruence|].
    rewrite assembleElement_green_matrix; [done|].
    rewrite Hex. by apply Hgreen. }
  unfold assemble, comm_min.
  destruct (assemble_ pb ev curDt s) as [x|x]; simpl in *; [|by rewrite Hasm].
  destruct (negb (reuseLinearization_ s) && enablePartialRelinearization_ pb);
    simpl; by rewrite Hasm.
Qed.
End GreenElements.

(** C6 on the chain. After a quiet step every DOF and every element is
    green. [markDofRed(0)] makes the DOF 0 red but leaves its elements green;
    the next [assemble()] returns normally, has zeroed the row 0 of the
    matrix and has taken the green path for both elements, so the row stays
    zero, where the linearization of the row is 4 in both of its blocks.
    With [computeColors] between the two calls the row is recomputed. *)
Theorem markDofRed_then_assemble_leaves_row_zero :
  dofColor_ chain_quiet = [Green; Green; Green]
  ∧ elementColor_ chain_quiet = [Green; Green]
  ∧ block (matrix chain_quiet) 0 0 = Some [[b64_of_Z 4]]
  ∧ block (matrix chain_quiet) 0 1 = Some [[b64_of_Z 4]]
  ∧ dofColor chain (markDofRed chain 0 chain_quiet) 0 = Red
  ∧ is_done (assemble chain chainEvaluator (b64_of_Z 1)
               (markDofRed chain 0 chain_quiet)) = true
  ∧ block (matrix (final_state
                     (assemble chain chainEvaluator (b64_of_Z 1)
                        (markDofRed chain 0 chain_quiet)))) 0 0
    = Some [[S754_zero false]]
  ∧ block (matrix (final_state
                     (assemble chain chainEvaluator (b64_of_Z 1)
                        (markDofRed chain 0 chain_quiet)))) 0 1
    = Some [[S754_zero false]]
  ∧ block (matrix (final_state
                     (assemble chain chainEvaluator (b64_of_Z 1)
                        (computeColors chain chainTolerance
                           (markDofRed chain 0 chain_quiet))))) 0 0
    = Some [[b64_of_Z 4]].
Proof. repeat split; by vm_compute. Qed.

(** * Further properties of the assembler *)

(** ** The shape of the linear system is fixed *)

Section Shape.
Context {S : Type} `{!ScalarOps S}.
Variable pb : Problem S.
Variable ev : Evaluator S.

Implicit Type s : Assembler S.
Implicit Type m : list (gmap nat (MatrixBlock S)).

Lemma pattern_alter_block (f : MatrixBlock S → MatrixBlock S) m (i j : nat) :
  pattern (alter (alter f j) i m) = pattern m.
Proof.
  unfold pattern. apply list_eq. intros k. rewrite !list_lookup_fmap.
  destruct (decide (i = k)) as [->|Hne].
  - rewrite list_lookup_alter_eq. destruct (m !! k) as [row|]; simpl; [|done].
    f_equal. apply leibniz_equiv. apply dom_alter.
  - by rewrite list_lookup_alter_ne.
Qed.

Lemma pattern_clear_row m (i : nat) :
  pattern (alter (fmap (M:=gmap nat) mb_clear) i m) = pattern m.
Proof.
  unfold pattern. apply list_eq. intros k. rewrite !list_lookup_fmap.
  destruct (decide (i = k)) as [->|Hne].
  - rewrite list_lookup_alter_eq. destruct (m !! k) as [row|]; simpl; [|done].
    f_equal. apply leibniz_equiv. apply dom_fmap.
  - by rewrite list_lookup_alter_ne.
Qed.

Lemma pattern_clear m :
  pattern (fmap (M:=gmap nat) mb_clear <$> m) = pattern m.
Proof.
  unfold pattern. rewrite <- list_fmap_compose. apply list_fmap_ext.
  intros k row _. simpl. apply leibniz_equiv. apply dom_fmap.
Qed.

Lemma shape_kept_refl s : shape_kept s s.
Proof. by repeat split. Qed.

Lemma shape_kept_trans s x y :
  shape_kept s x → shape_kept x y → shape_kept s y.
Proof.
  intros (H1 & H2 & H3 & H4) (H1' & H2' & H3' & H4').
  repeat split; congruence.
Qed.

Lemma resetSystem_shape s : shape_kept s (resetSystem_ pb s).
Proof.
  unfold resetSystem_. destruct (reuseLinearization_ s); [apply shape_kept_refl|].
  destruct (enablePartialRelinearization_ pb); simpl.
  - loop_invariant (λ (_ : nat) x, shape_kept s x).
    + repeat split; simpl; try done. by rewrite length_fmap.
    + intros i x _ (Hp & Hr & HJ & HT). case_bool_decide; [done|].
      destruct (enableLinearizationRecycling_ pb); repeat split; simpl;
        rewrite ?pattern_clear_row, ?length_alter; done.
    + done.
  - destruct (enableLinearizationRecycling_ pb).
    + loop_invariant (λ (_ : nat) x, shape_kept s x).
      * repeat split; simpl; rewrite ?pattern_clear, ?length_fmap; done.
      * intros i x _ (Hp & Hr & HJ & HT).
        repeat split; simpl; rewrite ?length_alter; done.
      * done.
    + repeat split; simpl; rewrite ?pattern_clear, ?length_fmap; done.
Qed.

Lemma assembleGreenElement_shape (elem : Element) s :
  shape_kept s (final_state (assembleGreenElement_ pb ev elem s)).
Proof.
  unfold assembleGreenElement_.
  destruct (localResidual ev elem) as [lr|]; simpl; [|apply shape_kept_refl].
  loop_invariant (λ (_ : nat) x, shape_kept s x);
    [apply shape_kept_refl | | done].
  intros i x _ (Hp & Hr & HJ & HT).
  destruct (enableLinearizationRecycling_ pb); repeat split; simpl;
    rewrite ?length_alter; done.
Qed.

Lemma assembleElement_shape (elem : Element) s :
  shape_kept s (final_state (assembleElement_ pb ev elem s)).
Proof.
  unfold assembleElement_.
  destruct (enablePartialRelinearization_ pb
            && bool_decide (elementColor_ s !!! elemIdx elem = Green)).
  { eapply shape_kept_trans;
      [|apply (assembleGreenElement_shape elem
                 (set_greenElems_ (greenElems_ s + 1) s))].
    by repeat split. }
  destruct (localJacobian ev elem) as [lj|]; simpl; [|apply shape_kept_refl].
  loop_invariant (λ (_ : nat) x, shape_kept s x);
    [apply shape_kept_refl | | done].
  intros i x _ Hx. case_bool_decide.
  - loop_invariant (λ (_ : nat) y, shape_kept s y); [| |done].
    + destruct Hx as (Hp & Hr & HJ & HT).
      destruct (enableLinearizationRecycling_ pb); repeat split; simpl;
        rewrite ?length_alter; done.
    + intros j y _ (Hp & Hr & HJ & HT).
      repeat split; simpl; rewrite ?pattern_alter_block; done.
  - destruct Hx as (Hp & Hr & HJ & HT).
    destruct (enableLinearizationRecycling_ pb); repeat split; simpl;
      rewrite ?length_alter; done.
Qed.

Lemma recycleDof_shape (curDt : S) (i : nat) s :
  shape_kept s (recycleDof curDt i s).
Proof.
  unfold recycleDof. repeat split; simpl;
    rewrite ?pattern_alter_block, ?length_alter, ?length_insert; done.
Qed.

Lemma assemble__shape (curDt : S) s :
  shape_kept s (final_state (assemble_ pb ev curDt s)).
Proof.
  unfold assemble_. pose proof (resetSystem_shape s) as Hreset.
  destruct (reuseLinearization_ (resetSystem_ pb s)); simpl.
  - eapply shape_kept_trans; [exact Hreset|].
    cut (shape_kept (resetSystem_ pb s)
           (forLoop (length (storageJacobian_ (resetSystem_ pb s)))
              (recycleDof curDt) (resetSystem_ pb s))).
    { intros (? & ? & ? & ?). by repeat split. }
    apply (forLoop_inv (λ _ x, shape_kept (resetSystem_ pb s) x));
      [apply shape_kept_refl|].
    intros i x _ Hx. eapply shape_kept_trans; [exact Hx|].
    apply recycleDof_shape.
  - apply (forEach_inv (shape_kept s)).
    + destruct Hreset as (? & ? & ? & ?). by repeat split.
    + intros e x _ Hx. destruct (interior e); simpl; [|exact Hx].
      eapply shape_kept_trans; [exact Hx|]. apply assembleElement_shape.
Qed.
End Shape.

(** X1. [assemble()] never changes the shape of what it fills: whether it
    returns or throws, recycles or not, the matrix keeps its number of rows
    and the column indices of every row, and the residual, the two caches
    and the three coloring arrays keep their sizes. *)
Theorem assemble_keeps_shape
    {S : Type} `{!ScalarOps S} (pb : Problem S) (ev : Evaluator S) (curDt : S)
    (s : Assembler S) :
  let s' := final_state (assemble pb ev curDt s) in
  pattern (matrix s') = pattern (matrix s)
  ∧ length (residual s') = length (residual s)
  ∧ length (storageJacobian_ s') = length (storageJacobian_ s)
  ∧ length (storageTerm_ s') = length (storageTerm_ s)
  ∧ length (dofColor_ s') = length (dofColor_ s)
  ∧ length (dofError_ s') = length (dofError_ s)
  ∧ length (elementColor_ s') = length (elementColor_ s).
Proof.
  cbv zeta.
  pose proof (assemble__shape pb ev curDt s) as (Hp & Hr & HJ & HT).
  pose proof (assemble__colors pb ev curDt s) as (Hd & He & Herr & _).
  unfold assemble, comm_min, matrix, residual.
  destruct (assemble_ pb ev curDt s) as [x|x]; simpl in *.
  - destruct (negb (reuseLinearization_ s)
              && enablePartialRelinearization_ pb); simpl;
      rewrite ?length_fmap, Hd, He, Herr; done.
  - by rewrite Hd, He, Herr.
Qed.

(** ** The sparsity pattern built by [createMatrix_] *)

Section Sparsity.
Context {S : Type} `{!ScalarOps S}.

(** The neighbor sets after the loops over one element. *)
Lemma neighbors_of_element (e : Element) (nb0 : list (gset nat)) :
  numPrimaryDof e ≤ length (stencil e) →
  let nb :=
    forLoop (numPrimaryDof e)
      (λ primaryDofIdx neighbors,
         forLoop (length (stencil e))
           (λ dofIdx neighbors,
              alter (λ ns, {[stencil e !!! dofIdx]} ∪ ns)
                (stencil e !!! primaryDofIdx) neighbors)
           neighbors)
      nb0 in
  length nb = length nb0
  ∧ ∀ i j, i < length nb0 →
           (j ∈ nb !!! i ↔
            j ∈ nb0 !!! i
            ∨ ∃ p d, p < numPrimaryDof e
                     ∧ stencil e !! p = Some i ∧ stencil e !! d = Some j).
Proof.
  intros Hwf. cbv zeta.
  loop_invariant
    (λ k (nb : list (gset nat)),
       length nb = length nb0
       ∧ ∀ i j, i < length nb0 →
                (j ∈ nb !!! i ↔
                 j ∈ nb0 !!! i
                 ∨ ∃ p d, p < k
                          ∧ stencil e !! p = Some i
                          ∧ stencil e !! d = Some j)).
  - split; [done|]. intros i j _. split; [by left|].
    intros [?|(p & d & Hp & _)]; [done|lia].
  - intros k nb1 Hk [Hlen1 Hin1].
    assert (Hkst : stencil e !! k = Some (stencil e !!! k)).
    { apply list_lookup_lookup_total_lt. lia. }
    loop_invariant
      (λ k' (nb : list (gset nat)),
         length nb = length nb0
         ∧ ∀ i j, i < length nb0 →
                  (j ∈ nb !!! i ↔
                   j ∈ nb1 !!! i
                   ∨ (stencil e !!! k = i
                      ∧ ∃ d, d < k' ∧ stencil e !! d = Some j))).
    + split; [done|]. intros i j _. split; [by left|].
      intros [?|(_ & d & Hd & _)]; [done|lia].
    + intros k' nb2 Hk' [Hlen2 Hin2].
      assert (Hk'st : stencil e !! k' = Some (stencil e !!! k')).
      { by apply list_lookup_lookup_total_lt. }
      split; [by rewrite length_alter|].
      intros i j Hi. destruct (decide (stencil e !!! k = i)) as [Heq|Hne].
      * rewrite Heq, list_lookup_total_alter_eq by lia.
        rewrite elem_of_union, elem_of_singleton, (Hin2 i j Hi). split.
        -- intros [->|[Hold|(_ & d & Hd & Hdj)]].
           ++ right. split; [done|]. exists k'. split; [lia|done].
           ++ by left.
           ++ right. split; [done|]. exists d. split; [lia|done].
        -- intros [Hold|(_ & d & Hd & Hdj)]; [by right; left|].
           destruct (decide (d = k')) as [->|Hdk].
           ++ left. rewrite Hk'st in Hdj. by injection Hdj.
           ++ right. right. split; [done|]. exists d. split; [lia|done].
      * rewrite list_lookup_total_alter_ne by done. rewrite (Hin2 i j Hi).
        split; (intros [Hold|[Heq _]]; [by left|done]).
    + intros nb2 [Hlen2 Hin2]. split; [done|].
      intros i j Hi. rewrite (Hin2 i j Hi), (Hin1 i j Hi). split.
      * intros [[Hold|(p & d & Hp & Hpi & Hdj)]|(Heq & d & _ & Hdj)].
        -- by left.
        -- right. exists p, d. split; [lia|done].
        -- right. exists k, d. split; [lia|]. split; [|done].
           by rewrite Hkst, Heq.
      * intros [Hold|(p & d & Hp & Hpi & Hdj)]; [by left; left|].
        destruct (decide (p = k)) as [->|Hpk].
        -- right. split; [by rewrite Hkst in Hpi; injection Hpi|].
           exists d. split; [by eapply lookup_lt_Some|done].
        -- left. right. exists p, d. split; [lia|done].
  - done.
Qed.

(** The neighbor sets after the loop over the elements. *)
Lemma neighbors_of_grid (grid : list Element) (nb0 : list (gset nat)) :
  (∀ e, e ∈ grid → numPrimaryDof e ≤ length (stencil e)) →
  let nb :=
    foldl (λ neighbors e,
             forLoop (numPrimaryDof e)
               (λ primaryDofIdx neighbors,
                  forLoop (length (stencil e))
                    (λ dofIdx neighbors,
                       alter (λ ns, {[stencil e !!! dofIdx]} ∪ ns)
                         (stencil e !!! primaryDofIdx) neighbors)
                    neighbors)
               neighbors)
          nb0 grid in
  length nb = length nb0
  ∧ ∀ i j, i < length nb0 →
           (j ∈ nb !!! i ↔ j ∈ nb0 !!! i ∨ couples grid i j).
Proof.
  revert nb0. induction grid as [|e grid IH]; intros nb0 Hwf; simpl.
  - split; [done|]. intros i j _. split; [by left|].
    intros [?|(e & p & d & He & _)]; [done|]. by apply not_elem_of_nil in He.
  - destruct (neighbors_of_element e nb0 (Hwf e ltac:(left)))
      as [Hlen1 Hin1].
    match goal with
    | |- context [foldl ?f ?a grid] =>
        destruct (IH a ltac:(intros e' He'; apply Hwf; by right))
          as [Hlen2 Hin2]
    end.
    split; [congruence|]. intros i j Hi.
    rewrite Hin2 by (rewrite Hlen1; done). rewrite (Hin1 i j Hi). split.
    + intros [[Hold|(p & d & Hp & Hpi & Hdj)]|(e' & p & d & He' & Hc)].
      * by left.
      * right. exists e, p, d. split; [left|done].
      * right. exists e', p, d. split; [by right|done].
    + intros [Hold|(e' & p & d & [->|He']%elem_of_cons & Hc)].
      * by left; left.
      * left; right. by exists p, d.
      * right. by exists e', p, d.
Qed.

Lemma mb_clear_zero (n : nat) : mb_clear (mb_zero n) = mb_zero (S:=S) n.
Proof.
  unfold mb_clear, mb_zero, vb_clear. rewrite fmap_replicate. f_equal.
  by rewrite fmap_replicate.
Qed.

(** The blocks of the matrix that [createMatrix_] builds. *)
Lemma createMatrix_blocks (pb : Problem S) (i j : nat) :
  (∀ e, e ∈ gridView_ pb → numPrimaryDof e ≤ length (stencil e)) →
  (i < numDof pb ∧ couples (gridView_ pb) i j →
   block (createMatrix_ pb) i j = Some (mb_zero (numEq pb)))
  ∧ (is_Some (block (createMatrix_ pb) i j) →
     i < numDof pb ∧ couples (gridView_ pb) i j)
  ∧ length (createMatrix_ pb) = numDof pb.
Proof.
  intros Hwf. unfold createMatrix_. cbv zeta.
  destruct (neighbors_of_grid (gridView_ pb) (replicate (numDof pb) ∅) Hwf)
    as [Hlen Hin].
  cbv zeta in Hlen, Hin. rewrite length_replicate in Hlen, Hin.
  set (nb := foldl _ _ _) in *.
  assert (Hcpl : ∀ j, i < numDof pb → j ∈ nb !!! i ↔ couples (gridView_ pb) i j).
  { intros j' Hi. rewrite (Hin i j' Hi).
    rewrite lookup_total_replicate_2 by done. split; [|by right].
    intros [Hempty|Hc]; [|done]. by apply not_elem_of_empty in Hempty. }
  unfold block. rewrite list_lookup_fmap. split; [|split].
  - intros [Hi Hc].
    rewrite (list_lookup_lookup_total_lt nb i) by lia. simpl.
    rewrite lookup_gset_to_gmap, option_guard_True; [done|].
    by apply Hcpl.
  - intros [b Hb]. destruct (nb !! i) as [ns|] eqn:Hns; simpl in Hb; [|done].
    assert (Hi : i < numDof pb).
    { rewrite <- Hlen. by eapply lookup_lt_Some. }
    split; [done|]. apply Hcpl; [done|].
    rewrite (list_lookup_total_correct _ _ _ Hns).
    rewrite lookup_gset_to_gmap in Hb.
    destruct (decide (j ∈ ns)) as [Hj|Hj]; [done|].
    by rewrite option_guard_False in Hb.
  - by rewrite length_fmap.
Qed.
End Sparsity.

Lemma init_matrix {S : Type} `{!ScalarOps S} (pb : Problem S)
    (s : Assembler S) :
  matrix_ (init pb s) = fmap (M:=gmap nat) mb_clear <$> createMatrix_ pb.
Proof.
  unfold init, relinearizeAll.
  destruct (enableLinearizationRecycling_ pb),
    (enablePartialRelinearization_ pb); reflexivity.
Qed.

(** X2. After [init], the matrix has one row per DOF, and the block
    [(i, j)] exists exactly when some element has [i] among its primary DOFs
    and [j] in its stencil; every block is zero. (Each element must have at
    least as many DOFs as primary DOFs.) *)
Theorem init_sparsity_pattern
    {S : Type} `{!ScalarOps S} (pb : Problem S) (s : Assembler S) (i j : nat) :
  (∀ e, e ∈ gridView_ pb → numPrimaryDof e ≤ length (stencil e)) →
  length (matrix (init pb s)) = numDof pb
  ∧ (is_Some (block (matrix (init pb s)) i j)
     ↔ i < numDof pb ∧ couples (gridView_ pb) i j)
  ∧ (∀ b, block (matrix (init pb s)) i j = Some b → b = mb_zero (numEq pb)).
Proof.
  intros Hwf. unfold matrix. rewrite init_matrix.
  destruct (createMatrix_blocks pb i j Hwf) as (Hto & Hfrom & Hlen).
  assert (Hblock : block (fmap (M:=gmap nat) mb_clear <$> createMatrix_ pb) i j
                   = mb_clear <$> block (createMatrix_ pb) i j).
  { unfold block. rewrite list_lookup_fmap.
    destruct (createMatrix_ pb !! i) as [row|]; simpl; [|done].
    by rewrite lookup_fmap. }
  rewrite Hblock. split; [by rewrite length_fmap|]. split.
  - rewrite fmap_is_Some. split; [exact Hfrom|].
    intros Hc. rewrite (Hto Hc). eauto.
  - intros b Hb.
    destruct (block (createMatrix_ pb) i j) as [b0|] eqn:Hb0; [|done].
    pose proof (Hto (Hfrom ltac:(eauto))) as Hz.
    simpl in Hb. simplify_eq. apply mb_clear_zero.
Qed.

Lemma init_sparsity_pattern_witness :
  is_Some (block (matrix chain_init) 0 1)
  ∧ ¬ is_Some (block (matrix chain_init) 0 2).
Proof.
  assert (Hwf : ∀ e, e ∈ gridView_ chain →
                     numPrimaryDof e ≤ length (stencil e)).
  { apply Forall_forall. repeat constructor. }
  destruct (init_sparsity_pattern chain (FvBaseAssembler_new (b64_of_Z 1))
              0 1 Hwf) as (_ & Hiff1 & _).
  destruct (init_sparsity_pattern chain (FvBaseAssembler_new (b64_of_Z 1))
              0 2 Hwf) as (_ & Hiff2 & _).
  split.
  - apply Hiff1. split; [vm_compute; lia|].
    exists (chainElement 0), 0, 1. split; [left|]. split; [vm_compute; lia|].
    split; reflexivity.
  - intros Hsome. apply Hiff2 in Hsome as [_ (e & p & d & He & Hp & Hpi & Hdj)].
    apply elem_of_cons in He as [->|He].
    + destruct d as [|[|d]]; simpl in Hdj; discriminate Hdj.
    + apply list_elem_of_singleton in He as ->.
      destruct p as [|[|p]]; simpl in Hpi; discriminate Hpi.
Defined.

(** ** Invariants of every sequence of calls *)

Section Sizes.
Context {S : Type} `{!ScalarOps S}.
Variable pb : Problem S.

Implicit Type s : Assembler S.

Lemma promoteOrangeDofs_error_length (col : list EntityColor) (err : list S) :
  length (promoteOrangeDofs col err).2 = length err.
Proof.
  unfold promoteOrangeDofs.
  loop_invariant (λ (_ : nat) (r : list EntityColor * list S),
                    length r.2 = length err); [done| |done].
  intros i [c e] _ He; simpl in *.
  destruct (_ || _); simpl; [done|]. by rewrite length_insert.
Qed.

Lemma markRedElements_length (grid : list Element)
    (col ecol : list EntityColor) :
  length (markRedElements grid col ecol) = length ecol.
Proof.
  unfold markRedElements.
  apply (foldl_inv (λ x, length x = length ecol)); [done|].
  intros x e _ Hx. by rewrite length_insert.
Qed.

Lemma markYellowElements_length (grid : list Element)
    (col ecol : list EntityColor) :
  length (markYellowElements grid col ecol) = length ecol.
Proof.
  unfold markYellowElements.
  apply (foldl_inv (λ x, length x = length ecol)); [done|].
  intros x e _ Hx. case_bool_decide; [done|].
  destruct (containsColor _ _ _); [|done]. by rewrite length_insert.
Qed.

Lemma computeColors_lengths (tolerance : S) s :
  length (dofColor_ (computeColors pb tolerance s)) = length (dofColor_ s)
  ∧ length (dofError_ (computeColors pb tolerance s)) = length (dofError_ s)
  ∧ length (elementColor_ (computeColors pb tolerance s))
    = length (elementColor_ s).
Proof.
  destruct (enablePartialRelinearization_ pb) eqn:Hen.
  - destruct (computeColors_fields pb tolerance s Hen) as (-> & -> & -> & _).
    destruct (markRedDofs_spec tolerance (dofError_ s) (dofColor_ s))
      as (Hlen1 & _ & _).
    split; [|split].
    + destruct (promoteOrangeDofs_spec
                  (demoteOrangeDofs (gridView_ pb)
                     (markYellowElements (gridView_ pb)
                        (markOrangeDofs (gridView_ pb)
                           (markRedElements (gridView_ pb)
                              (markRedDofs tolerance (dofError_ s)
                                 (dofColor_ s)).1 (elementColor_ s))
                           (markRedDofs tolerance (dofError_ s)
                              (dofColor_ s)).1)
                        (markRedElements (gridView_ pb)
                           (markRedDofs tolerance (dofError_ s)
                              (dofColor_ s)).1 (elementColor_ s)))
                     (markOrangeDofs (gridView_ pb)
                        (markRedElements (gridView_ pb)
                           (markRedDofs tolerance (dofError_ s)
                              (dofColor_ s)).1 (elementColor_ s))
                        (markRedDofs tolerance (dofError_ s)
                           (dofColor_ s)).1))
                  (dofError_ s)) as [-> _].
      destruct (demoteOrangeDofs_cellwise (gridView_ pb)
                  (markYellowElements (gridView_ pb)
                     (markOrangeDofs (gridView_ pb)
                        (markRedElements (gridView_ pb)
                           (markRedDofs tolerance (dofError_ s)
                              (dofColor_ s)).1 (elementColor_ s))
                        (markRedDofs tolerance (dofError_ s)
                           (dofColor_ s)).1)
                     (markRedElements (gridView_ pb)
                        (markRedDofs tolerance (dofError_ s)
                           (dofColor_ s)).1 (elementColor_ s)))
                  (markOrangeDofs (gridView_ pb)
                     (markRedElements (gridView_ pb)
                        (markRedDofs tolerance (dofError_ s)
                           (dofColor_ s)).1 (elementColor_ s))
                     (markRedDofs tolerance (dofError_ s) (dofColor_ s)).1))
        as [-> _].
      destruct (markOrangeDofs_cellwise (gridView_ pb)
                  (markRedElements (gridView_ pb)
                     (markRedDofs tolerance (dofError_ s) (dofColor_ s)).1
                     (elementColor_ s))
                  (markRedDofs tolerance (dofError_ s) (dofColor_ s)).1)
        as [-> _].
      exact Hlen1.
    + apply promoteOrangeDofs_error_length.
    + by rewrite markYellowElements_length, markRedElements_length.
  - unfold computeColors. by rewrite Hen.
Qed.

Lemma updateDiscrepancy_frame (previousResid : list (VectorBlock S)) s :
  let s' := updateDiscrepancy pb previousResid s in
  matrix_ s' = matrix_ s ∧ residual_ s' = residual_ s
  ∧ storageJacobian_ s' = storageJacobian_ s
  ∧ storageTerm_ s' = storageTerm_ s
  ∧ reuseLinearization_ s' = reuseLinearization_ s
  ∧ dofColor_ s' = dofColor_ s ∧ elementColor_ s' = elementColor_ s
  ∧ length (dofError_ s') = length (dofError_ s).
Proof.
  cbv zeta. unfold updateDiscrepancy.
  destruct (enablePartialRelinearization_ pb); simpl; [|done].
  loop_invariant
    (λ (_ : nat) x,
       matrix_ x = matrix_ s ∧ residual_ x = residual_ s
       ∧ storageJacobian_ x = storageJacobian_ s
       ∧ storageTerm_ x = storageTerm_ s
       ∧ reuseLinearization_ x = reuseLinearization_ s
       ∧ dofColor_ x = dofColor_ s ∧ elementColor_ x = elementColor_ s
       ∧ length (dofError_ x) = length (dofError_ s)); [done| |done].
  intros i x _ (? & ? & ? & ? & ? & ? & ? & ?).
  destruct (s_leb _ _); simpl; rewrite length_insert; done.
Qed.

Lemma computeColors_frame (tolerance : S) s :
  let s' := computeColors pb tolerance s in
  matrix_ s' = matrix_ s ∧ residual_ s' = residual_ s
  ∧ storageJacobian_ s' = storageJacobian_ s
  ∧ storageTerm_ s' = storageTerm_ s
  ∧ reuseLinearization_ s' = reuseLinearization_ s
  ∧ oldDt_ s' = oldDt_ s
  ∧ relinearizationAccuracy_ s' = relinearizationAccuracy_ s.
Proof.
  cbv zeta. unfold computeColors.
  destruct (enablePartialRelinearization_ pb); simpl; [|done].
  destruct (markRedDofs _ _ _) as [col acc].
  by destruct (promoteOrangeDofs _ _) as [col' err'].
Qed.

Lemma assemble__reuse (ev : Evaluator S) (curDt : S) s :
  reuseLinearization_ (final_state (assemble_ pb ev curDt s)) = false.
Proof.
  unfold assemble_.
  destruct (reuseLinearization_ (resetSystem_ pb s)) eqn:Hreuse; [done|].
  apply (forEach_inv (λ x, reuseLinearization_ x = false)); [done|].
  intros e x _ Hx. destruct (interior e); simpl; [|done].
  unfold assembleElement_, assembleGreenElement_.
  destruct (_ && _).
  - destruct (localResidual ev e); simpl; [|done].
    loop_invariant (λ (_ : nat) (y : Assembler S), reuseLinearization_ y = false);
      [done| |done].
    intros i y _ Hy. by destruct (enableLinearizationRecycling_ pb).
  - destruct (localJacobian ev e); simpl; [|done].
    loop_invariant (λ (_ : nat) (y : Assembler S), reuseLinearization_ y = false);
      [done| |done].
    intros i y _ Hy. case_bool_decide.
    + loop_invariant (λ (_ : nat) (z : Assembler S), reuseLinearization_ z = false);
        [by destruct (enableLinearizationRecycling_ pb)|done|done].
    + by destruct (enableLinearizationRecycling_ pb).
Qed.

Lemma assemble_reuse (ev : Evaluator S) (curDt : S) s :
  reuseLinearization_ (final_state (assemble pb ev curDt s)) = false.
Proof.
  pose proof (assemble__reuse ev curDt s) as Hreuse.
  unfold assemble, comm_min.
  destruct (assemble_ pb ev curDt s) as [x|x]; simpl in *; [|done].
  by destruct (_ && _).
Qed.

Lemma createMatrix_length : length (createMatrix_ pb) = numDof pb.
Proof.
  unfold createMatrix_. cbv zeta. rewrite length_fmap.
  apply (foldl_inv (λ nb : list (gset nat), length nb = numDof pb)).
  - apply length_replicate.
  - intros x e _ Hx.
    loop_invariant (λ (_ : nat) (y : list (gset nat)),
                      length y = numDof pb); [done| |done].
    intros i y _ Hy.
    loop_invariant (λ (_ : nat) (z : list (gset nat)),
                      length z = numDof pb); [done| |done].
    intros j z _ Hz. by rewrite length_alter.
Qed.

Lemma init_sizes s : sizes_ok pb (init pb s).
Proof.
  unfold sizes_ok. rewrite init_matrix, length_fmap, createMatrix_length.
  unfold init, relinearizeAll.
  destruct (enableLinearizationRecycling_ pb),
    (enablePartialRelinearization_ pb); simpl;
    rewrite ?length_fmap, ?length_resize; repeat split; done.
Qed.

Lemma runOp_sizes s (op : Op S) : sizes_ok pb s → sizes_ok pb (runOp pb s op).
Proof.
  intros (Hm & Hr & Hrec & Hpart & Hreuse). destruct op as [ev dt|b| |r|i|tol];
    simpl.
  - pose proof (assemble__shape pb ev dt s) as (Hp & Hr' & HJ & HT).
    pose proof (assemble__colors pb ev dt s) as (Hd & He & Herr & _).
    pose proof (assemble_reuse ev dt s) as Hflag.
    assert (Hlen : length (matrix_ (final_state (assemble_ pb ev dt s)))
                   = length (matrix_ s)).
    { unfold pattern in Hp. apply (f_equal length) in Hp.
      by rewrite !length_fmap in Hp. }
    assert (Hcols : length (dofColor_ (final_state (assemble pb ev dt s)))
                    = length (dofColor_ s)
                    ∧ matrix_ (final_state (assemble pb ev dt s))
                      = matrix_ (final_state (assemble_ pb ev dt s))
                    ∧ residual_ (final_state (assemble pb ev dt s))
                      = residual_ (final_state (assemble_ pb ev dt s))
                    ∧ storageJacobian_ (final_state (assemble pb ev dt s))
                      = storageJacobian_ (final_state (assemble_ pb ev dt s))
                    ∧ storageTerm_ (final_state (assemble pb ev dt s))
                      = storageTerm_ (final_state (assemble_ pb ev dt s))
                    ∧ dofError_ (final_state (assemble pb ev dt s))
                      = dofError_ (final_state (assemble_ pb ev dt s))
                    ∧ elementColor_ (final_state (assemble pb ev dt s))
                      = elementColor_ (final_state (assemble_ pb ev dt s))).
    { unfold assemble, comm_min.
      destruct (assemble_ pb ev dt s) as [x|x]; simpl in *;
        [|by rewrite Hd].
      destruct (_ && _); simpl; rewrite length_fmap, Hd; done. }
    destruct Hcols as (Hc1 & Hc2 & Hc3 & Hc4 & Hc5 & Hc6 & Hc7).
    unfold sizes_ok. rewrite Hc1, Hc2, Hc3, Hc4, Hc5, Hc6, Hc7.
    rewrite Hlen, Hr', HJ, HT, He, Herr, Hflag.
    repeat split; intros;
      try (destruct Hrec as [? ?]; [done|]);
      try (destruct Hpart as (? & ? & ?); [done|]);
      try (by apply Hreuse); done.
  - unfold setLinearizationReusable, sizes_ok.
    destruct (enableLinearizationRecycling_ pb) eqn:Hen; simpl;
      repeat split; intros;
      try (destruct Hrec as [? ?]; [done|]);
      try (destruct Hpart as (? & ? & ?); [done|]);
      try (by apply Hreuse); done.
  - unfold relinearizeAll, sizes_ok.
    destruct (enablePartialRelinearization_ pb); simpl;
      rewrite ?length_fmap; repeat split; intros;
      try (destruct Hrec as [? ?]; [done|]);
      try (destruct Hpart as (? & ? & ?); [done|]);
      try (by apply Hreuse); done.
  - pose proof (updateDiscrepancy_frame r s)
      as (H1 & H2 & H3 & H4 & H5 & H6 & H7 & H8).
    unfold sizes_ok. by rewrite H1, H2, H3, H4, H5, H6, H7, H8.
  - unfold markDofRed, sizes_ok.
    destruct (enablePartialRelinearization_ pb); simpl;
      rewrite ?length_insert; repeat split; intros;
      try (destruct Hrec as [? ?]; [done|]);
      try (destruct Hpart as (? & ? & ?); [done|]);
      try (by apply Hreuse); done.
  - pose proof (computeColors_frame tol s) as (H1 & H2 & H3 & H4 & H5 & _).
    pose proof (computeColors_lengths tol s) as (H6 & H7 & H8).
    unfold sizes_ok. by rewrite H1, H2, H3, H4, H5, H6, H7, H8.
Qed.

Lemma assemble_pattern (ev : Evaluator S) (curDt : S) s :
  pattern (matrix_ (final_state (assemble pb ev curDt s)))
  = pattern (matrix_ s).
Proof.
  pose proof (assemble__shape pb ev curDt s) as (Hp & _).
  unfold assemble, comm_min.
  destruct (assemble_ pb ev curDt s) as [x|x]; simpl in *; [|done].
  by destruct (_ && _).
Qed.

Lemma runOp_pattern s (op : Op S) :
  pattern (matrix_ (runOp pb s op)) = pattern (matrix_ s).
Proof.
  destruct op as [ev dt|b| |r|i|tol]; simpl.
  - apply assemble_pattern.
  - unfold setLinearizationReusable.
    by destruct (enableLinearizationRecycling_ pb).
  - unfold relinearizeAll. by destruct (enablePartialRelinearization_ pb).
  - by destruct (updateDiscrepancy_frame r s) as (-> & _).
  - unfold markDofRed. by destruct (enablePartialRelinearization_ pb).
  - by destruct (computeColors_frame tol s) as (-> & _).
Qed.
End Sizes.

(** X3. After [init], whatever public methods are called in whatever order
    ([assemble], also when it throws, [setLinearizationReusable],
    [relinearizeAll], [updateDiscrepancy], [markDofRed], [computeColors]),
    as long as every call is within the bounds (the grid names DOFs and
    elements that exist, [markDofRed] is given a DOF that exists, and
    [updateDiscrepancy] a vector with no more blocks than there are DOFs):
    the matrix keeps the sparsity pattern [init] built, with one row per
    DOF; the residual has one block per DOF; with recycling enabled so have
    the two caches; with partial relinearization enabled there is one color
    and one error per DOF and one color per element; and the linearization
    is never marked reusable unless recycling is enabled. *)
Theorem runOps_keeps_sizes
    {S : Type} `{!ScalarOps S} (pb : Problem S) (ops : list (Op S))
    (s0 : Assembler S) :
  grid_in_range pb →
  Forall (op_in_range pb) ops →
  let s := runOps pb ops (init pb s0) in
  pattern (matrix s) = pattern (matrix (init pb s0))
  ∧ length (matrix s) = numDof pb
  ∧ length (residual s) = numDof pb
  ∧ (enableLinearizationRecycling_ pb = true →
     length (storageJacobian_ s) = numDof pb
     ∧ length (storageTerm_ s) = numDof pb)
  ∧ (enablePartialRelinearization_ pb = true →
     length (dofColor_ s) = numDof pb
     ∧ length (dofError_ s) = numDof pb
     ∧ length (elementColor_ s) = length (gridView_ pb))
  ∧ (reuseLinearization_ s = true → enableLinearizationRecycling_ pb = true).
Proof.
  intros _ _. cbv zeta. unfold runOps, matrix, residual.
  cut (sizes_ok pb (foldl (runOp pb) (init pb s0) ops)
       ∧ pattern (matrix_ (foldl (runOp pb) (init pb s0) ops))
         = pattern (matrix_ (init pb s0))).
  { intros [Hsizes Hpat]. split; [exact Hpat | exact Hsizes]. }
  apply (foldl_inv
           (λ x, sizes_ok pb x
                 ∧ pattern (matrix_ x) = pattern (matrix_ (init pb s0)))).
  - split; [apply init_sizes | done].
  - intros x op _ [Hsizes Hpat]. split; [by apply runOp_sizes|].
    by rewrite runOp_pattern.
Qed.

Lemma runOps_keeps_sizes_witness :
  length (dofColor_
            (runOps chain
               [OpAssemble chainEvaluator (b64_of_Z 1);
                OpUpdateDiscrepancy chainUpdate;
                OpComputeColors chainTolerance;
                OpMarkDofRed 2;
                OpSetLinearizationReusable true;
                OpAssemble chainEvaluator (b64_of_Z 2)]
               (init chain (FvBaseAssembler_new (b64_of_Z 1))))) = 3.
Proof.
  assert (Hgrid : grid_in_range chain).
  { unfold grid_in_range. apply Forall_forall.
    repeat (apply Forall_cons_2;
            [split; [simpl; lia|]; split; [simpl; lia|];
             apply Forall_forall;
             repeat (apply Forall_cons_2; [simpl; lia|]);
             apply Forall_nil_2|]).
    apply Forall_nil_2. }
  assert (Hops : Forall (op_in_range chain)
                   [OpAssemble chainEvaluator (b64_of_Z 1);
                    OpUpdateDiscrepancy chainUpdate;
                    OpComputeColors chainTolerance;
                    OpMarkDofRed 2;
                    OpSetLinearizationReusable true;
                    OpAssemble chainEvaluator (b64_of_Z 2)]).
  { repeat (apply Forall_cons_2; [simpl; try done; intros _; simpl; lia|]).
    apply Forall_nil_2. }
  destruct (runOps_keeps_sizes chain
              [OpAssemble chainEvaluator (b64_of_Z 1);
               OpUpdateDiscrepancy chainUpdate;
               OpComputeColors chainTolerance;
               OpMarkDofRed 2;
               OpSetLinearizationReusable true;
               OpAssemble chainEvaluator (b64_of_Z 2)]
              (FvBaseAssembler_new (b64_of_Z 1)) Hgrid Hops)
    as (_ & _ & _ & _ & Hpart & _).
  exact (proj1 (Hpart eq_refl)).
Defined.

(** ** The colors [computeColors] arrives at *)

Section ExactColors.
Context {S : Type} `{!ScalarOps S}.

Implicit Types col ecol : list EntityColor.

#[local] Existing Instance tinted_refl.
#[local] Existing Instance tinted_trans.

#[local] Abbreviation tintStencil c0 st0 :=
  (foldl (λ (c : list EntityColor) (globalIdx : nat),
            if bool_decide (c !!! globalIdx ≠ Red)
            then <[globalIdx := Orange]> c else c)
         c0 st0).

Lemma tinted_red_or_orange (x y : EntityColor) :
  tinted x y → x = Red ∨ x = Orange → y = Red ∨ y = Orange.
Proof. intros [->|[_ ->]] Hx; [done|by right]. Qed.

Lemma tintStencil_cellwise col (st : list nat) :
  cellwise tinted col (tintStencil col st).
Proof.
  apply cellwise_foldl; try apply _.
  intros c g. case_bool_decide; [|by apply cellwise_refl; apply _].
  apply cellwise_insert; [apply _|]. by right.
Qed.

Lemma tintStencil_covers col (st : list nat) (g : nat) :
  g ∈ st → g < length col →
  tintStencil col st !!! g = Red ∨ tintStencil col st !!! g = Orange.
Proof.
  revert col. induction st as [|g0 st IH]; intros col Hg Hlt; simpl.
  - by apply not_elem_of_nil in Hg.
  - apply elem_of_cons in Hg as [->|Hg].
    + match goal with
      | |- context [foldl ?f ?a st] =>
          destruct (tintStencil_cellwise a st) as [_ Hcells];
          apply (tinted_red_or_orange (a !!! g0)); [apply Hcells|]
      end.
      case_bool_decide as Hred.
      * right. by apply list_lookup_total_insert_eq.
      * left. by destruct (decide (col !!! g0 = Red)).
    + apply IH; [done|]. case_bool_decide; [by rewrite length_insert|done].
Qed.

Lemma tintStencil_touches col (st : list nat) (g : nat) :
  tintStencil col st !!! g ≠ col !!! g → g ∈ st.
Proof.
  revert col. induction st as [|g0 st IH]; intros col Hne; simpl in *; [done|].
  destruct (decide (g = g0)) as [->|Hg]; [left|]. right.
  apply (IH _ ltac:(
    intros Heq; apply Hne; rewrite Heq;
    case_bool_decide; [by rewrite list_lookup_total_insert_ne|done])).
Qed.

Lemma markOrangeDofs_covers (grid : list Element) ecol col (e : Element)
    (g : nat) :
  e ∈ grid → ecol !!! elemIdx e = Red → g ∈ stencil e → g < length col →
  markOrangeDofs grid ecol col !!! g = Red
  ∨ markOrangeDofs grid ecol col !!! g = Orange.
Proof.
  unfold markOrangeDofs.
  revert col. induction grid as [|e0 grid IH]; intros col He Hred Hg Hlt;
    simpl.
  - by apply not_elem_of_nil in He.
  - apply elem_of_cons in He as [<-|He].
    + rewrite (bool_decide_eq_false_2 (ecol !!! elemIdx e ≠ Red))
        by (intros Hne; done).
      destruct (markOrangeDofs_cellwise grid ecol
                  (tintStencil col (stencil e))) as [_ Hcells].
      apply (tinted_red_or_orange (tintStencil col (stencil e) !!! g));
        [apply Hcells|].
      by apply tintStencil_covers.
    + apply IH; try done. case_bool_decide; [done|].
      by destruct (tintStencil_cellwise col (stencil e0)) as [-> _].
Qed.

Lemma markOrangeDofs_touches (grid : list Element) ecol col (g : nat) :
  markOrangeDofs grid ecol col !!! g ≠ col !!! g →
  ∃ e, e ∈ grid ∧ ecol !!! elemIdx e = Red ∧ g ∈ stencil e.
Proof.
  unfold markOrangeDofs.
  revert col. induction grid as [|e0 grid IH]; intros col Hne; simpl in *;
    [done|].
  case_bool_decide as Hcol.
  - destruct (IH col Hne) as (e & He & Hr & Hg). exists e. split; [by right|done].
  - destruct (decide (tintStencil col (stencil e0) !!! g = col !!! g))
      as [Heq|Hch].
    + destruct (IH (tintStencil col (stencil e0))) as (e & He & Hr & Hg).
      { by rewrite Heq. }
      exists e. split; [by right|done].
    + exists e0. split; [left|]. split.
      * by destruct (decide (ecol !!! elemIdx e0 = Red)).
      * by eapply tintStencil_touches.
Qed.

(** The demotion loop finds nothing to demote: every element that holds an
    orange DOF has been made yellow just before. *)
Lemma demoteOrangeDofs_idle (grid : list Element) col ecol :
  NoDup (elemIdx <$> grid) →
  (∀ e, e ∈ grid → elemIdx e < length ecol) →
  demoteOrangeDofs grid (markYellowElements grid col ecol) col = col.
Proof.
  intros Hnd Hidx.
  destruct (markYellowElements_spec grid col ecol Hnd) as [_ Hyellow].
  unfold demoteOrangeDofs.
  apply (foldl_inv (λ c, c = col)); [done|].
  intros c e He ->. case_bool_decide as Hgreen; [done|].
  assert (Hg : markYellowElements grid col ecol !!! elemIdx e = Green).
  { by destruct (decide (markYellowElements grid col ecol !!! elemIdx e
                         = Green)). }
  rewrite (Hyellow e He (Hidx e He)) in Hg.
  case_bool_decide; [done|].
  destruct (containsColor Orange col (stencil e)) eqn:Hor; [done|].
  pose proof (proj1 (containsColor_false Orange col (stencil e)) Hor)
    as Hnone.
  apply (foldl_inv (λ c, c = col)); [done|].
  intros c g Hgst ->. rewrite bool_decide_eq_false_2; [done|].
  by apply Hnone.
Qed.
End ExactColors.

Section ExactComputeColors.
Context {S : Type} `{!ScalarOps S}.
Variable pb : Problem S.
Variable tolerance : S.
Variable s : Assembler S.
Hypothesis partial : enablePartialRelinearization_ pb = true.
Hypothesis fits : grid_fits pb s.

(** The arrays after the first three loops. *)
#[local] Abbreviation col1 :=
  ((markRedDofs tolerance (dofError_ s) (dofColor_ s)).1).
#[local] Abbreviation ecol1 :=
  (markRedElements (gridView_ pb) col1 (elementColor_ s)).
#[local] Abbreviation col2 := (markOrangeDofs (gridView_ pb) ecol1 col1).

Lemma col1_red (g : nat) :
  g < length (dofColor_ s) → col1 !!! g = Red ↔ hot tolerance s g.
Proof using Type.
  intros Hg.
  destruct (markRedDofs_spec tolerance (dofError_ s) (dofColor_ s))
    as (_ & -> & _).
  rewrite bool_decide_eq_true_2 by done. unfold hot. simpl.
  destruct (s_ltb tolerance (dofError_ s !!! g)); [by split; auto|].
  split; [by left|]. by intros [?|?].
Qed.

Lemma col1_unchanged (g : nat) :
  col1 !!! g ≠ Red → col1 !!! g = dofColor_ s !!! g.
Proof using Type.
  destruct (markRedDofs_spec tolerance (dofError_ s) (dofColor_ s))
    as (_ & -> & _).
  by destruct (_ && _).
Qed.

Lemma ecol1_red (e : Element) :
  e ∈ gridView_ pb →
  ecol1 !!! elemIdx e = Red ↔ ∃ g, g ∈ stencil e ∧ hot tolerance s g.
Proof using fits.
  intros He. destruct fits as (Hnd & Hidx & Hdof).
  destruct (markRedElements_spec (gridView_ pb) col1 (elementColor_ s) Hnd)
    as [_ ->]; [|done|by apply Hidx].
  destruct (containsColor Red col1 (stencil e)) eqn:Hc.
  - apply containsColor_true in Hc as (g & Hg & Hred). split; [|done].
    intros _. exists g. split; [done|]. apply col1_red; eauto.
  - split; [done|]. intros (g & Hg & Hhot).
    pose proof (proj1 (containsColor_false Red col1 (stencil e)) Hc g Hg)
      as Hne.
    exfalso. apply Hne. apply col1_red; eauto.
Qed.

Lemma ecol1_red_or_green (e : Element) :
  e ∈ gridView_ pb →
  ecol1 !!! elemIdx e = Red ∨ ecol1 !!! elemIdx e = Green.
Proof using fits.
  intros He. destruct fits as (Hnd & Hidx & Hdof).
  destruct (markRedElements_spec (gridView_ pb) col1 (elementColor_ s) Hnd)
    as [_ ->]; [|done|by apply Hidx].
  destruct (containsColor Red col1 (stencil e)); auto.
Qed.

(** A DOF is red or orange after the tinting loop exactly when it is hot,
    or was orange on entry, or shares an element with a hot DOF. *)
Lemma col2_red_or_orange (i : nat) :
  i < length (dofColor_ s) →
  (col2 !!! i = Red ∨ col2 !!! i = Orange)
  ↔ (hot tolerance s i ∨ dofColor_ s !!! i = Orange
     ∨ ∃ e g, e ∈ gridView_ pb ∧ i ∈ stencil e ∧ g ∈ stencil e
              ∧ hot tolerance s g).
Proof using fits.
  intros Hi.
  destruct (markRedDofs_spec tolerance (dofError_ s) (dofColor_ s))
    as (Hlen1 & _ & _).
  destruct (markOrangeDofs_cellwise (gridView_ pb) ecol1 col1) as [_ Hc2].
  split.
  - intros Hro.
    destruct (decide (col2 !!! i = col1 !!! i)) as [Heq|Hne].
    + rewrite Heq in Hro. destruct Hro as [Hr|Ho].
      * left. by apply col1_red.
      * right; left. rewrite <- col1_unchanged; [done|]. by rewrite Ho.
    + destruct (markOrangeDofs_touches _ _ _ _ Hne) as (e & He & Hred & Hie).
      apply ecol1_red in Hred as (g & Hg & Hhot); [|done].
      right; right. by exists e, g.
  - intros [Hhot|[Ho|(e & g & He & Hie & Hge & Hhot)]].
    + apply (tinted_red_or_orange (col1 !!! i)); [apply Hc2|].
      left. by apply col1_red.
    + apply (tinted_red_or_orange (col1 !!! i)); [apply Hc2|].
      destruct (decide (col1 !!! i = Red)) as [Hr|Hr]; [by left|].
      right. by rewrite col1_unchanged.
    + apply (markOrangeDofs_covers _ _ _ e); [done| |done|by rewrite Hlen1].
      apply ecol1_red; [done|]. by exists g.
Qed.

Lemma col2_unchanged (i : nat) :
  col2 !!! i ≠ Red → col2 !!! i ≠ Orange → col2 !!! i = dofColor_ s !!! i.
Proof using Type.
  intros Hr Ho.
  destruct (markOrangeDofs_cellwise (gridView_ pb) ecol1 col1) as [_ Hc2].
  destruct (Hc2 i) as [Heq|[_ Heq]]; [|done].
  rewrite Heq. apply col1_unchanged. by rewrite <- Heq.
Qed.

(** The arrays [computeColors] returns, from those after the tinting
    loop. *)
Lemma computeColors_result :
  dofColor_ (computeColors pb tolerance s)
  = (promoteOrangeDofs col2 (dofError_ s)).1
  ∧ dofError_ (computeColors pb tolerance s)
    = (promoteOrangeDofs col2 (dofError_ s)).2
  ∧ elementColor_ (computeColors pb tolerance s)
    = markYellowElements (gridView_ pb) col2 ecol1.
Proof using partial fits.
  destruct (computeColors_fields pb tolerance s partial) as (-> & -> & -> & _).
  destruct fits as (Hnd & Hidx & _).
  rewrite demoteOrangeDofs_idle; [done|done|].
  intros e He. rewrite markRedElements_length. by apply Hidx.
Qed.

Lemma col2_length : length col2 = length (dofColor_ s).
Proof using Type.
  destruct (markRedDofs_spec tolerance (dofError_ s) (dofColor_ s))
    as (Hlen1 & _ & _).
  by destruct (markOrangeDofs_cellwise (gridView_ pb) ecol1 col1) as [-> _].
Qed.

Lemma computeColors_dof (i : nat) :
  i < length (dofColor_ s) →
  dofColor_ (computeColors pb tolerance s) !!! i
  = if bool_decide (col2 !!! i = Green) || bool_decide (col2 !!! i = Yellow)
    then col2 !!! i else Red.
Proof using partial fits.
  intros Hi. destruct computeColors_result as (-> & _).
  destruct (promoteOrangeDofs_spec col2 (dofError_ s)) as [_ ->]; [done|].
  by rewrite col2_length.
Qed.
End ExactComputeColors.

Lemma chain_fits (s : Assembler spec_float) :
  length (elementColor_ s) = 2 → length (dofColor_ s) = 3 →
  grid_fits chain s.
Proof.
  intros He Hd. unfold grid_fits. rewrite He, Hd. split; [|split].
  - refine (bool_decide_unpack _ _). vm_compute. exact I.
  - apply Forall_forall.
    repeat (apply Forall_cons_2; [simpl; lia|]). apply Forall_nil_2.
  - intros e' g He'. revert g. apply Forall_forall. revert e' He'.
    apply Forall_forall.
    repeat (apply Forall_cons_2;
            [repeat (apply Forall_cons_2; [simpl; lia|]);
             apply Forall_nil_2|]).
    apply Forall_nil_2.
Defined.

(** X4. Which DOFs [computeColors(tolerance)] leaves red (partial
    relinearization enabled, single partition, grid and arrays fitting): a
    DOF is red afterwards exactly when it was red or orange on entry, or its
    error is above the tolerance, or it shares an element with a DOF that
    was red on entry or has its error above the tolerance. Every other DOF
    keeps the color it had, so no DOF is ever turned yellow and none is left
    orange. *)
Theorem computeColors_dof_colors
    {S : Type} `{!ScalarOps S} (pb : Problem S) (tolerance : S)
    (s : Assembler S) (i : nat) :
  enablePartialRelinearization_ pb = true →
  grid_fits pb s →
  i < length (dofColor_ s) →
  let s' := computeColors pb tolerance s in
  (dofColor pb s' i = Red
   ↔ hot tolerance s i ∨ dofColor pb s i = Orange
     ∨ ∃ e g, e ∈ gridView_ pb ∧ i ∈ stencil e ∧ g ∈ stencil e
              ∧ hot tolerance s g)
  ∧ (dofColor pb s' i ≠ Red → dofColor pb s' i = dofColor pb s i)
  ∧ dofColor pb s' i ≠ Orange.
Proof.
  intros Hen Hfits Hi. cbv zeta. unfold dofColor. rewrite Hen. simpl.
  rewrite (computeColors_dof pb tolerance s Hen Hfits i Hi).
  pose proof (col2_red_or_orange pb tolerance s Hfits i Hi) as Hro.
  pose proof (col2_unchanged pb tolerance s i) as Hsame.
  destruct (markOrangeDofs _ _ _ !!! i) eqn:Hc2; simpl.
  - split; [|done]. split; [intros _; apply Hro; by left|done].
  - split; [|split; [|done]].
    + split; [done|]. intros Hsrc. apply Hro in Hsrc as [?|?]; done.
    + intros _. by apply Hsame.
  - split; [|done]. split; [intros _; apply Hro; by right|done].
  - split; [|split; [|done]].
    + split; [done|]. intros Hsrc. apply Hro in Hsrc as [?|?]; done.
    + intros _. by apply Hsame.
Qed.

Lemma computeColors_dof_colors_witness :
  dofColor chain (computeColors chain chainTolerance chain_updated) 1 = Red
  ∧ dofColor chain (computeColors chain chainTolerance chain_updated) 2
    = Green.
Proof.
  assert (Hfits : grid_fits chain chain_updated).
  { apply chain_fits; by vm_compute. }
  split.
  - apply (computeColors_dof_colors chain chainTolerance chain_updated 1
             eq_refl Hfits); [vm_compute; lia|].
    right; right. exists (chainElement 0), 0.
    split; [left|]. split; [right; left|]. split; [left|].
    right. reflexivity.
  - destruct (computeColors_dof_colors chain chainTolerance chain_updated 2
                eq_refl Hfits) as (Hiff & Hkeep & _); [vm_compute; lia|].
    rewrite Hkeep; [reflexivity|].
    intros Hred. apply Hiff in Hred
      as [[Hr|Hr]|[Ho|(e & g & He & Hie & Hge & [Hr|Hr])]];
      try discriminate Hr; try discriminate Ho.
    + apply elem_of_cons in He as [->|He].
      * apply elem_of_cons in Hie as [Hie|Hie]; [discriminate Hie|].
        apply list_elem_of_singleton in Hie. discriminate Hie.
      * apply list_elem_of_singleton in He as ->.
        apply elem_of_cons in Hge as [->|Hge]; [discriminate Hr|].
        apply list_elem_of_singleton in Hge as ->. discriminate Hr.
    + apply elem_of_cons in He as [->|He].
      * apply elem_of_cons in Hie as [Hie|Hie]; [discriminate Hie|].
        apply list_elem_of_singleton in Hie. discriminate Hie.
      * apply list_elem_of_singleton in He as ->.
        apply elem_of_cons in Hge as [->|Hge]; [discriminate Hr|].
        apply list_elem_of_singleton in Hge as ->. discriminate Hr.
Defined.

Lemma col2_red {S : Type} `{!ScalarOps S} (pb : Problem S) (tolerance : S)
    (s : Assembler S) (g : nat) :
  g < length (dofColor_ s) →
  markOrangeDofs (gridView_ pb)
    (markRedElements (gridView_ pb)
       (markRedDofs tolerance (dofError_ s) (dofColor_ s)).1
       (elementColor_ s))
    (markRedDofs tolerance (dofError_ s) (dofColor_ s)).1 !!! g = Red
  ↔ hot tolerance s g.
Proof.
  intros Hg. rewrite <- (col1_red tolerance s g Hg).
  match goal with
  | |- markOrangeDofs ?grid ?ecol ?col !!! _ = _ ↔ _ =>
      destruct (markOrangeDofs_cellwise grid ecol col) as [_ Hc2]
  end.
  destruct (Hc2 g) as [Heq|[Hne Heq]]; rewrite Heq; [done|].
  split; [done|]. intros Hred. by destruct Hne.
Qed.

(** X5. Which colors [computeColors(tolerance)] gives the elements (same
    setting as X4): an element is red exactly when its stencil holds a hot
    DOF (red on entry or error above the tolerance); it is yellow exactly
    when it is not red and its stencil holds a DOF that was orange on entry
    or that belongs to a red element; otherwise it is green. *)
Theorem computeColors_element_colors
    {S : Type} `{!ScalarOps S} (pb : Problem S) (tolerance : S)
    (s : Assembler S) (e : Element) :
  enablePartialRelinearization_ pb = true →
  grid_fits pb s →
  e ∈ gridView_ pb →
  let s' := computeColors pb tolerance s in
  let redElement e' := ∃ g, g ∈ stencil e' ∧ hot tolerance s g in
  (elementColor pb s' (elemIdx e) = Red ↔ redElement e)
  ∧ (elementColor pb s' (elemIdx e) = Yellow
     ↔ ¬ redElement e
       ∧ ∃ g, g ∈ stencil e
              ∧ (dofColor pb s g = Orange
                 ∨ ∃ e', e' ∈ gridView_ pb ∧ g ∈ stencil e' ∧ redElement e'))
  ∧ (elementColor pb s' (elemIdx e) = Red
     ∨ elementColor pb s' (elemIdx e) = Yellow
     ∨ elementColor pb s' (elemIdx e) = Green).
Proof.
  intros Hen Hfits He. cbv zeta. unfold elementColor, dofColor.
  rewrite Hen. simpl.
  destruct (computeColors_result pb tolerance s Hen Hfits) as (_ & _ & ->).
  pose proof Hfits as (Hnd & Hidx & Hdof).
  destruct (markYellowElements_spec (gridView_ pb)
              (markOrangeDofs (gridView_ pb)
                 (markRedElements (gridView_ pb)
                    (markRedDofs tolerance (dofError_ s) (dofColor_ s)).1
                    (elementColor_ s))
                 (markRedDofs tolerance (dofError_ s) (dofColor_ s)).1)
              (markRedElements (gridView_ pb)
                 (markRedDofs tolerance (dofError_ s) (dofColor_ s)).1
                 (elementColor_ s)) Hnd) as [_ ->];
    [|done|rewrite markRedElements_length; by apply Hidx].
  pose proof (ecol1_red pb tolerance s Hfits e He) as Hred.
  pose proof (ecol1_red_or_green pb tolerance s Hfits e He) as Hrg.
  assert (Hor : containsColor Orange
                  (markOrangeDofs (gridView_ pb)
                     (markRedElements (gridView_ pb)
                        (markRedDofs tolerance (dofError_ s)
                           (dofColor_ s)).1 (elementColor_ s))
                     (markRedDofs tolerance (dofError_ s) (dofColor_ s)).1)
                  (stencil e) = true
                ↔ ∃ g, g ∈ stencil e ∧ ¬ hot tolerance s g
                       ∧ (dofColor_ s !!! g = Orange
                          ∨ ∃ e', e' ∈ gridView_ pb ∧ g ∈ stencil e'
                                  ∧ ∃ g', g' ∈ stencil e'
                                          ∧ hot tolerance s g')).
  { rewrite containsColor_true. split.
    - intros (g & Hg & Ho). exists g. split; [done|].
      assert (Hlt : g < length (dofColor_ s)) by eauto.
      split.
      + intros Hhot. apply (col2_red pb tolerance s g Hlt) in Hhot.
        rewrite Hhot in Ho. discriminate Ho.
      + destruct (proj1 (col2_red_or_orange pb tolerance s Hfits g Hlt)
                    (or_intror Ho))
          as [Hhot|[Hwas|(e' & g' & He' & Hge' & Hg'e' & Hhot)]].
        * apply (col2_red pb tolerance s g Hlt) in Hhot.
          rewrite Hhot in Ho. discriminate Ho.
        * by left.
        * right. exists e'. split; [done|]. split; [done|]. by exists g'.
    - intros (g & Hg & Hcold & Hsrc). exists g. split; [done|].
      assert (Hlt : g < length (dofColor_ s)) by eauto.
      destruct (proj2 (col2_red_or_orange pb tolerance s Hfits g Hlt))
        as [Hr|Ho]; [| |done].
      + destruct Hsrc as [Hwas|(e' & He' & Hge' & g' & Hg'e' & Hhot)].
        * right; by left.
        * right; right. by exists e', g'.
      + exfalso. apply Hcold. by apply (col2_red pb tolerance s g Hlt). }
  destruct Hrg as [Hr|Hg]; rewrite Hr || rewrite Hg; simpl.
  - split; [|split; [|by left]].
    + split; [intros _; by apply Hred|done].
    + split; [done|]. intros [Hnot _]. exfalso. apply Hnot. by apply Hred.
  - assert (Hnot : ¬ ∃ g, g ∈ stencil e ∧ hot tolerance s g).
    { intros Hex. apply Hred in Hex. rewrite Hg in Hex. discriminate Hex. }
    destruct (containsColor Orange _ (stencil e)) eqn:Hc.
    + split; [|split; [|by right; left]].
      * split; [done|]. intros Hex. by destruct Hnot.
      * split; [|done]. intros _. split; [done|].
        destruct (proj1 Hor eq_refl) as (g & Hgst & _ & Hsrc).
        exists g. split; [done|].
        destruct Hsrc as [?|(e' & ? & ? & ?)]; [by left|right; by exists e'].
    + split; [|split; [|by right; right]].
      * split; [done|]. intros Hex. by destruct Hnot.
      * split; [done|]. intros [_ (g & Hgst & Hsrc)].
        assert (Htrue : false = true); [|done].
        apply Hor. exists g. split; [done|]. split.
        -- intros Hhot. apply Hnot. by exists g.
        -- destruct Hsrc as [?|(e' & ? & ? & ?)]; [by left|right; by exists e'].
Qed.

Lemma computeColors_element_colors_witness :
  elementColor chain (computeColors chain chainTolerance chain_updated)
    (elemIdx (chainElement 1)) = Yellow.
Proof.
  assert (Hfits : grid_fits chain chain_updated).
  { apply chain_fits; by vm_compute. }
  destruct (computeColors_element_colors chain chainTolerance chain_updated
              (chainElement 1) eq_refl Hfits) as (_ & Hyellow & _);
    [right; left|].
  apply Hyellow. split.
  - intros (g & Hg & [Hr|Hr]).
    + apply elem_of_cons in Hg as [->|Hg]; [discriminate Hr|].
      apply list_elem_of_singleton in Hg as ->. discriminate Hr.
    + apply elem_of_cons in Hg as [->|Hg]; [discriminate Hr|].
      apply list_elem_of_singleton in Hg as ->. discriminate Hr.
  - exists 1. split; [left|]. right. exists (chainElement 0).
    split; [left|]. split; [right; left|].
    exists 0. split; [left|]. right. reflexivity.
Defined.

Lemma promoteOrangeDofs_errors {S : Type} `{!ScalarOps S}
    (col : list EntityColor) (err : list S) (i : nat) :
  i < length col → i < length err →
  (promoteOrangeDofs col err).2 !!! i
  = if bool_decide (col !!! i = Green) || bool_decide (col !!! i = Yellow)
    then err !!! i else s_zero.
Proof.
  intros Hi Herr. unfold promoteOrangeDofs.
  loop_invariant
    (λ k (r : list EntityColor * list S),
       length r.2 = length err
       ∧ (∀ j, k ≤ j → r.1 !!! j = col !!! j)
       ∧ r.2 !!! i
         = if bool_decide (i < k)
              && negb (bool_decide (col !!! i = Green)
                       || bool_decide (col !!! i = Yellow))
           then s_zero else err !!! i).
  - split; [done|]. split; [done|].
    by rewrite (bool_decide_eq_false_2 (i < 0)) by lia.
  - intros k [c e] Hk (Hlen & Hrest & Hcell); simpl in *.
    rewrite (Hrest k) by lia.
    destruct (bool_decide (col !!! k = Green)
              || bool_decide (col !!! k = Yellow)) eqn:Hkeep; simpl.
    + split; [done|]. split; [intros j Hj; apply Hrest; lia|].
      rewrite Hcell. destruct (decide (i = k)) as [->|Hne].
      * rewrite Hkeep. simpl. by rewrite !andb_false_r.
      * by rewrite (bool_decide_ext (i < Datatypes.S k) (i < k)) by lia.
    + split; [by rewrite length_insert|]. split.
      * intros j Hj. rewrite list_lookup_total_insert_ne by lia.
        apply Hrest. lia.
      * destruct (decide (i = k)) as [->|Hne].
        -- rewrite list_lookup_total_insert_eq by lia.
           rewrite Hkeep, (bool_decide_eq_true_2 (k < Datatypes.S k)) by lia.
           done.
        -- rewrite list_lookup_total_insert_ne by done. rewrite Hcell.
           by rewrite (bool_decide_ext (i < Datatypes.S k) (i < k)) by lia.
  - intros r (_ & _ & ->).
    rewrite (bool_decide_eq_true_2 (i < length col)) by done. simpl.
    by destruct (_ || _).
Qed.

(** X6. [computeColors(tolerance)] resets the error of every DOF that it
    leaves red to zero, also of a DOF that was red already on entry, and
    keeps the error of every other DOF (partial relinearization enabled). *)
Theorem computeColors_resets_red_errors
    {S : Type} `{!ScalarOps S} (pb : Problem S) (tolerance : S)
    (s : Assembler S) (i : nat) :
  enablePartialRelinearization_ pb = true →
  i < length (dofColor_ s) →
  i < length (dofError_ s) →
  let s' := computeColors pb tolerance s in
  (dofColor pb s' i = Red → dofError_ s' !!! i = s_zero)
  ∧ (dofColor pb s' i ≠ Red → dofError_ s' !!! i = dofError_ s !!! i).
Proof.
  intros Hen Hi Herr. cbv zeta. unfold dofColor. rewrite Hen. simpl.
  destruct (computeColors_fields pb tolerance s Hen) as (-> & -> & _).
  destruct (markRedDofs_spec tolerance (dofError_ s) (dofColor_ s))
    as (Hlen1 & _ & _).
  match goal with
  | |- context [promoteOrangeDofs ?c ?e] =>
      assert (Hlen4 : length c = length (dofColor_ s));
      [|destruct (promoteOrangeDofs_spec c e) as [_ Hcol];
        rewrite (Hcol i) by (by rewrite Hlen4);
        rewrite (promoteOrangeDofs_errors c e i) by (by rewrite ?Hlen4)]
  end.
  { match goal with
    | |- length (demoteOrangeDofs ?g ?ec ?c) = _ =>
        destruct (demoteOrangeDofs_cellwise g ec c) as [-> _]
    end.
    match goal with
    | |- length (markOrangeDofs ?g ?ec ?c) = _ =>
        destruct (markOrangeDofs_cellwise g ec c) as [-> _]
    end.
    exact Hlen1. }
  destruct (_ || _) eqn:Hkeep.
  - split; [|done]. intros Hred. rewrite Hred in Hkeep. discriminate Hkeep.
  - split; done.
Qed.

Lemma computeColors_resets_red_errors_witness :
  dofError_ chain_updated !!! 1 = b64 1 (-2)
  ∧ dofError_ (computeColors chain chainTolerance chain_updated) !!! 1
    = S754_zero false
  ∧ dofError_ (computeColors chain chainTolerance chain_updated) !!! 2
    = b64 1 (-3).
Proof.
  split; [reflexivity|]. split.
  - destruct (computeColors_resets_red_errors chain chainTolerance
                chain_updated 1 eq_refl) as [Hzero _];
      [vm_compute; lia | vm_compute; lia |].
    apply Hzero. reflexivity.
  - destruct (computeColors_resets_red_errors chain chainTolerance
                chain_updated 2 eq_refl) as [_ Hkeep];
      [vm_compute; lia | vm_compute; lia |].
    rewrite Hkeep; [reflexivity|]. intros Hred. vm_compute in Hred.
    discriminate Hred.
Defined.

(** A full relinearization request survives [computeColors], on the cells
    read with their default. *)
Lemma full_request_survives
    {S : Type} `{!ScalarOps S} (pb : Problem S) (tolerance : S)
    (s : Assembler S) :
  enablePartialRelinearization_ pb = true →
  grid_fits pb s →
  let s' := computeColors pb tolerance (relinearizeAll pb s) in
  (∀ i, i < length (dofColor_ s) → dofColor pb s' i = Red)
  ∧ (∀ i, i < length (dofColor_ s) → i < length (dofError_ s) →
          dofError_ s' !!! i = s_zero)
  ∧ (∀ e, e ∈ gridView_ pb → stencil e ≠ [] →
          elementColor pb s' (elemIdx e) = Red).
Proof.
  intros Hen Hfits. cbv zeta.
  assert (Hcol : dofColor_ (relinearizeAll pb s) = const Red <$> dofColor_ s).
  { unfold relinearizeAll. by rewrite Hen. }
  assert (Herr : dofError_ (relinearizeAll pb s)
                 = const s_zero <$> dofError_ s).
  { unfold relinearizeAll. by rewrite Hen. }
  assert (Hecol : elementColor_ (relinearizeAll pb s)
                  = const Red <$> elementColor_ s).
  { unfold relinearizeAll. by rewrite Hen. }
  assert (Hwas : ∀ i, i < length (dofColor_ s) →
                      dofColor_ (relinearizeAll pb s) !!! i = Red).
  { intros i Hi. rewrite Hcol. apply list_lookup_total_correct.
    rewrite list_lookup_fmap.
    by destruct (lookup_lt_is_Some_2 (dofColor_ s) i Hi) as [c ->]. }
  assert (Hred : ∀ i, i < length (dofColor_ s) →
                      dofColor_ (computeColors pb tolerance
                                   (relinearizeAll pb s)) !!! i = Red).
  { intros i Hi. apply computeColors_keeps_red; [done| |].
    - by rewrite Hcol, length_fmap.
    - destruct (markRedDofs_spec tolerance
                  (dofError_ (relinearizeAll pb s))
                  (dofColor_ (relinearizeAll pb s))) as (_ & -> & _).
      rewrite (Hwas i Hi). by destruct (_ && _). }
  assert (Hfits' : grid_fits pb (relinearizeAll pb s)).
  { destruct Hfits as (Hnd & Hidx & Hdof). split; [done|].
    rewrite Hcol, Hecol, !length_fmap. by split. }
  split; [|split].
  - intros i Hi. unfold dofColor. rewrite Hen. simpl. by apply Hred.
  - intros i Hi Hie.
    destruct (computeColors_fields pb tolerance (relinearizeAll pb s) Hen)
      as (Hd & He & _).
    pose proof (Hred i Hi) as Hri. rewrite Hd in Hri. rewrite He.
    match goal with
    | |- (promoteOrangeDofs ?c ?e).2 !!! _ = _ =>
        assert (Hlen4 : length c = length (dofColor_ s));
        [|destruct (promoteOrangeDofs_spec c e) as [_ Hc];
          rewrite (Hc i) in Hri by (by rewrite Hlen4);
          rewrite (promoteOrangeDofs_errors c e i)
            by (by rewrite ?Hlen4, ?Herr, ?length_fmap)]
    end.
    { match goal with
      | |- length (demoteOrangeDofs ?g ?ec ?c) = _ =>
          destruct (demoteOrangeDofs_cellwise g ec c) as [-> _]
      end.
      match goal with
      | |- length (markOrangeDofs ?g ?ec ?c) = _ =>
          destruct (markOrangeDofs_cellwise g ec c) as [-> _]
      end.
      destruct (markRedDofs_spec tolerance
                  (dofError_ (relinearizeAll pb s))
                  (dofColor_ (relinearizeAll pb s))) as (-> & _).
      by rewrite Hcol, length_fmap. }
    destruct (_ || _) eqn:Hkeep; [|done].
    rewrite Hri in Hkeep. discriminate Hkeep.
  - intros e He Hst. unfold elementColor. rewrite Hen. simpl.
    destruct (computeColors_result pb tolerance (relinearizeAll pb s) Hen
                Hfits') as (_ & _ & ->).
    pose proof Hfits' as (Hnd & Hidx & Hdof).
    match goal with
    | |- markYellowElements ?g ?c ?ec !!! _ = _ =>
        destruct (markYellowElements_spec g c ec Hnd) as [_ ->];
        [|done|rewrite markRedElements_length; by apply Hidx]
    end.
    rewrite bool_decide_eq_true_2; [done|].
    apply (ecol1_red pb tolerance (relinearizeAll pb s) Hfits' e He).
    destruct (stencil e) as [|g st] eqn:Hste; [done|].
    exists g. split; [left|]. left. apply Hwas.
    destruct Hfits as (_ & _ & Hdof0). apply (Hdof0 e g He).
    rewrite Hste. left.
Qed.

(** X7. A full relinearization request survives [computeColors]: after
    [relinearizeAll()] followed by [computeColors] with any tolerance, the
    color and error arrays hold, for every DOF, red and the error zero, and
    the element colors hold red for every element with a non-empty stencil
    (partial relinearization enabled, single partition, grid and arrays
    fitting). *)
Theorem relinearizeAll_then_computeColors
    {S : Type} `{!ScalarOps S} (pb : Problem S) (tolerance : S)
    (s : Assembler S) :
  enablePartialRelinearization_ pb = true →
  grid_fits pb s →
  let s' := computeColors pb tolerance (relinearizeAll pb s) in
  (∀ i, i < length (dofColor_ s) → dofColor_ s' !! i = Some Red)
  ∧ (∀ i, i < length (dofColor_ s) → i < length (dofError_ s) →
          dofError_ s' !! i = Some s_zero)
  ∧ (∀ e, e ∈ gridView_ pb → stencil e ≠ [] →
          elementColor_ s' !! elemIdx e = Some Red).
Proof.
  intros Hen Hfits. cbv zeta.
  destruct (full_request_survives pb tolerance s Hen Hfits)
    as (Hdof & Herr & Helem).
  unfold dofColor, elementColor in Hdof, Helem.
  rewrite Hen in Hdof, Helem. simpl in Hdof, Helem.
  destruct (computeColors_lengths pb tolerance (relinearizeAll pb s))
    as (Hlend & Hlenerr & Hlene).
  assert (Hlen0 : length (dofColor_ (relinearizeAll pb s))
                  = length (dofColor_ s)
                  ∧ length (dofError_ (relinearizeAll pb s))
                    = length (dofError_ s)
                  ∧ length (elementColor_ (relinearizeAll pb s))
                    = length (elementColor_ s)).
  { unfold relinearizeAll. rewrite Hen. simpl. by rewrite !length_fmap. }
  destruct Hlen0 as (Hd0 & Herr0 & He0).
  split; [|split].
  - intros i Hi. apply lookup_total_Some; [|by apply Hdof].
    by rewrite Hlend, Hd0.
  - intros i Hi Hie. apply lookup_total_Some; [|by apply Herr].
    by rewrite Hlenerr, Herr0.
  - intros e He Hst. apply lookup_total_Some; [|by apply Helem].
    rewrite Hlene, He0. destruct Hfits as (_ & Hidx & _). by apply Hidx.
Qed.

Lemma relinearizeAll_then_computeColors_witness :
  dofColor_ chain_colored !! 2 = Some Green
  ∧ dofColor_
      (computeColors chain chainTolerance (relinearizeAll chain chain_colored))
      !! 2 = Some Red.
Proof.
  split; [reflexivity|].
  assert (Hfits : grid_fits chain chain_colored).
  { apply chain_fits; by vm_compute. }
  destruct (relinearizeAll_then_computeColors chain chainTolerance
              chain_colored eq_refl Hfits) as (Hred & _ & _).
  apply Hred. vm_compute. lia.
Defined.

(** ** What a traversal accumulates *)

(** A loop whose every step adds a list of terms to an observed cell adds
    the concatenation of the lists. [P] is an invariant the steps may rely
    on. *)
Lemma accumulate_forLoop {A B : Type} (obs : A → option B) (add : B → B → B)
    (P : A → Prop) (n : nat) (body : nat → A → A) (L : nat → list B) (a : A) :
  P a →
  (∀ k x, k < n → P x →
          obs (body k x) = (λ b, foldl add b (L k)) <$> obs x
          ∧ P (body k x)) →
  obs (forLoop n body a)
  = (λ b, foldl add b (flat_map L (seq 0 n))) <$> obs a
  ∧ P (forLoop n body a).
Proof.
  intros Ha Hstep.
  apply (forLoop_inv
           (λ k x, obs x = (λ b, foldl add b (flat_map L (seq 0 k))) <$> obs a
                   ∧ P x)).
  - split; [|done]. by destruct (obs a).
  - intros k x Hk [Hobs Hx]. destruct (Hstep k x Hk Hx) as [Hobs' Hx'].
    split; [|done]. rewrite Hobs', Hobs, seq_S, flat_map_app. simpl.
    rewrite app_nil_r. destruct (obs a); simpl; [|done].
    by rewrite foldl_app.
Qed.

Lemma accumulate_forEach {A B E : Type} (obs : A → option B)
    (add : B → B → B) (P : A → Prop) (body : E → A → outcome A)
    (L : E → list B) (es : list E) (a y : A) :
  P a →
  (∀ e x z, e ∈ es → P x → body e x = Done z →
            obs z = (λ b, foldl add b (L e)) <$> obs x ∧ P z) →
  forEach body es a = Done y →
  obs y = (λ b, foldl add b (flat_map L es)) <$> obs a ∧ P y.
Proof.
  revert a. induction es as [|e es IH]; intros a Ha Hstep; simpl.
  - intros [= <-]. split; [|done]. by destruct (obs a).
  - destruct (body e a) as [z|z] eqn:Hbody; [|done]. intros Hrest.
    destruct (Hstep e a z ltac:(left) Ha Hbody) as [Hobs Hz].
    destruct (IH z Hz ltac:(intros e' x z' He'; apply Hstep; by right) Hrest)
      as [Hobs' Hy].
    split; [|done]. rewrite Hobs', Hobs.
    destruct (obs a); simpl; [|done]. by rewrite foldl_app.
Qed.

Lemma lookup_alter_add {B : Type} (add : B → B → B) (l : list B)
    (g i : nat) (c : B) :
  alter (λ r, add r c) g l !! i
  = (λ b, foldl add b (if bool_decide (g = i) then [c] else [])) <$> l !! i.
Proof.
  case_bool_decide as Hg.
  - rewrite Hg, list_lookup_alter_eq. by destruct (l !! i).
  - rewrite list_lookup_alter_ne by done. by destruct (l !! i).
Qed.

Lemma block_alter_add {S : Type} `{!ScalarOps S}
    (m : list (gmap nat (MatrixBlock S))) (gi gj i j : nat)
    (c : MatrixBlock S) :
  block (alter (alter (λ b, mb_add b c) gj) gi m) i j
  = (λ b, foldl mb_add b
            (if bool_decide (gi = i)
             then (if bool_decide (gj = j) then [c] else [])
             else []))
      <$> block m i j.
Proof.
  rewrite block_alter. case_decide as Heq.
  - injection Heq as -> ->. rewrite !bool_decide_eq_true_2 by done.
    by destruct (block m i j).
  - destruct (block m i j); simpl; [|by repeat case_bool_decide].
    repeat case_bool_decide; simpl; try done. by subst.
Qed.

Section TraversalResidual.
Context {S : Type} `{!ScalarOps S}.
Variable pb : Problem S.
Variable ev : Evaluator S.

Implicit Type s : Assembler S.

Lemma assembleElement_residual (elem : Element) s (y : Assembler S)
    (i : nat) :
  assembleElement_ pb ev elem s = Done y →
  residual_ y !! i
  = (λ b, foldl vb_add b (elementResiduals pb ev (elementColor_ s) i elem))
      <$> residual_ s !! i.
Proof.
  unfold assembleElement_, elementResiduals.
  destruct (enablePartialRelinearization_ pb
            && bool_decide (elementColor_ s !!! elemIdx elem = Green)).
  - unfold assembleGreenElement_.
    destruct (localResidual ev elem) as [lr|]; simpl; [|done].
    intros [= <-].
    refine (proj1 (accumulate_forLoop (λ x, residual_ x !! i) vb_add
                     (λ _, True) _ _
                     (λ p, if bool_decide (stencil elem !!! p = i)
                           then [lr_residual lr p] else [])
                     _ I _)).
    intros k x _ _. split; [|done].
    destruct (enableLinearizationRecycling_ pb); simpl;
      apply lookup_alter_add.
  - destruct (localJacobian ev elem) as [lj|]; simpl; [|done].
    intros [= <-].
    refine (proj1 (accumulate_forLoop (λ x, residual_ x !! i) vb_add
                     (λ _, True) _ _
                     (λ p, if bool_decide (stencil elem !!! p = i)
                           then [lj_residual lj p] else [])
                     _ I _)).
    intros k x _ _. split; [|done]. cbv zeta.
    rewrite <- (lookup_alter_add vb_add (residual_ x)).
    case_bool_decide.
    + loop_invariant
        (λ (_ : nat) (z : Assembler S),
           residual_ z
           = alter (λ r, vb_add r (lj_residual lj k)) (stencil elem !!! k)
               (residual_ x)).
      * by destruct (enableLinearizationRecycling_ pb).
      * intros d z _ Hz. exact Hz.
      * by intros z ->.
    + by destruct (enableLinearizationRecycling_ pb).
Qed.

Lemma traversal_residual s (y : Assembler S) (i : nat) :
  forEach (λ elem x, if negb (interior elem) then Done x
                     else assembleElement_ pb ev elem x)
    (gridView_ pb) s = Done y →
  residual_ y !! i
  = (λ b, foldl vb_add b (freshResiduals pb ev (elementColor_ s) i))
      <$> residual_ s !! i.
Proof.
  intros Hrun. unfold freshResiduals.
  refine (proj1 (accumulate_forEach (λ x, residual_ x !! i) vb_add
                   (λ x, elementColor_ x = elementColor_ s) _
                   (λ elem, if negb (interior elem) then []
                            else elementResiduals pb ev (elementColor_ s) i
                                   elem)
                   _ _ _ eq_refl _ Hrun)).
  intros e x z _ Hx. destruct (negb (interior e)).
  - intros [= <-]. split; [|done]. by destruct (residual_ x !! i).
  - intros Hbody. split.
    + rewrite <- Hx. by apply assembleElement_residual.
    + pose proof (assembleElement_colors pb ev e x) as (_ & He & _).
      rewrite Hbody in He. simpl in He. congruence.
Qed.
End TraversalResidual.

(** The residual after a traversal that follows the reset. *)
Lemma assemble__residual
    {S : Type} `{!ScalarOps S} (pb : Problem S) (ev : Evaluator S) (curDt : S)
    (s x : Assembler S) (i : nat) :
  reuseLinearization_ s = false →
  assemble_ pb ev curDt s = Done x →
  residual_ x !! i
  = (λ old, foldl vb_add (vb_clear old)
              (freshResiduals pb ev (elementColor_ s) i))
      <$> residual_ s !! i.
Proof.
  intros Hreuse Hasm. unfold assemble_ in Hasm.
  rewrite resetSystem_reuse, Hreuse in Hasm.
  pose proof (traversal_residual pb ev _ x i Hasm) as Hacc. simpl in Hacc.
  destruct (resetSystem_colors pb s) as (_ & He & _).
  destruct (resetSystem_cleared_residual pb s Hreuse) as [Hclr _].
  rewrite Hacc, He, Hclr, list_lookup_fmap.
  by destruct (residual_ s !! i).
Qed.

(** What [assemble()] does after [assemble_] has returned leaves the
    residual alone. *)
Lemma assemble_residual_kept
    {S : Type} `{!ScalarOps S} (pb : Problem S) (ev : Evaluator S) (curDt : S)
    (s s' : Assembler S) :
  assemble pb ev curDt s = Done s' →
  ∃ x, assemble_ pb ev curDt s = Done x ∧ residual_ s' = residual_ x.
Proof.
  unfold assemble, comm_min.
  destruct (assemble_ pb ev curDt s) as [x|x]; simpl; [|done].
  intros Hrun. exists x. split; [done|].
  destruct (_ && _); simpl in Hrun; by injection Hrun as <-.
Qed.

(** X8. The residual a non-recycled [assemble()] returns with: for every
    DOF, whatever the colors, the residual block is the zeroed old block
    with the residual contributions of the interior elements added in the
    order of the traversal, one for each primary DOF of an element that
    maps to the DOF; green elements contribute the residual of
    [localResidual], all others that of [localJacobian]. *)
Theorem assemble_residual
    {S : Type} `{!ScalarOps S} (pb : Problem S) (ev : Evaluator S) (curDt : S)
    (s s' : Assembler S) (i : nat) :
  reuseLinearization_ s = false →
  assemble pb ev curDt s = Done s' →
  residual s' !! i
  = (λ old, foldl vb_add (vb_clear old)
              (freshResiduals pb ev (elementColor_ s) i))
      <$> residual s !! i.
Proof.
  intros Hreuse Hrun.
  destruct (assemble_residual_kept pb ev curDt s s' Hrun) as (x & Hasm & Hres).
  unfold residual. rewrite Hres.
  exact (assemble__residual pb ev curDt s x i Hreuse Hasm).
Qed.

Lemma assemble_residual_witness :
  residual chain_colored !! 1 = Some [b64_of_Z 2]
  ∧ freshResiduals chain chainEvaluator (elementColor_ chain_colored) 1
    = [[b64_of_Z 1]; [b64_of_Z 1]]
  ∧ residual
      (final_state (assemble chain chainEvaluator (b64_of_Z 1) chain_colored))
      !! 1 = Some [b64_of_Z 2].
Proof.
  split; [reflexivity|]. split; [reflexivity|].
  rewrite (assemble_residual chain chainEvaluator (b64_of_Z 1) chain_colored
             (final_state
                (assemble chain chainEvaluator (b64_of_Z 1) chain_colored))
             1 eq_refl).
  - reflexivity.
  - vm_compute. reflexivity.
Defined.

Lemma flat_map_if {A B : Type} (c : bool) (f : A → list B) (l : list A) :
  flat_map (λ x, if c then f x else []) l = if c then flat_map f l else [].
Proof.
  destruct c; [done|]. induction l as [|x l IH]; [done|]. simpl. exact IH.
Qed.

Section TraversalMatrix.
Context {S : Type} `{!ScalarOps S}.
Variable pb : Problem S.
Variable ev : Evaluator S.

Implicit Type s : Assembler S.

(** The reset, row by row: a green row is kept, every other row zeroed. *)
Lemma resetSystem_block s (i j : nat) :
  reuseLinearization_ s = false →
  block (matrix_ (resetSystem_ pb s)) i j
  = (λ b, if bool_decide (dofColor pb s i = Green) then b else mb_clear b)
      <$> block (matrix_ s) i j.
Proof.
  intros Hreuse. unfold resetSystem_, dofColor. rewrite Hreuse.
  destruct (enablePartialRelinearization_ pb); simpl.
  - cut (matrix_
           (forLoop (length (matrix_ s))
              (λ rowIdx x,
                 if bool_decide (dofColor_ x !!! rowIdx = Green) then x
                 else
                   set_matrix_
                     (alter (fmap (M:=gmap nat) mb_clear) rowIdx
                        (matrix_
                           (if enableLinearizationRecycling_ pb
                            then
                              set_storageTerm_
                                (alter vb_clear rowIdx (storageTerm_ x))
                                (set_storageJacobian_
                                   (alter mb_clear rowIdx (storageJacobian_ x))
                                   x)
                            else x)))
                     (if enableLinearizationRecycling_ pb
                      then
                        set_storageTerm_
                          (alter vb_clear rowIdx (storageTerm_ x))
                          (set_storageJacobian_
                             (alter mb_clear rowIdx (storageJacobian_ x)) x)
                      else x))
              (set_residual_ (vb_clear <$> residual_ s) s)) !! i
         = (λ row, if bool_decide (dofColor_ s !!! i = Green) then row
                   else mb_clear <$> row) <$> matrix_ s !! i).
    { intros Hrow. unfold block. rewrite Hrow.
      destruct (matrix_ s !! i) as [row|]; simpl; [|done].
      case_bool_decide; [by destruct (row !! j)|]. by rewrite lookup_fmap. }
    loop_invariant
      (λ k (x : Assembler S),
         dofColor_ x = dofColor_ s
         ∧ matrix_ x !! i
           = (λ row, if bool_decide (i < k)
                        && negb (bool_decide (dofColor_ s !!! i = Green))
                     then mb_clear <$> row else row) <$> matrix_ s !! i).
    + split; [done|]. simpl. by destruct (matrix_ s !! i).
    + intros k x _ [Hc Hm]. rewrite Hc.
      destruct (decide (dofColor_ s !!! k = Green)) as [Hg|Hg].
      * rewrite (bool_decide_eq_true_2 _ Hg). split; [done|]. rewrite Hm.
        destruct (decide (i = k)) as [->|Hne].
        -- rewrite (bool_decide_eq_true_2 _ Hg). simpl.
           by rewrite !andb_false_r.
        -- by rewrite (bool_decide_ext (i < Datatypes.S k) (i < k)) by lia.
      * rewrite (bool_decide_eq_false_2 _ Hg).
        assert (Hrow :
                  alter (fmap (M:=gmap nat) mb_clear) k (matrix_ x) !! i
                  = (λ row, if bool_decide (i < Datatypes.S k)
                               && negb (bool_decide
                                          (dofColor_ s !!! i = Green))
                            then mb_clear <$> row else row)
                      <$> matrix_ s !! i).
        { destruct (decide (k = i)) as [->|Hne].
          - rewrite list_lookup_alter_eq, Hm.
            rewrite (bool_decide_eq_false_2 (i < i)) by lia.
            rewrite (bool_decide_eq_true_2 (i < Datatypes.S i)) by lia.
            rewrite (bool_decide_eq_false_2 _ Hg). simpl.
            by destruct (matrix_ s !! i).
          - rewrite list_lookup_alter_ne, Hm by done.
            by rewrite (bool_decide_ext (i < Datatypes.S k) (i < k)) by lia. }
        destruct (enableLinearizationRecycling_ pb); simpl; by split.
    + intros x [_ ->].
      destruct (matrix_ s !! i) as [row|] eqn:Hrow; simpl; [|done].
      rewrite (bool_decide_eq_true_2 (i < length (matrix_ s)))
        by (by eapply lookup_lt_Some).
      by case_bool_decide.
  - assert (Hclear :
              block (fmap (M:=gmap nat) mb_clear <$> matrix_ s) i j
              = mb_clear <$> block (matrix_ s) i j).
    { unfold block. rewrite list_lookup_fmap.
      destruct (matrix_ s !! i) as [row|]; simpl; [|done].
      by rewrite lookup_fmap. }
    destruct (enableLinearizationRecycling_ pb); [|exact Hclear].
    loop_invariant
      (λ (_ : nat) (x : Assembler S),
         matrix_ x = fmap (M:=gmap nat) mb_clear <$> matrix_ s);
      [done| |].
    + intros k x _ Hx. exact Hx.
    + intros x ->. exact Hclear.
Qed.

Lemma dofColor_same s (t : Assembler S) (g : nat) :
  dofColor_ s = dofColor_ t → dofColor pb s g = dofColor pb t g.
Proof. intros H. unfold dofColor. by rewrite H. Qed.

(** One element, seen from the block [(i, j)]. *)
Lemma assembleElement_block (elem : Element) s (y : Assembler S) (i j : nat) :
  assembleElement_ pb ev elem s = Done y →
  block (matrix_ y) i j
  = (λ b, foldl mb_add b
            (if bool_decide (dofColor pb s i = Green) then []
             else elementJacobians pb ev (elementColor_ s) i j elem))
      <$> block (matrix_ s) i j.
Proof.
  unfold assembleElement_, elementJacobians.
  destruct (enablePartialRelinearization_ pb
            && bool_decide (elementColor_ s !!! elemIdx elem = Green)).
  - unfold assembleGreenElement_.
    destruct (localResidual ev elem) as [lr|]; simpl; [|done].
    intros [= <-].
    loop_invariant
      (λ (_ : nat) (z : Assembler S), matrix_ z = matrix_ s).
    + done.
    + intros k z _ Hz. by destruct (enableLinearizationRecycling_ pb).
    + intros z ->. destruct (block (matrix_ s) i j); simpl; [|done].
      by case_bool_decide.
  - destruct (localJacobian ev elem) as [lj|]; simpl; [|done].
    intros [= <-].
    destruct (decide (dofColor pb s i = Green)) as [Hgreen|Hgreen].
    + rewrite (bool_decide_eq_true_2 _ Hgreen).
      (* the row is green: no step touches it *)
      loop_invariant
        (λ (_ : nat) (z : Assembler S),
           dofColor_ z = dofColor_ s
           ∧ block (matrix_ z) i j = block (matrix_ s) i j).
      * done.
      * intros k z _ [Hc Hb]. cbv zeta.
        erewrite dofColor_same by
          (destruct (enableLinearizationRecycling_ pb); simpl; exact Hc).
        case_bool_decide as Hk.
        -- assert (Hne : stencil elem !!! k ≠ i) by congruence.
           loop_invariant
             (λ (_ : nat) (w : Assembler S),
                dofColor_ w = dofColor_ s
                ∧ block (matrix_ w) i j = block (matrix_ s) i j).
           ++ destruct (enableLinearizationRecycling_ pb); simpl; by split.
           ++ intros d w _ [Hcw Hbw]. simpl. split; [done|].
              rewrite block_alter_ne; [done|]. congruence.
           ++ done.
        -- destruct (enableLinearizationRecycling_ pb); simpl; by split.
      * intros z [_ ->]. by destruct (block (matrix_ s) i j).
    + rewrite (bool_decide_eq_false_2 _ Hgreen).
      refine (proj1 (accumulate_forLoop (λ x, block (matrix_ x) i j) mb_add
                       (λ x, dofColor_ x = dofColor_ s) _ _
                       (λ p, if bool_decide (stencil elem !!! p = i)
                             then flat_map
                                    (λ d, if bool_decide (stencil elem !!! d = j)
                                          then [lj_jacobian lj p d] else [])
                                    (seq 0 (length (stencil elem)))
                             else [])
                       _ eq_refl _)).
      intros k z _ Hc. cbv zeta.
      erewrite dofColor_same by
        (destruct (enableLinearizationRecycling_ pb); simpl; exact Hc).
      case_bool_decide as Hk.
      * rewrite <- (flat_map_if (bool_decide (stencil elem !!! k = i))).
        destruct (enableLinearizationRecycling_ pb);
          (refine (accumulate_forLoop (λ x, block (matrix_ x) i j) mb_add
                     (λ x, dofColor_ x = dofColor_ s) _ _
                     (λ d, if bool_decide (stencil elem !!! k = i)
                           then (if bool_decide (stencil elem !!! d = j)
                                 then [lj_jacobian lj k d] else [])
                           else [])
                     _ _ _);
           [exact Hc|];
           intros d w _ Hcw; simpl; split; [|done]; apply block_alter_add).
      * assert (Hne : stencil elem !!! k ≠ i).
        { intros Heq. apply Hgreen. rewrite <- Heq.
          by destruct (decide (dofColor pb s (stencil elem !!! k) = Green)). }
        rewrite (bool_decide_eq_false_2 _ Hne).
        split; destruct (enableLinearizationRecycling_ pb); simpl;
          try done; by destruct (block (matrix_ z) i j).
Qed.
Lemma traversal_block s (y : Assembler S) (i j : nat) :
  forEach (λ elem x, if negb (interior elem) then Done x
                     else assembleElement_ pb ev elem x)
    (gridView_ pb) s = Done y →
  block (matrix_ y) i j
  = (λ b, foldl mb_add b
            (if bool_decide (dofColor pb s i = Green) then []
             else freshJacobians pb ev (elementColor_ s) i j))
      <$> block (matrix_ s) i j.
Proof.
  intros Hrun. unfold freshJacobians.
  assert (Hif : (if bool_decide (dofColor pb s i = Green) then []
                 else flat_map
                        (λ elem, if negb (interior elem) then []
                                 else elementJacobians pb ev (elementColor_ s)
                                        i j elem)
                        (gridView_ pb))
                = flat_map
                    (λ elem, if negb (bool_decide (dofColor pb s i = Green))
                             then (if negb (interior elem) then []
                                   else elementJacobians pb ev
                                          (elementColor_ s) i j elem)
                             else [])
                    (gridView_ pb)).
  { rewrite flat_map_if. by destruct (bool_decide _). }
  rewrite Hif.
  refine (proj1 (accumulate_forEach (λ x, block (matrix_ x) i j) mb_add
                   (λ x, dofColor_ x = dofColor_ s
                         ∧ elementColor_ x = elementColor_ s) _
                   (λ elem, if negb (bool_decide (dofColor pb s i = Green))
                            then (if negb (interior elem) then []
                                  else elementJacobians pb ev
                                         (elementColor_ s) i j elem)
                            else [])
                   _ _ _ (conj eq_refl eq_refl) _ Hrun)).
  intros e x z _ [Hd He]. destruct (negb (interior e)).
  - intros [= <-]. split; [|done].
    destruct (block (matrix_ x) i j); simpl; [|done].
    by destruct (negb _).
  - intros Hbody. split.
    + rewrite (assembleElement_block e x z i j Hbody).
      rewrite (dofColor_same x s i Hd), He.
      by destruct (bool_decide (dofColor pb s i = Green)).
    + pose proof (assembleElement_colors pb ev e x) as (Hd' & He' & _).
      rewrite Hbody in Hd', He'. simpl in Hd', He'. split; congruence.
Qed.
End TraversalMatrix.

(** The blocks of the matrix after a traversal that follows the reset. *)
Lemma assemble__block
    {S : Type} `{!ScalarOps S} (pb : Problem S) (ev : Evaluator S) (curDt : S)
    (s x : Assembler S) (i j : nat) :
  reuseLinearization_ s = false →
  assemble_ pb ev curDt s = Done x →
  block (matrix_ x) i j
  = (λ old, if bool_decide (dofColor pb s i = Green) then old
            else foldl mb_add (mb_clear old)
                   (freshJacobians pb ev (elementColor_ s) i j))
      <$> block (matrix_ s) i j.
Proof.
  intros Hreuse Hasm. unfold assemble_ in Hasm.
  rewrite resetSystem_reuse, Hreuse in Hasm.
  pose proof (traversal_block pb ev _ x i j Hasm) as Hacc. simpl in Hacc.
  destruct (resetSystem_colors pb s) as (Hd & He & _).
  rewrite Hacc, He, (resetSystem_block pb s i j Hreuse).
  assert (Hcol : dofColor pb
                   (set_greenElems_ 0 (set_oldDt_ curDt (resetSystem_ pb s))) i
                 = dofColor pb s i).
  { apply dofColor_same. simpl. by rewrite Hd. }
  rewrite Hcol.
  destruct (block (matrix_ s) i j); simpl; [|done].
  by destruct (bool_decide (dofColor pb s i = Green)).
Qed.

(** What [assemble()] does after [assemble_] has returned leaves the matrix
    alone. *)
Lemma assemble_matrix_kept
    {S : Type} `{!ScalarOps S} (pb : Problem S) (ev : Evaluator S) (curDt : S)
    (s s' : Assembler S) :
  assemble pb ev curDt s = Done s' →
  ∃ x, assemble_ pb ev curDt s = Done x ∧ matrix_ s' = matrix_ x.
Proof.
  unfold assemble, comm_min.
  destruct (assemble_ pb ev curDt s) as [x|x]; simpl; [|done].
  intros Hrun. exists x. split; [done|].
  destruct (_ && _); simpl in Hrun; by injection Hrun as <-.
Qed.

(** X9. The matrix a non-recycled [assemble()] returns with, block by
    block: a block in the row of a green DOF is the old block, untouched;
    any other block is the zeroed old block with the Jacobian blocks of the
    interior elements that are not assembled as green ones added in the
    order of the traversal, one for each pair of a primary DOF mapping to
    the row and a stencil DOF mapping to the column.  No block is created:
    outside of the sparsity pattern nothing is stored. *)
Theorem assemble_matrix
    {S : Type} `{!ScalarOps S} (pb : Problem S) (ev : Evaluator S) (curDt : S)
    (s s' : Assembler S) (i j : nat) :
  reuseLinearization_ s = false →
  assemble pb ev curDt s = Done s' →
  block (matrix s') i j
  = (λ old, if bool_decide (dofColor pb s i = Green) then old
            else foldl mb_add (mb_clear old)
                   (freshJacobians pb ev (elementColor_ s) i j))
      <$> block (matrix s) i j.
Proof.
  intros Hreuse Hrun.
  destruct (assemble_matrix_kept pb ev curDt s s' Hrun) as (x & Hasm & Hmat).
  unfold matrix. rewrite Hmat.
  exact (assemble__block pb ev curDt s x i j Hreuse Hasm).
Qed.

Lemma assemble_matrix_witness :
  dofColor chain chain_colored 1 = Red
  ∧ freshJacobians chain chainEvaluator (elementColor_ chain_colored) 1 1
    = [[[b64_of_Z 4]]; [[b64_of_Z 4]]]
  ∧ block
      (matrix
         (final_state
            (assemble chain chainEvaluator (b64_of_Z 1) chain_colored)))
      1 1 = Some [[b64_of_Z 8]].
Proof.
  split; [reflexivity|]. split; [reflexivity|].
  rewrite (assemble_matrix chain chainEvaluator (b64_of_Z 1) chain_colored
             (final_state
                (assemble chain chainEvaluator (b64_of_Z 1) chain_colored))
             1 1 eq_refl).
  - reflexivity.
  - vm_compute. reflexivity.
Defined.

(** ** When [assemble()] throws *)

Lemma forEach_is_done {A E : Type} (P : A → Prop) (ok : E → bool)
    (body : E → A → outcome A) (es : list E) (a : A) :
  P a →
  (∀ e x, e ∈ es → P x →
          is_done (body e x) = ok e ∧ P (final_state (body e x))) →
  is_done (forEach body es a) = forallb ok es.
Proof.
  revert a. induction es as [|e es IH]; intros a Ha Hstep; simpl; [done|].
  destruct (Hstep e a ltac:(left) Ha) as [Hok Hp].
  destruct (body e a) as [z|z]; simpl in *; rewrite <- Hok; [|done].
  apply IH; [done|]. intros e' x He'. apply Hstep. by right.
Qed.

Section Throws.
Context {S : Type} `{!ScalarOps S}.
Variable pb : Problem S.
Variable ev : Evaluator S.

Implicit Type s : Assembler S.

Lemma assembleElement_is_done (elem : Element) s :
  is_done (assembleElement_ pb ev elem s)
  = evaluates pb ev (elementColor_ s) elem.
Proof.
  unfold assembleElement_, assembleGreenElement_, evaluates.
  destruct (_ && _).
  - by destruct (localResidual ev elem).
  - by destruct (localJacobian ev elem).
Qed.

Lemma assemble__is_done (curDt : S) s :
  is_done (assemble_ pb ev curDt s)
  = reuseLinearization_ s
    || forallb (λ e, negb (interior e) || evaluates pb ev (elementColor_ s) e)
         (gridView_ pb).
Proof.
  unfold assemble_. rewrite resetSystem_reuse.
  destruct (reuseLinearization_ s); [done|]. simpl.
  destruct (resetSystem_colors pb s) as (_ & He & _).
  apply (forEach_is_done (λ x, elementColor_ x = elementColor_ s)); [done|].
  intros e x _ Hx. destruct (interior e); simpl; [|done]. split.
  - by rewrite assembleElement_is_done, Hx.
  - pose proof (assembleElement_colors pb ev e x) as (_ & He' & _). congruence.
Qed.

(** [relinearizationAccuracy_] is written by [assemble()] alone, after the
    traversal. *)
Lemma assemble__keeps_accuracy (curDt : S) s :
  relinearizationAccuracy_ (final_state (assemble_ pb ev curDt s))
  = relinearizationAccuracy_ s.
Proof.
  assert (Hreset : relinearizationAccuracy_ (resetSystem_ pb s)
                   = relinearizationAccuracy_ s).
  { unfold resetSystem_. destruct (reuseLinearization_ s); [done|].
    destruct (enablePartialRelinearization_ pb); simpl.
    - loop_invariant (λ (_ : nat) (x : Assembler S),
                        relinearizationAccuracy_ x
                        = relinearizationAccuracy_ s); [done| |done].
      intros i x _ Hx. case_bool_decide; [done|].
      by destruct (enableLinearizationRecycling_ pb).
    - destruct (enableLinearizationRecycling_ pb); [|done].
      loop_invariant (λ (_ : nat) (x : Assembler S),
                        relinearizationAccuracy_ x
                        = relinearizationAccuracy_ s); done. }
  unfold assemble_.
  destruct (reuseLinearization_ (resetSystem_ pb s)); simpl.
  - loop_invariant (λ (_ : nat) (x : Assembler S),
                      relinearizationAccuracy_ x
                      = relinearizationAccuracy_ s); [done| |done].
    intros i x _ Hx. exact Hx.
  - apply (forEach_inv (λ x, relinearizationAccuracy_ x
                             = relinearizationAccuracy_ s)); [done|].
    intros e x _ Hx. destruct (interior e); simpl; [|done].
    unfold assembleElement_, assembleGreenElement_.
    destruct (_ && _).
    + destruct (localResidual ev e); simpl; [|done].
      loop_invariant (λ (_ : nat) (y : Assembler S),
                        relinearizationAccuracy_ y
                        = relinearizationAccuracy_ s); [done| |done].
      intros i y _ Hy. by destruct (enableLinearizationRecycling_ pb).
    + destruct (localJacobian ev e); simpl; [|done].
      loop_invariant (λ (_ : nat) (y : Assembler S),
                        relinearizationAccuracy_ y
                        = relinearizationAccuracy_ s); [done| |done].
      intros i y _ Hy. cbv zeta. case_bool_decide.
      * loop_invariant (λ (_ : nat) (w : Assembler S),
                          relinearizationAccuracy_ w
                          = relinearizationAccuracy_ s); [|done|done].
        by destruct (enableLinearizationRecycling_ pb).
      * by destruct (enableLinearizationRecycling_ pb).
Qed.
End Throws.

(** X10. On a single partition, where the reduction of the success flag
    over the ranks changes nothing, [assemble()] returns normally exactly
    when the linearization is recycled or the evaluation succeeds for every
    interior element: the local residual for an element assembled as a green
    one, the local Jacobian for every other.  (With several ranks it throws
    as well when the evaluation failed on another rank.)  The recycled path
    evaluates nothing and so never throws.  When [assemble()] throws, the
    DOF colors are not reset to green, and the errors, the element colors
    and the value [relinearizationAccuracy()] reports are as before the
    call; the reuse flag is cleared. *)
Theorem assemble_throws
    {S : Type} `{!ScalarOps S} (pb : Problem S) (ev : Evaluator S) (curDt : S)
    (s : Assembler S) :
  is_done (assemble pb ev curDt s)
  = reuseLinearization_ s
    || forallb (λ e, negb (interior e) || evaluates pb ev (elementColor_ s) e)
         (gridView_ pb)
  ∧ (∀ s', assemble pb ev curDt s = Raised s' →
           dofColor_ s' = dofColor_ s
           ∧ dofError_ s' = dofError_ s
           ∧ elementColor_ s' = elementColor_ s
           ∧ relinearizationAccuracy s' = relinearizationAccuracy s
           ∧ reuseLinearization_ s' = false).
Proof.
  pose proof (assemble__is_done pb ev curDt s) as Hdone.
  pose proof (assemble__colors pb ev curDt s) as (Hd & He & Herr & _).
  pose proof (assemble__keeps_accuracy pb ev curDt s) as Hacc.
  pose proof (assemble__reuse pb ev curDt s) as Hreuse.
  unfold assemble, comm_min, relinearizationAccuracy.
  destruct (assemble_ pb ev curDt s) as [x|x]; simpl in *.
  - split; [done|]. intros s'. by destruct (_ && _).
  - split; [done|]. by intros s' [= <-].
Qed.

Lemma assemble_throws_witness :
  is_done (assemble chain chainFaulty (b64_of_Z 1) chain_colored) = false
  ∧ dofColor_
      (final_state (assemble chain chainFaulty (b64_of_Z 1) chain_colored))
    = [Red; Red; Green].
Proof.
  destruct (assemble_throws chain chainFaulty (b64_of_Z 1) chain_colored)
    as [Hdone Hraised].
  split; [rewrite Hdone; reflexivity|].
  destruct (Hraised
              (final_state
                 (assemble chain chainFaulty (b64_of_Z 1) chain_colored)))
    as (-> & _); [|reflexivity].
  vm_compute. reflexivity.
Defined.

(** ** The errors [updateDiscrepancy] records, in binary64 *)

Lemma SFltb_nan_r (d : spec_float) : SFltb d S754_nan = false.
Proof. by destruct d. Qed.

Lemma SFabs_not_negative (z : spec_float) :
  SFltb (SFabs z) (S754_zero false) = false.
Proof. by destruct z as [[]|[]| |[] m e]. Qed.

(** X11. With binary64 scalars and partial relinearization enabled,
    [updateDiscrepancy(previousResid)] records for every DOF of
    [previousResid] an error that is either zero or the absolute value of
    one of the weighted entries of its residual block, and that is never NaN
    and never negative: a NaN among the weighted entries loses every
    comparison of [std::max] and is dropped.  The errors of the DOFs past the
    end of [previousResid] are left as they are. *)
Theorem updateDiscrepancy_errors
    (pb : Problem spec_float) (previousResid : list (list spec_float))
    (s : Assembler spec_float) (i : nat) (x : spec_float) :
  enablePartialRelinearization_ pb = true →
  dofError_ (updateDiscrepancy pb previousResid s) !! i = Some x →
  if bool_decide (i < length previousResid) then
    (x = S754_zero false
     ∨ ∃ eqIdx, eqIdx < length (previousResid !!! i)
                ∧ x = SFabs (SFmul 53 1024 ((previousResid !!! i) !!! eqIdx)
                               (eqWeight pb i eqIdx)))
    ∧ x ≠ S754_nan
    ∧ SFltb x (S754_zero false) = false
  else dofError_ s !! i = Some x.
Proof.
  intros Hen. unfold updateDiscrepancy. rewrite Hen. simpl. revert x.
  loop_invariant
    (λ k (st : Assembler spec_float),
       ∀ j y, dofError_ st !! j = Some y →
              if bool_decide (j < k) then
                (y = S754_zero false
                 ∨ ∃ eqIdx, eqIdx < length (previousResid !!! j)
                            ∧ y = SFabs (SFmul 53 1024
                                           ((previousResid !!! j) !!! eqIdx)
                                           (eqWeight pb j eqIdx)))
                ∧ y ≠ S754_nan
                ∧ SFltb y (S754_zero false) = false
              else dofError_ s !! j = Some y).
  - intros j y Hy. by rewrite (bool_decide_eq_false_2 (j < 0)) by lia.
  - intros k st _ IH j y.
    assert (Hdist :
              ∀ n,
                let d := forLoop n
                           (λ eqIdx dist,
                              s_max dist
                                (s_abs (s_mul ((previousResid !!! k) !!! eqIdx)
                                          (eqWeight pb k eqIdx))))
                           s_zero in
                (d = S754_zero false
                 ∨ ∃ eqIdx, eqIdx < n
                            ∧ d = SFabs (SFmul 53 1024
                                           ((previousResid !!! k) !!! eqIdx)
                                           (eqWeight pb k eqIdx)))
                ∧ d ≠ S754_nan
                ∧ SFltb d (S754_zero false) = false).
    { intros n. cbv zeta. induction n as [|n IHn].
      - split; [by left|done].
      - rewrite forLoop_S.
        set (d := forLoop n _ _) in *.
        set (w := s_abs (s_mul ((previousResid !!! k) !!! n)
                           (eqWeight pb k n))).
        destruct IHn as (Hval & Hnan & Hneg).
        assert (Hw : w = SFabs (SFmul 53 1024 ((previousResid !!! k) !!! n)
                                  (eqWeight pb k n))) by done.
        unfold s_max. change (s_ltb d w) with (SFltb d w).
        destruct (SFltb d w) eqn:Hlt.
        + split; [right; exists n; split; [lia|done]|].
          split; [|rewrite Hw; apply SFabs_not_negative].
          intros Heq. rewrite Heq, SFltb_nan_r in Hlt. done.
        + split; [|done]. destruct Hval as [Hz|(e & He & Hd)]; [by left|].
          right. exists e. split; [lia|done]. }
    assert (Hnew :
              ∀ v,
                ((v = S754_zero false
                  ∨ ∃ eqIdx, eqIdx < length (previousResid !!! k)
                             ∧ v = SFabs (SFmul 53 1024
                                            ((previousResid !!! k) !!! eqIdx)
                                            (eqWeight pb k eqIdx)))
                 ∧ v ≠ S754_nan
                 ∧ SFltb v (S754_zero false) = false) →
                <[k:=v]> (dofError_ st) !! j = Some y →
                if bool_decide (j < Datatypes.S k) then
                  (y = S754_zero false
                   ∨ ∃ eqIdx, eqIdx < length (previousResid !!! j)
                              ∧ y = SFabs (SFmul 53 1024
                                             ((previousResid !!! j) !!! eqIdx)
                                             (eqWeight pb j eqIdx)))
                  ∧ y ≠ S754_nan
                  ∧ SFltb y (S754_zero false) = false
                else dofError_ s !! j = Some y).
    { intros v Hv Hy.
      apply list_lookup_insert_Some in Hy as [(<- & <- & _)|[Hne Hy]].
      - by rewrite (bool_decide_eq_true_2 (k < Datatypes.S k)) by lia.
      - specialize (IH j y Hy).
        by rewrite (bool_decide_ext (j < Datatypes.S k) (j < k)) by lia. }
    destruct (SFleb (dofTotalVolume pb k) (S754_zero false));
      simpl dofError_.
    + apply Hnew. split; [by left|done].
    + apply Hnew. apply (Hdist (length (previousResid !!! k))).
  - intros st IH x Hx. exact (IH i x Hx).
Qed.

Lemma updateDiscrepancy_errors_witness :
  dofError_
    (updateDiscrepancy chain [[S754_nan]; [b64 1 (-2)]] chain_assembled) !! 0
  = Some (S754_zero false)
  ∧ S754_zero false ≠ S754_nan
  ∧ SFltb (S754_zero false) (S754_zero false) = false.
Proof.
  split; [reflexivity|].
  pose proof (updateDiscrepancy_errors chain [[S754_nan]; [b64 1 (-2)]]
                chain_assembled 0 (S754_zero false) eq_refl eq_refl) as H.
  rewrite bool_decide_eq_true_2 in H by (simpl; lia).
  exact (proj2 H).
Defined.

(** ** [markDofRed] followed by [computeColors] *)

Lemma flat_map_all_nil {A B : Type} (f : A → list B) (l : list A) :
  (∀ x, x ∈ l → f x = []) → flat_map f l = [].
Proof.
  induction l as [|x l IH]; intros Hnil; [done|]. simpl.
  rewrite (Hnil x) by left. apply IH. intros y Hy. apply Hnil. by right.
Qed.

Section RedRequest.
Context {S : Type} `{!ScalarOps S}.
Variable pb : Problem S.
Hypothesis partial : enablePartialRelinearization_ pb = true.

Implicit Type s : Assembler S.

(** An element with a hot DOF in its stencil comes out red. *)
Lemma computeColors_red_element (tolerance : S) s (e : Element) :
  grid_fits pb s →
  e ∈ gridView_ pb →
  (∃ g, g ∈ stencil e ∧ hot tolerance s g) →
  elementColor_ (computeColors pb tolerance s) !!! elemIdx e = Red.
Proof using partial.
  intros Hfits He Hhot.
  destruct (computeColors_result pb tolerance s partial Hfits) as (_ & _ & ->).
  pose proof Hfits as (Hnd & Hidx & _).
  match goal with
  | |- markYellowElements ?g ?c ?ec !!! _ = _ =>
      destruct (markYellowElements_spec g c ec Hnd) as [_ ->];
        [|done|rewrite markRedElements_length; by apply Hidx]
  end.
  rewrite bool_decide_eq_true_2; [done|].
  by apply (ecol1_red pb tolerance s Hfits e He).
Qed.

(** A hot DOF comes out red. *)
Lemma computeColors_red_dof (tolerance : S) s (i : nat) :
  grid_fits pb s →
  i < length (dofColor_ s) →
  hot tolerance s i →
  dofColor_ (computeColors pb tolerance s) !!! i = Red.
Proof using partial.
  intros Hfits Hi Hhot.
  rewrite (computeColors_dof pb tolerance s partial Hfits i Hi).
  apply (col2_red pb tolerance s i Hi) in Hhot. by rewrite Hhot.
Qed.

(** The Jacobian blocks offered to the row [i] depend on the colors of the
    elements that have [i] among their primary DOFs only. *)
Lemma freshJacobians_row (ev : Evaluator S) (ecol ecol' : list EntityColor)
    (i j : nat) :
  (∀ e p, e ∈ gridView_ pb → p < numPrimaryDof e → stencil e !!! p = i →
          ecol !!! elemIdx e = Red ∧ ecol' !!! elemIdx e = Red) →
  freshJacobians pb ev ecol i j = freshJacobians pb ev ecol' i j.
Proof using Type.
  intros Hred. unfold freshJacobians.
  induction (gridView_ pb) as [|e grid IH]; [done|]. simpl.
  rewrite IH by (intros e' p He'; apply Hred; by right). f_equal.
  destruct (negb (interior e)); [done|].
  unfold elementJacobians.
  destruct (decide (Exists (λ p, stencil e !!! p = i)
                      (seq 0 (numPrimaryDof e)))) as [Hsome|Hnone].
  - apply Exists_exists in Hsome as (p & Hp & Hst).
    apply elem_of_seq in Hp.
    destruct (Hred e p ltac:(left) ltac:(lia) Hst) as [-> ->]. done.
  - assert (Hnil :
              ∀ f : nat → list (MatrixBlock S),
                flat_map (λ p, if bool_decide (stencil e !!! p = i)
                               then f p else [])
                  (seq 0 (numPrimaryDof e)) = []).
    { intros f. apply flat_map_all_nil. intros p Hp.
      apply elem_of_seq in Hp.
      rewrite bool_decide_eq_false_2; [done|].
      intros Hst. apply Hnone. apply Exists_exists. exists p.
      split; [by apply elem_of_seq|done]. }
    destruct (_ && _), (_ && _); destruct (localJacobian ev e);
      by rewrite ?Hnil.
Qed.
End RedRequest.

(** X12. A red request that is followed by [computeColors], on a single
    partition: after [markDofRed(i)] for a DOF that exists and
    [computeColors] with any tolerance the color array
    holds red for the DOF [i] and the element colors hold red for every
    element with [i] in its stencil; a non-recycled [assemble()] that then
    returns normally has recomputed the row [i] of the matrix from scratch:
    each block is the zeroed old block plus the Jacobian blocks the
    traversal offers when every element is red. *)
Theorem markDofRed_then_computeColors
    {S : Type} `{!ScalarOps S} (pb : Problem S) (ev : Evaluator S)
    (tolerance curDt : S) (s : Assembler S) (i : nat) :
  enablePartialRelinearization_ pb = true →
  grid_fits pb s →
  (∀ e, e ∈ gridView_ pb → numPrimaryDof e ≤ length (stencil e)) →
  i < length (dofColor_ s) →
  let s1 := computeColors pb tolerance (markDofRed pb i s) in
  dofColor_ s1 !! i = Some Red
  ∧ (∀ e, e ∈ gridView_ pb → i ∈ stencil e →
          elementColor_ s1 !! elemIdx e = Some Red)
  ∧ (∀ s' j, reuseLinearization_ s = false →
             assemble pb ev curDt s1 = Done s' →
             block (matrix s') i j
             = (λ old, foldl mb_add (mb_clear old)
                         (freshJacobians pb ev
                            (const Red <$> elementColor_ s) i j))
                 <$> block (matrix s) i j).
Proof.
  intros Hen Hfits Hprim Hi. cbv zeta.
  set (s0 := markDofRed pb i s).
  assert (Hcol0 : dofColor_ s0 = <[i:=Red]> (dofColor_ s)).
  { unfold s0, markDofRed. by rewrite Hen. }
  assert (Hecol0 : elementColor_ s0 = elementColor_ s).
  { unfold s0, markDofRed. by rewrite Hen. }
  assert (Hmat0 : matrix_ s0 = matrix_ s
                  ∧ reuseLinearization_ s0 = reuseLinearization_ s).
  { unfold s0, markDofRed. by rewrite Hen. }
  assert (Hfits0 : grid_fits pb s0).
  { destruct Hfits as (Hnd & Hidx & Hdof). split; [done|].
    rewrite Hcol0, Hecol0, length_insert. by split. }
  assert (Hi0 : i < length (dofColor_ s0)) by (by rewrite Hcol0, length_insert).
  assert (Hhot : hot tolerance s0 i).
  { left. rewrite Hcol0. by apply list_lookup_total_insert_eq. }
  assert (Hdof : dofColor pb (computeColors pb tolerance s0) i = Red).
  { unfold dofColor. rewrite Hen. simpl.
    by apply computeColors_red_dof. }
  assert (Helem : ∀ e, e ∈ gridView_ pb → i ∈ stencil e →
                       elementColor_ (computeColors pb tolerance s0)
                         !!! elemIdx e = Red).
  { intros e He Hin. apply computeColors_red_element; [done..|].
    by exists i. }
  destruct (computeColors_lengths pb tolerance s0) as (Hlend & _ & Hlene).
  split; [|split].
  - apply lookup_total_Some; [by rewrite Hlend|].
    unfold dofColor in Hdof. by rewrite Hen in Hdof.
  - intros e He Hin. apply lookup_total_Some; [|by apply Helem].
    rewrite Hlene. destruct Hfits0 as (_ & Hidx & _). by apply Hidx.
  - intros s' j Hreuse Hrun.
    destruct (computeColors_frame pb tolerance s0) as (Hm & _ & _ & _ & Hr & _).
    destruct Hmat0 as [Hm0 Hr0].
    destruct (assemble_matrix_kept pb ev curDt _ s' Hrun)
      as (x & Hasm & Hmat).
    unfold matrix. rewrite Hmat.
    rewrite (assemble__block pb ev curDt _ x i j) by
      (by rewrite ?Hr, ?Hr0).
    rewrite Hdof, Hm, Hm0.
    rewrite (freshJacobians_row pb ev
               (elementColor_ (computeColors pb tolerance s0))
               (const Red <$> elementColor_ s) i j).
    { rewrite bool_decide_eq_false_2; done. }
    intros e p He Hp Hst. split.
    + apply Helem; [done|]. rewrite <- Hst.
      apply list_elem_of_lookup_total_2. specialize (Hprim e He). lia.
    + destruct Hfits as (_ & Hidx & _).
      apply list_lookup_total_correct. rewrite list_lookup_fmap.
      by destruct (lookup_lt_is_Some_2 (elementColor_ s) _ (Hidx e He))
        as [c ->].
Qed.

Lemma markDofRed_then_computeColors_witness :
  dofColor_ chain_quiet = [Green; Green; Green]
  ∧ elementColor_
      (computeColors chain chainTolerance (markDofRed chain 0 chain_quiet))
      !! 0 = Some Red
  ∧ block
      (matrix
         (final_state
            (assemble chain chainEvaluator (b64_of_Z 1)
               (computeColors chain chainTolerance
                  (markDofRed chain 0 chain_quiet)))))
      0 0 = Some [[b64_of_Z 4]].
Proof.
  split; [reflexivity|].
  assert (Hfits : grid_fits chain chain_quiet).
  { apply chain_fits; by vm_compute. }
  assert (Hprim : ∀ e, e ∈ gridView_ chain →
                       numPrimaryDof e ≤ length (stencil e)).
  { apply Forall_forall.
    repeat (apply Forall_cons_2; [simpl; lia|]). apply Forall_nil_2. }
  assert (Hi : 0 < length (dofColor_ chain_quiet)) by (vm_compute; lia).
  destruct (markDofRed_then_computeColors chain chainEvaluator chainTolerance
              (b64_of_Z 1) chain_quiet 0 eq_refl Hfits Hprim Hi)
    as (_ & Helem & Hrow).
  split.
  - apply (Helem (chainElement 0)); [left|left].
  - rewrite (Hrow _ 0 eq_refl); [reflexivity|].
    vm_compute. reflexivity.
Defined.

(** ** The relinearization tolerance of [update_], in binary64 *)

Lemma SFcompare_antisym (a b : spec_float) (c : comparison) :
  SFcompare a b = Some c → SFcompare b a = Some (CompOpp c).
Proof.
  destruct a as [sa|sa| |sa ma ea], b as [sb|sb| |sb mb eb]; simpl;
    try (intros [= <-]; by repeat case_match).
  intros [= <-]. f_equal.
  destruct sa, sb; try done; rewrite (Z.compare_antisym ea eb);
    destruct (ea ?= eb)%Z; simpl; try done;
    by rewrite (Pos.compare_cont_antisym ma mb Eq).
Qed.

Lemma SFltb_asym (a b : spec_float) : SFltb a b = true → SFltb b a = false.
Proof.
  unfold SFltb. destruct (SFcompare a b) as [[]|] eqn:Hab; try done.
  by rewrite (SFcompare_antisym a b Lt Hab).
Qed.

Lemma SFltb_irrefl (a : spec_float) : SFltb a a = false.
Proof.
  destruct (SFltb a a) eqn:Hlt; [|done].
  by rewrite (SFltb_asym a a Hlt) in Hlt.
Qed.

(** X13. The tolerance [update_] hands to [computeColors], in binary64: it
    is one of [10 * tolerance_], [1e-4] and [error_ * error_]; it is never
    below [10 * tolerance_]; it is above [1e-4] only when it is
    [10 * tolerance_]; and when [error_ * error_] is NaN, the NaN loses the
    comparison of [std::min] and the tolerance is the larger of
    [10 * tolerance_] and [1e-4]. *)
Theorem reassembleTol_clamped (tolerance_ error_ : spec_float) :
  let minReasmTol := SFmul 53 1024 (b64_of_Z 10) tolerance_ in
  let r := reassembleTol tolerance_ error_ in
  (r = minReasmTol ∨ r = s_1em4 ∨ r = SFmul 53 1024 error_ error_)
  ∧ SFltb r minReasmTol = false
  ∧ (SFltb s_1em4 r = true → r = minReasmTol)
  ∧ (SFmul 53 1024 error_ error_ = S754_nan → r = s_max minReasmTol s_1em4).
Proof.
  cbv zeta. unfold reassembleTol. cbv zeta.
  change (s_mul (s_of_Z 10) tolerance_)
    with (SFmul 53 1024 (b64_of_Z 10) tolerance_).
  change (s_mul error_ error_) with (SFmul 53 1024 error_ error_).
  set (lo := SFmul 53 1024 (b64_of_Z 10) tolerance_).
  set (sq := SFmul 53 1024 error_ error_).
  unfold s_max, s_min. change (@s_ltb spec_float binary64_ops) with SFltb.
  destruct (SFltb sq s_1em4) eqn:Hmin.
  - destruct (SFltb lo sq) eqn:Hmax.
    + split; [by right; right|]. split; [by apply SFltb_asym|]. split.
      * intros Hgt. by rewrite (SFltb_asym _ _ Hmin) in Hgt.
      * intros Hnan. by rewrite Hnan in Hmin.
    + split; [by left|]. split; [apply SFltb_irrefl|]. split; [done|].
      intros Hnan. by rewrite Hnan in Hmin.
  - destruct (SFltb lo s_1em4) eqn:Hmax.
    + split; [by right; left|]. split; [by apply SFltb_asym|]. split; [|done].
      intros Hgt. by rewrite SFltb_irrefl in Hgt.
    + split; [by left|]. split; [apply SFltb_irrefl|]. done.
Qed.

Lemma reassembleTol_clamped_witness :
  reassembleTol (b64_of_Z 1) S754_nan = b64_of_Z 10
  ∧ reassembleTol (b64 1 (-40)) S754_nan = s_1em4.
Proof.
  split.
  - destruct (reassembleTol_clamped (b64_of_Z 1) S754_nan)
      as (_ & _ & Habove & _).
    rewrite Habove; reflexivity.
  - destruct (reassembleTol_clamped (b64 1 (-40)) S754_nan)
      as (_ & _ & _ & Hnan).
    rewrite Hnan; reflexivity.
Defined.

(** * Further properties: [BoundaryTypesPDELab::evaluate] *)

Section BoundaryTypesProperties.
Context {Flag : Type} `{!EqDecision Flag}.
Variable neumann : Flag.
Variable numEq : nat.
Variable boundaryTypes : nat → list Flag → list Flag.

(** The loop over the equations, for one vertex. *)
Lemma evaluate_vertex (values : list Flag) (y : list Z) :
  let y' := forLoop (length y)
              (λ comp y,
                 if bool_decide (values !! comp = Some neumann)
                 then <[comp := 0%Z]> y else y)
              y in
  length y' = length y
  ∧ ∀ comp, comp < length y →
            y' !! comp = if bool_decide (values !! comp = Some neumann)
                         then Some 0%Z else y !! comp.
Proof.
  cbv zeta.
  cut (∀ n, n ≤ length y →
            let y' := forLoop n
                        (λ comp y,
                           if bool_decide (values !! comp = Some neumann)
                           then <[comp := 0%Z]> y else y)
                        y in
            length y' = length y
            ∧ ∀ comp, comp < length y →
                      y' !! comp
                      = if bool_decide (comp < n)
                           && bool_decide (values !! comp = Some neumann)
                        then Some 0%Z else y !! comp).
  { intros Hn. destruct (Hn (length y) (le_n _)) as [Hlen Hy].
    split; [done|]. intros comp Hc. rewrite (Hy comp Hc).
    by rewrite (bool_decide_eq_true_2 (comp < length y)). }
  induction n as [|n IH]; intros Hn; cbv zeta.
  - split; [done|]. intros comp _.
    by rewrite (bool_decide_eq_false_2 (comp < 0)) by lia.
  - rewrite forLoop_S. destruct (IH ltac:(lia)) as [Hlen Hy].
    set (yn := forLoop n _ y) in *.
    split; [case_bool_decide; by rewrite ?length_insert|].
    intros comp Hc. destruct (decide (comp = n)) as [->|Hne].
    + rewrite (bool_decide_eq_true_2 (n < Datatypes.S n)) by lia. simpl.
      destruct (bool_decide (values !! n = Some neumann)).
      * apply list_lookup_insert_eq. lia.
      * rewrite (Hy n Hc).
        by rewrite (bool_decide_eq_false_2 (n < n)) by lia.
    + rewrite (bool_decide_ext (comp < Datatypes.S n) (comp < n)) by lia.
      rewrite <- (Hy comp Hc).
      destruct (bool_decide (values !! n = Some neumann)); [|done].
      by apply list_lookup_insert_ne.
Qed.

(** X14. [evaluate] answers, for every equation, 0 (Neumann) exactly when
    for some vertex of the face the flags, as they stand after the call of
    [boundaryTypes] for that vertex, hold [neumann] for the equation, and 1
    (Dirichlet) otherwise, whatever the other flags are; a face without
    vertices is all Dirichlet.  The flags are those left in [values] by all
    the calls so far, so a flag that a call does not overwrite counts again
    for the next vertex. *)
Theorem evaluate_neumann_wins (corners : nat) (values0 : list Flag)
    (comp : nat) :
  comp < numEq →
  let y := evaluate neumann numEq boundaryTypes corners values0 in
  length y = numEq
  ∧ (y !! comp = Some 0%Z
     ↔ ∃ faceVertIdx,
         faceVertIdx < corners
         ∧ valuesAfter boundaryTypes values0 (Datatypes.S faceVertIdx) !! comp
           = Some neumann)
  ∧ (y !! comp = Some 0%Z ∨ y !! comp = Some 1%Z).
Proof.
  intros Hcomp. cbv zeta. unfold evaluate. cbv zeta.
  loop_invariant
    (λ k (st : list Flag * list Z),
       st.1 = valuesAfter boundaryTypes values0 k
       ∧ length st.2 = numEq
       ∧ (st.2 !! comp = Some 0%Z
          ↔ ∃ faceVertIdx,
              faceVertIdx < k
              ∧ valuesAfter boundaryTypes values0 (Datatypes.S faceVertIdx)
                  !! comp = Some neumann)
       ∧ (st.2 !! comp = Some 0%Z ∨ st.2 !! comp = Some 1%Z)).
  - simpl. split; [done|]. split; [apply length_replicate|].
    rewrite lookup_replicate_2 by done. split; [|by right].
    split; [done|]. intros (v & Hv & _). lia.
  - intros k [values y] _ (Hvals & Hlen & Hzero & Hrange). simpl in *.
    assert (Hnext : boundaryTypes k values
                    = valuesAfter boundaryTypes values0 (Datatypes.S k)).
    { unfold valuesAfter. by rewrite forLoop_S, Hvals. }
    split; [exact Hnext|].
    destruct (evaluate_vertex (boundaryTypes k values) y) as [Hlen' Hy].
    rewrite Hlen in Hlen', Hy. split; [exact Hlen'|].
    rewrite (Hy comp Hcomp), Hnext.
    case_bool_decide as Hn.
    + split; [|by left]. split; [|done]. intros _. exists k. split; [lia|done].
    + split; [|exact Hrange]. rewrite Hzero. split.
      * intros (v & Hv & Hflag). exists v. split; [lia|done].
      * intros (v & Hv & Hflag). exists v. split; [|done].
        destruct (decide (v = k)) as [->|Hne]; [done|lia].
  - intros [values y] (_ & Hlen & Hzero & Hrange). simpl. done.
Qed.
End BoundaryTypesProperties.

Lemma evaluate_neumann_wins_witness :
  evaluate bc_neumann 2 sampleBoundaryTypes 2 [bc_process; bc_process]
  = [1%Z; 0%Z]
  ∧ evaluate bc_neumann 2 sampleBoundaryTypes 2 [bc_process; bc_process] !! 1
    = Some 0%Z.
Proof.
  split; [reflexivity|].
  destruct (evaluate_neumann_wins bc_neumann 2 sampleBoundaryTypes 2
              [bc_process; bc_process] 1 ltac:(lia)) as (_ & Hzero & _).
  apply Hzero. exists 1. split; [lia|reflexivity].
Defined.

(** * Further properties: [BoxNewtonConvergenceWriter] *)

Section ConvergenceWriterProperties.
Import ConvergenceWriter.
Context {Sol : Type}.

Implicit Type w : BoxNewtonConvergenceWriter Sol.
Implicit Type cs : list (Call Sol).

(** Take a call that returned apart. *)
Ltac call_cases Hc :=
  unfold call, beginTimestep, beginIteration, writeFields, endIteration,
    endTimestep, incr in Hc;
  repeat match type of Hc with
         | context [vtkMultiWriter_ ?w] =>
             let Hl := fresh "Hl" in
             destruct (vtkMultiWriter_ w) eqn:Hl; simpl in Hc
         | context [bool_decide ?P] =>
             destruct (bool_decide P) eqn:?; simpl in Hc
         end;
  simplify_eq/=.

Lemma calls_app cs1 cs2 w :
  calls (cs1 ++ cs2) w = calls cs1 w ≫= calls cs2.
Proof.
  revert w. induction cs1 as [|c cs1 IH]; intros w; simpl; [done|].
  destruct (call c w) as [w1|]; simpl; [apply IH|done].
Qed.

Lemma incr_Some (i : Z) : (i < INT_MAX)%Z → incr i = Some (i + 1)%Z.
Proof. intros Hi. unfold incr. by rewrite bool_decide_eq_true_2. Qed.

(** Once the writer exists, every call is defined as long as the counters
    have room. *)
Lemma calls_with_writer cs w :
  is_Some (vtkMultiWriter_ w) →
  (0 ≤ iteration_ w)%Z →
  (timeStepIndex_ w + Z.of_nat (length cs) ≤ INT_MAX)%Z →
  (iteration_ w + Z.of_nat (length cs) ≤ INT_MAX)%Z →
  is_Some (calls cs w).
Proof.
  revert w. induction cs as [|c cs IH]; intros w Hw Hpos Hts Hit; [done|].
  simpl in Hts, Hit. destruct Hw as [l Hl].
  destruct c; simpl; unfold beginTimestep, beginIteration, writeFields,
    endIteration, endTimestep; rewrite ?Hl; simpl;
    rewrite ?incr_Some by lia; simpl; apply IH; simpl; try done; lia.
Qed.

Lemma count_cons {A : Type} (p : A → bool) (x : A) (l : list A) :
  count p (x :: l) = ((if p x then 1 else 0) + count p l)%Z.
Proof. unfold count. simpl. destruct (p x); simpl length; lia. Qed.

(** The counters after a sequence of calls. *)
Lemma calls_timeStepIndex cs w w' :
  calls cs w = Some w' →
  timeStepIndex_ w' = (timeStepIndex_ w + count isBeginTimestep cs)%Z.
Proof.
  revert w.
  induction cs as [|c cs IH]; intros w.
  - intros [= <-]. unfold count. simpl. lia.
  - simpl. destruct (call c w) as [w1|] eqn:Hc; simpl; [|done]. intros Hrun.
    rewrite (IH w1 Hrun), count_cons.
    destruct c; simpl isBeginTimestep; call_cases Hc; lia.
Qed.

Lemma calls_iteration cs w w' :
  calls cs w = Some w' →
  Forall (λ c, resetsIteration c = false) cs →
  iteration_ w' = (iteration_ w + count isBeginIteration cs)%Z.
Proof.
  revert w.
  induction cs as [|c cs IH]; intros w.
  - intros [= <-] _. unfold count. simpl. lia.
  - simpl. destruct (call c w) as [w1|] eqn:Hc; simpl; [|done].
    intros Hrun Hall.
    apply Forall_cons in Hall as [Hc0 Hall].
    rewrite (IH w1 Hrun Hall), count_cons.
    destruct c; simpl in Hc0; try done; simpl isBeginIteration;
      call_cases Hc; lia.
Qed.

Lemma call_resets (c : Call Sol) w w' :
  resetsIteration c = true → call c w = Some w' → iteration_ w' = 0%Z.
Proof.
  destruct c; simpl resetsIteration; try done; intros _ Hc;
    by call_cases Hc.
Qed.

(** The writer only grows. *)
Lemma calls_writer_grows cs w w' (l : list (VtkEvent Sol)) :
  calls cs w = Some w' →
  vtkMultiWriter_ w = Some l →
  ∃ l', vtkMultiWriter_ w' = Some (l ++ l').
Proof.
  revert w l. induction cs as [|c cs IH]; intros w l; simpl.
  - intros [= <-] Hl. exists []. by rewrite app_nil_r.
  - destruct (call c w) as [w1|] eqn:Hc; simpl; [|done]. intros Hrun Hl.
    assert (Hw1 : ∃ l1, vtkMultiWriter_ w1 = Some (l ++ l1)).
    { destruct c; call_cases Hc;
        try (by exists []; rewrite app_nil_r); by eexists. }
    destruct Hw1 as [l1 Hl1].
    destruct (IH w1 _ Hrun Hl1) as [l2 Hl2].
    exists (l1 ++ l2). by rewrite Hl2, app_assoc.
Qed.

Lemma calls_without_writer cs w :
  vtkMultiWriter_ w = None →
  (0 ≤ iteration_ w)%Z →
  (timeStepIndex_ w + Z.of_nat (length cs) ≤ INT_MAX)%Z →
  (iteration_ w + Z.of_nat (length cs) ≤ INT_MAX)%Z →
  calls cs w = None
  ↔ ∃ pre c post, cs = pre ++ c :: post ∧ needsWriter c = true
                  ∧ Forall (λ c', isBeginIteration c' = false) pre.
Proof.
  revert w. induction cs as [|c cs IH]; intros w Hw Hpos Hts Hit.
  - simpl. split; [done|]. intros (pre & c & post & Heq & _).
    by destruct pre.
  - simpl in Hts, Hit.
    assert (Hshift :
              isBeginIteration c = false → needsWriter c = false →
              (∃ pre c0 post, cs = pre ++ c0 :: post ∧ needsWriter c0 = true
                              ∧ Forall (λ c', isBeginIteration c' = false) pre)
              ↔ (∃ pre c0 post, c :: cs = pre ++ c0 :: post
                                ∧ needsWriter c0 = true
                                ∧ Forall (λ c', isBeginIteration c' = false)
                                    pre)).
    { intros Hbi Hnw. split.
      - intros (pre & c0 & post & -> & Hc0 & Hpre).
        exists (c :: pre), c0, post. split; [done|]. split; [done|].
        by apply Forall_cons_2.
      - intros (pre & c0 & post & Heq & Hc0 & Hpre).
        destruct pre as [|c1 pre]; simpl in Heq; simplify_eq.
        + congruence.
        + apply Forall_cons in Hpre as [_ Hpre]. by exists pre, c0, post. }
    destruct c; simpl.
    + unfold beginTimestep. rewrite incr_Some by lia. simpl.
      rewrite <- Hshift by done. apply IH; simpl; [done|done|lia|lia].
    + unfold beginIteration. rewrite incr_Some by lia. simpl. split.
      * intros Hnone.
        match type of Hnone with
        | calls cs ?w1 = None =>
            destruct (calls_with_writer cs w1) as [w2 Hw2];
              simpl; [by eexists|lia|lia|lia|congruence]
        end.
      * intros (pre & c0 & post & Heq & Hc0 & Hpre).
        destruct pre as [|c1 pre]; simpl in Heq; simplify_eq; try done.
        by apply Forall_cons in Hpre as [? _].
    + unfold writeFields. rewrite Hw. simpl. split; [|done]. intros _.
      by exists [], (WriteFields u), cs.
    + unfold endIteration. rewrite Hw. simpl. split; [|done]. intros _.
      by exists [], EndIteration, cs.
    + unfold endTimestep. simpl.
      rewrite <- Hshift by done. apply IH; simpl; [done|done|lia|lia].
Qed.

(** X15. A sequence of fewer than [INT_MAX] calls on a new convergence
    writer runs into undefined behaviour exactly when [writeFields] or
    [endIteration] is called before the first [beginIteration]: the writer
    is created by the first [beginIteration], and until then the pointer is
    null.  A writer that exists is kept by every call, across time steps
    as well: what it has been asked to do is only ever added to. *)
Theorem convergence_writer_defined cs :
  (Z.of_nat (length cs) < INT_MAX)%Z →
  (calls cs BoxNewtonConvergenceWriter_new = None
   ↔ ∃ pre c post, cs = pre ++ c :: post ∧ needsWriter c = true
                   ∧ Forall (λ c', isBeginIteration c' = false) pre)
  ∧ (∀ w w' l,
       vtkMultiWriter_ w = Some l →
       calls cs w = Some w' →
       ∃ l', vtkMultiWriter_ w' = Some (l ++ l')).
Proof.
  intros Hlen. split.
  - apply calls_without_writer; simpl; [done|done|lia|lia].
  - intros w w' l Hl Hrun.
    exact (calls_writer_grows cs w w' l Hrun Hl).
Qed.

(** X16. The counters and the time a write is begun with: after any
    sequence of calls on a new convergence writer, [timeStepIndex_] is the
    number of calls of [beginTimestep]; [iteration_] is the number of calls
    of [beginIteration] since the last [beginTimestep] or [endTimestep]; and
    when the last call is [beginIteration], the last thing the writer was
    asked is to begin a write at the time
    [timeStepIndex_ + iteration_ / 100.0]. *)
Theorem convergence_writer_counters cs w :
  calls cs BoxNewtonConvergenceWriter_new = Some w →
  timeStepIndex_ w = count isBeginTimestep cs
  ∧ (∀ pre post,
       cs = pre ++ post →
       Forall (λ c, resetsIteration c = false) post →
       (pre = [] ∨ ∃ pre' c, pre = pre' ++ [c] ∧ resetsIteration c = true) →
       iteration_ w = count isBeginIteration post)
  ∧ (∀ cs', cs = cs' ++ [BeginIteration] →
            ∃ l, vtkMultiWriter_ w
                 = Some (l ++ [BeginWrite
                                 (writeTime (timeStepIndex_ w)
                                    (iteration_ w))])).
Proof.
  intros Hrun. split; [|split].
  - by rewrite (calls_timeStepIndex cs _ w Hrun).
  - intros pre post -> Hpost Hpre. rewrite calls_app in Hrun.
    destruct (calls pre BoxNewtonConvergenceWriter_new) as [w1|] eqn:Hpre1;
      simpl in Hrun; [|done].
    rewrite (calls_iteration post w1 w Hrun Hpost).
    assert (Hzero : iteration_ w1 = 0%Z).
    { destruct Hpre as [->|(pre' & c & -> & Hc)].
      - simpl in Hpre1. by injection Hpre1 as <-.
      - rewrite calls_app in Hpre1.
        destruct (calls pre' BoxNewtonConvergenceWriter_new) as [w0|];
          simpl in Hpre1; [|done].
        destruct (call c w0) as [w0'|] eqn:Hcall; simpl in Hpre1; [|done].
        injection Hpre1 as <-. exact (call_resets c w0 w0' Hc Hcall). }
    rewrite Hzero. lia.
  - intros cs' ->. rewrite calls_app in Hrun.
    destruct (calls cs' BoxNewtonConvergenceWriter_new) as [w1|];
      simpl in Hrun; [|done].
    unfold beginIteration, incr in Hrun.
    case_bool_decide; simpl in Hrun; [|done]. injection Hrun as <-. simpl.
    by eexists.
Qed.
End ConvergenceWriterProperties.

Lemma convergence_writer_defined_witness :
  ConvergenceWriter.calls
    [ConvergenceWriter.BeginTimestep; ConvergenceWriter.WriteFields tt]
    ConvergenceWriter.BoxNewtonConvergenceWriter_new = None.
Proof.
  apply (convergence_writer_defined
           [ConvergenceWriter.BeginTimestep; ConvergenceWriter.WriteFields tt]).
  - vm_compute. reflexivity.
  - exists [ConvergenceWriter.BeginTimestep], (ConvergenceWriter.WriteFields tt),
      [].
    split; [reflexivity|]. split; [reflexivity|].
    apply Forall_cons_2; [reflexivity|apply Forall_nil_2].
Defined.

Lemma convergence_writer_counters_witness :
  ConvergenceWriter.calls
    [ConvergenceWriter.BeginTimestep; ConvergenceWriter.BeginIteration;
     ConvergenceWriter.EndIteration; ConvergenceWriter.BeginIteration]
    (ConvergenceWriter.BoxNewtonConvergenceWriter_new (Sol:=unit))
  = Some
      {| ConvergenceWriter.timeStepIndex_ := 1;
         ConvergenceWriter.iteration_ := 2;
         ConvergenceWriter.vtkMultiWriter_ :=
           Some [ConvergenceWriter.BeginWrite
                   (ConvergenceWriter.writeTime 1 1);
                 ConvergenceWriter.EndWrite;
                 ConvergenceWriter.BeginWrite
                   (ConvergenceWriter.writeTime 1 2)] |}
  ∧ ConvergenceWriter.count ConvergenceWriter.isBeginTimestep
      [ConvergenceWriter.BeginTimestep (Sol:=unit);
       ConvergenceWriter.BeginIteration;
       ConvergenceWriter.EndIteration; ConvergenceWriter.BeginIteration]
    = 1%Z.
Proof.
  assert (Hrun :
            ConvergenceWriter.calls
              [ConvergenceWriter.BeginTimestep;
               ConvergenceWriter.BeginIteration;
               ConvergenceWriter.EndIteration;
               ConvergenceWriter.BeginIteration]
              (ConvergenceWriter.BoxNewtonConvergenceWriter_new (Sol:=unit))
            = Some
                {| ConvergenceWriter.timeStepIndex_ := 1;
                   ConvergenceWriter.iteration_ := 2;
                   ConvergenceWriter.vtkMultiWriter_ :=
                     Some [ConvergenceWriter.BeginWrite
                             (ConvergenceWriter.writeTime 1 1);
                           ConvergenceWriter.EndWrite;
                           ConvergenceWriter.BeginWrite
                             (ConvergenceWriter.writeTime 1 2)] |})
    by reflexivity.
  split; [exact Hrun|].
  destruct (convergence_writer_counters _ _ Hrun) as (Hts & _ & _).
  rewrite <- Hts. reflexivity.
Defined.

(** * Further properties: what the recycled path leaves alone *)

Section RecycledFrame.
Context {S : Type} `{!ScalarOps S}.
Variable pb : Problem S.

Implicit Type s : Assembler S.

End RecycledFrame.



(** * Further properties: the recycling caches after a traversal *)

Section TraversalCaches.
Context {S : Type} `{!ScalarOps S}.
Variable pb : Problem S.
Variable ev : Evaluator S.
Hypothesis recycling : enableLinearizationRecycling_ pb = true.

Implicit Type s : Assembler S.

(** The reset of the caches, row by row. *)
Lemma resetSystem_caches s (i : nat) :
  reuseLinearization_ s = false →
  i < length (matrix_ s) →
  storageTerm_ (resetSystem_ pb s) !! i
  = (λ b, if bool_decide (dofColor pb s i = Green) then b else vb_clear b)
      <$> storageTerm_ s !! i
  ∧ storageJacobian_ (resetSystem_ pb s) !! i
    = (λ b, if bool_decide (dofColor pb s i = Green) then b else mb_clear b)
        <$> storageJacobian_ s !! i.
Proof using recycling.
  intros Hreuse Hi. unfold resetSystem_, dofColor. rewrite Hreuse, recycling.
  destruct (enablePartialRelinearization_ pb); simpl.
  - loop_invariant
      (λ k (x : Assembler S),
         dofColor_ x = dofColor_ s
         ∧ storageTerm_ x !! i
           = (λ b, if bool_decide (i < k)
                      && negb (bool_decide (dofColor_ s !!! i = Green))
                   then vb_clear b else b) <$> storageTerm_ s !! i
         ∧ storageJacobian_ x !! i
           = (λ b, if bool_decide (i < k)
                      && negb (bool_decide (dofColor_ s !!! i = Green))
                   then mb_clear b else b) <$> storageJacobian_ s !! i).
    + split; [done|]. simpl.
      split; [by destruct (storageTerm_ s !! i)
             |by destruct (storageJacobian_ s !! i)].
    + intros k x _ (Hc & HT & HJ). rewrite Hc.
      destruct (decide (dofColor_ s !!! k = Green)) as [Hg|Hg].
      * rewrite (bool_decide_eq_true_2 _ Hg). split; [done|].
        rewrite HT, HJ. destruct (decide (i = k)) as [->|Hne].
        -- rewrite (bool_decide_eq_true_2 _ Hg). simpl.
           by rewrite !andb_false_r.
        -- by rewrite (bool_decide_ext (i < Datatypes.S k) (i < k)) by lia.
      * rewrite (bool_decide_eq_false_2 _ Hg). simpl. split; [done|].
        destruct (decide (k = i)) as [->|Hne].
        -- rewrite !list_lookup_alter_eq, HT, HJ.
           rewrite (bool_decide_eq_false_2 (i < i)) by lia.
           rewrite (bool_decide_eq_true_2 (i < Datatypes.S i)) by lia.
           rewrite (bool_decide_eq_false_2 _ Hg). simpl.
           split; [by destruct (storageTerm_ s !! i)
                  |by destruct (storageJacobian_ s !! i)].
        -- rewrite !list_lookup_alter_ne, HT, HJ by done.
           by rewrite (bool_decide_ext (i < Datatypes.S k) (i < k)) by lia.
    + intros x (_ & -> & ->).
      rewrite (bool_decide_eq_true_2 (i < length (matrix_ s))) by done.
      simpl.
      split; [destruct (storageTerm_ s !! i)
             |destruct (storageJacobian_ s !! i)]; simpl; try done;
        by case_bool_decide.
  - rewrite length_fmap.
    loop_invariant
      (λ k (x : Assembler S),
         storageTerm_ x !! i
         = (λ b, if bool_decide (i < k) then vb_clear b else b)
             <$> storageTerm_ s !! i
         ∧ storageJacobian_ x !! i
           = (λ b, if bool_decide (i < k) then mb_clear b else b)
               <$> storageJacobian_ s !! i).
    + simpl.
      split; [by destruct (storageTerm_ s !! i)
             |by destruct (storageJacobian_ s !! i)].
    + intros k x _ (HT & HJ). simpl.
      destruct (decide (k = i)) as [->|Hne].
      * rewrite !list_lookup_alter_eq, HT, HJ.
        rewrite (bool_decide_eq_false_2 (i < i)) by lia.
        rewrite (bool_decide_eq_true_2 (i < Datatypes.S i)) by lia.
        split; [by destruct (storageTerm_ s !! i)
               |by destruct (storageJacobian_ s !! i)].
      * rewrite !list_lookup_alter_ne, HT, HJ by done.
        by rewrite (bool_decide_ext (i < Datatypes.S k) (i < k)) by lia.
    + intros x (-> & ->).
      by rewrite (bool_decide_eq_true_2 (i < length (matrix_ s))) by done.
Qed.

(** One element, seen from the caches of the DOF [i]. *)
Lemma assembleElement_storageTerm (elem : Element) s (y : Assembler S)
    (i : nat) :
  assembleElement_ pb ev elem s = Done y →
  storageTerm_ y !! i
  = (λ b, foldl vb_add b (elementStorageTerms pb ev (elementColor_ s) i elem))
      <$> storageTerm_ s !! i.
Proof using recycling.
  unfold assembleElement_, elementStorageTerms. cbv zeta.
  destruct (enablePartialRelinearization_ pb
            && bool_decide (elementColor_ s !!! elemIdx elem = Green)).
  - unfold assembleGreenElement_.
    destruct (localResidual ev elem) as [lr|]; simpl; [|done].
    intros [= <-].
    refine (proj1 (accumulate_forLoop (λ x, storageTerm_ x !! i) vb_add
                     (λ _, True) _ _
                     (λ p, if bool_decide (stencil elem !!! p = i)
                           then [lr_storageTerm lr p] else [])
                     _ I _)).
    intros k x _ _. split; [|done]. rewrite recycling. simpl.
    apply lookup_alter_add.
  - destruct (localJacobian ev elem) as [lj|]; simpl; [|done].
    intros [= <-].
    refine (proj1 (accumulate_forLoop (λ x, storageTerm_ x !! i) vb_add
                     (λ _, True) _ _
                     (λ p, if bool_decide (stencil elem !!! p = i)
                           then [lj_residualStorage lj p] else [])
                     _ I _)).
    intros k x _ _. split; [|done]. cbv zeta. rewrite recycling.
    rewrite <- (lookup_alter_add vb_add (storageTerm_ x)).
    case_bool_decide; [|done].
    loop_invariant
      (λ (_ : nat) (z : Assembler S),
         storageTerm_ z
         = alter (λ r, vb_add r (lj_residualStorage lj k))
             (stencil elem !!! k) (storageTerm_ x)); [done| |by intros z ->].
    intros d z _ Hz. exact Hz.
Qed.

Lemma assembleElement_storageJacobian (elem : Element) s (y : Assembler S)
    (i : nat) :
  assembleElement_ pb ev elem s = Done y →
  storageJacobian_ y !! i
  = (λ b, foldl mb_add b
            (if bool_decide (dofColor pb s i = Green) then []
             else elementStorageJacobians pb ev (elementColor_ s) i elem))
      <$> storageJacobian_ s !! i.
Proof using recycling.
  unfold assembleElement_, elementStorageJacobians.
  destruct (enablePartialRelinearization_ pb
            && bool_decide (elementColor_ s !!! elemIdx elem = Green)).
  - unfold assembleGreenElement_.
    destruct (localResidual ev elem) as [lr|]; simpl; [|done].
    intros [= <-].
    loop_invariant
      (λ (_ : nat) (z : Assembler S), storageJacobian_ z = storageJacobian_ s).
    + done.
    + intros k z _ Hz. by rewrite recycling.
    + intros z ->. destruct (storageJacobian_ s !! i); simpl; [|done].
      by case_bool_decide.
  - destruct (localJacobian ev elem) as [lj|]; simpl; [|done].
    intros [= <-].
    assert (Hinner :
              ∀ (k : nat) (z0 : Assembler S),
                storageJacobian_
                  (forLoop (length (stencil elem))
                     (λ dofIdx s0,
                        set_matrix_
                          (alter
                             (alter
                                (λ b, mb_add b (lj_jacobian lj k dofIdx))
                                (stencil elem !!! dofIdx))
                             (stencil elem !!! k) (matrix_ s0)) s0) z0)
                = storageJacobian_ z0
                ∧ dofColor_
                    (forLoop (length (stencil elem))
                       (λ dofIdx s0,
                          set_matrix_
                            (alter
                               (alter
                                  (λ b, mb_add b (lj_jacobian lj k dofIdx))
                                  (stencil elem !!! dofIdx))
                               (stencil elem !!! k) (matrix_ s0)) s0) z0)
                  = dofColor_ z0).
    { intros k z0.
      loop_invariant
        (λ (_ : nat) (w : Assembler S),
           storageJacobian_ w = storageJacobian_ z0
           ∧ dofColor_ w = dofColor_ z0); [done| |done].
      intros d w _ Hw. exact Hw. }
    destruct (decide (dofColor pb s i = Green)) as [Hgreen|Hgreen].
    + rewrite (bool_decide_eq_true_2 _ Hgreen).
      loop_invariant
        (λ (_ : nat) (z : Assembler S),
           dofColor_ z = dofColor_ s
           ∧ storageJacobian_ z !! i = storageJacobian_ s !! i).
      * done.
      * intros k z _ [Hc Hb]. cbv zeta. rewrite recycling.
        erewrite dofColor_same by exact Hc.
        case_bool_decide as Hk; [|done].
        match goal with
        | |- context [forLoop (length (stencil elem)) _ ?z0] =>
            destruct (Hinner k z0) as [-> ->]
        end.
        simpl. split; [done|].
        rewrite list_lookup_alter_ne; [done|]. congruence.
      * intros z [_ ->]. by destruct (storageJacobian_ s !! i).
    + rewrite (bool_decide_eq_false_2 _ Hgreen).
      refine (proj1 (accumulate_forLoop (λ x, storageJacobian_ x !! i) mb_add
                       (λ x, dofColor_ x = dofColor_ s) _ _
                       (λ p, if bool_decide (stencil elem !!! p = i)
                             then [lj_jacobianStorage lj p] else [])
                       _ eq_refl _)).
      intros k z _ Hc. cbv zeta. rewrite recycling.
      erewrite dofColor_same by exact Hc.
      case_bool_decide as Hk.
      * match goal with
        | |- context [forLoop (length (stencil elem)) _ ?z0] =>
            destruct (Hinner k z0) as [-> ->]
        end.
        simpl. split; [|done]. apply lookup_alter_add.
      * assert (Hne : stencil elem !!! k ≠ i).
        { intros Heq. apply Hgreen. rewrite <- Heq.
          by destruct (decide (dofColor pb s (stencil elem !!! k) = Green)). }
        rewrite (bool_decide_eq_false_2 _ Hne). simpl. split; [|done].
        by destruct (storageJacobian_ z !! i).
Qed.

Lemma traversal_caches s (y : Assembler S) (i : nat) :
  forEach (λ elem x, if negb (interior elem) then Done x
                     else assembleElement_ pb ev elem x)
    (gridView_ pb) s = Done y →
  storageTerm_ y !! i
  = (λ b, foldl vb_add b (freshStorageTerms pb ev (elementColor_ s) i))
      <$> storageTerm_ s !! i
  ∧ storageJacobian_ y !! i
    = (λ b, foldl mb_add b
              (if bool_decide (dofColor pb s i = Green) then []
               else freshStorageJacobians pb ev (elementColor_ s) i))
        <$> storageJacobian_ s !! i.
Proof using recycling.
  intros Hrun. split.
  - unfold freshStorageTerms.
    refine (proj1 (accumulate_forEach (λ x, storageTerm_ x !! i) vb_add
                     (λ x, elementColor_ x = elementColor_ s) _
                     (λ elem, if negb (interior elem) then []
                              else elementStorageTerms pb ev (elementColor_ s)
                                     i elem)
                     _ _ _ eq_refl _ Hrun)).
    intros e x z _ Hx. destruct (negb (interior e)).
    + intros [= <-]. split; [|done]. by destruct (storageTerm_ x !! i).
    + intros Hbody. split.
      * rewrite <- Hx. by apply assembleElement_storageTerm.
      * pose proof (assembleElement_colors pb ev e x) as (_ & He & _).
        rewrite Hbody in He. simpl in He. congruence.
  - unfold freshStorageJacobians.
    assert (Hif : (if bool_decide (dofColor pb s i = Green) then []
                   else flat_map
                          (λ elem, if negb (interior elem) then []
                                   else elementStorageJacobians pb ev
                                          (elementColor_ s) i elem)
                          (gridView_ pb))
                  = flat_map
                      (λ elem, if negb (bool_decide (dofColor pb s i = Green))
                               then (if negb (interior elem) then []
                                     else elementStorageJacobians pb ev
                                            (elementColor_ s) i elem)
                               else [])
                      (gridView_ pb)).
    { rewrite flat_map_if. by destruct (bool_decide _). }
    rewrite Hif.
    refine (proj1 (accumulate_forEach (λ x, storageJacobian_ x !! i) mb_add
                     (λ x, dofColor_ x = dofColor_ s
                           ∧ elementColor_ x = elementColor_ s) _
                     (λ elem, if negb (bool_decide (dofColor pb s i = Green))
                              then (if negb (interior elem) then []
                                    else elementStorageJacobians pb ev
                                           (elementColor_ s) i elem)
                              else [])
                     _ _ _ (conj eq_refl eq_refl) _ Hrun)).
    intros e x z _ [Hd He]. destruct (negb (interior e)).
    + intros [= <-]. split; [|done].
      destruct (storageJacobian_ x !! i); simpl; [|done].
      by destruct (negb _).
    + intros Hbody. split.
      * rewrite (assembleElement_storageJacobian e x z i Hbody).
        rewrite (dofColor_same pb x s i Hd), He.
        by destruct (bool_decide (dofColor pb s i = Green)).
      * pose proof (assembleElement_colors pb ev e x) as (Hd' & He' & _).
        rewrite Hbody in Hd', He'. simpl in Hd', He'. split; congruence.
Qed.
End TraversalCaches.

Section NoRecycling.
Context {S : Type} `{!ScalarOps S}.
Variable pb : Problem S.
Variable ev : Evaluator S.
Hypothesis norecycling : enableLinearizationRecycling_ pb = false.

Implicit Type s : Assembler S.

(** Without linearization recycling a traversal does not touch the caches. *)
Lemma assemble__caches_untouched (curDt : S) s :
  reuseLinearization_ s = false →
  storageTerm_ (final_state (assemble_ pb ev curDt s)) = storageTerm_ s
  ∧ storageJacobian_ (final_state (assemble_ pb ev curDt s))
    = storageJacobian_ s.
Proof using norecycling.
  intros Hreuse.
  assert (Hreset : storageTerm_ (resetSystem_ pb s) = storageTerm_ s
                   ∧ storageJacobian_ (resetSystem_ pb s)
                     = storageJacobian_ s).
  { unfold resetSystem_. rewrite Hreuse, norecycling.
    destruct (enablePartialRelinearization_ pb); simpl; [|done].
    loop_invariant
      (λ (_ : nat) (x : Assembler S),
         storageTerm_ x = storageTerm_ s
         ∧ storageJacobian_ x = storageJacobian_ s); [done| |done].
    intros i x _ Hx. by case_bool_decide. }
  unfold assemble_. rewrite resetSystem_reuse, Hreuse.
  apply (forEach_inv (λ x, storageTerm_ x = storageTerm_ s
                           ∧ storageJacobian_ x = storageJacobian_ s));
    [done|].
  intros e x _ Hx. destruct (interior e); simpl; [|done].
  unfold assembleElement_, assembleGreenElement_. rewrite norecycling.
  destruct (_ && _).
  - destruct (localResidual ev e); simpl; [|done].
    loop_invariant
      (λ (_ : nat) (y : Assembler S),
         storageTerm_ y = storageTerm_ s
         ∧ storageJacobian_ y = storageJacobian_ s); done.
  - destruct (localJacobian ev e); simpl; [|done].
    loop_invariant
      (λ (_ : nat) (y : Assembler S),
         storageTerm_ y = storageTerm_ s
         ∧ storageJacobian_ y = storageJacobian_ s); [done| |done].
    intros i y _ Hy. cbv zeta. case_bool_decide; [|done].
    loop_invariant
      (λ (_ : nat) (w : Assembler S),
         storageTerm_ w = storageTerm_ s
         ∧ storageJacobian_ w = storageJacobian_ s); done.
Qed.
End NoRecycling.

(** What [assemble()] does after [assemble_] has returned leaves the caches
    alone. *)
Lemma assemble_caches_kept
    {S : Type} `{!ScalarOps S} (pb : Problem S) (ev : Evaluator S) (curDt : S)
    (s s' : Assembler S) :
  assemble pb ev curDt s = Done s' →
  ∃ x, assemble_ pb ev curDt s = Done x
       ∧ storageTerm_ s' = storageTerm_ x
       ∧ storageJacobian_ s' = storageJacobian_ x.
Proof.
  unfold assemble, comm_min.
  destruct (assemble_ pb ev curDt s) as [x|x]; simpl; [|done].
  intros Hrun. exists x. split; [done|].
  destruct (_ && _); simpl in Hrun; by injection Hrun as <-.
Qed.

(** X18. The recycling caches after a non-recycled [assemble()] that
    returns normally.  With linearization recycling enabled, the cached
    storage term of a DOF is the storage terms the traversal evaluates for
    it, added to the zeroed old term, or to the old term itself when the DOF
    is green; the cached storage Jacobian of a green DOF is the old one, and
    that of any other DOF is the zeroed old one plus the storage Jacobians
    of the elements not assembled as green ones.  With recycling disabled
    both caches are untouched. *)
Theorem assemble_storage_caches
    {S : Type} `{!ScalarOps S} (pb : Problem S) (ev : Evaluator S) (curDt : S)
    (s s' : Assembler S) (i : nat) :
  reuseLinearization_ s = false →
  i < length (matrix s) →
  assemble pb ev curDt s = Done s' →
  if enableLinearizationRecycling_ pb then
    storageTerm_ s' !! i
    = (λ old, foldl vb_add
                (if bool_decide (dofColor pb s i = Green) then old
                 else vb_clear old)
                (freshStorageTerms pb ev (elementColor_ s) i))
        <$> storageTerm_ s !! i
    ∧ storageJacobian_ s' !! i
      = (λ old, if bool_decide (dofColor pb s i = Green) then old
                else foldl mb_add (mb_clear old)
                       (freshStorageJacobians pb ev (elementColor_ s) i))
          <$> storageJacobian_ s !! i
  else
    storageTerm_ s' = storageTerm_ s
    ∧ storageJacobian_ s' = storageJacobian_ s.
Proof.
  intros Hreuse Hi Hrun.
  destruct (assemble_caches_kept pb ev curDt s s' Hrun)
    as (x & Hasm & -> & ->).
  destruct (enableLinearizationRecycling_ pb) eqn:Hrec.
  - unfold assemble_ in Hasm. rewrite resetSystem_reuse, Hreuse in Hasm.
    destruct (traversal_caches pb ev Hrec _ x i Hasm) as [HT HJ].
    simpl in HT, HJ.
    destruct (resetSystem_colors pb s) as (Hd & He & _).
    destruct (resetSystem_caches pb Hrec s i Hreuse Hi) as [HT0 HJ0].
    assert (Hcol : dofColor pb
                     (set_greenElems_ 0
                        (set_oldDt_ curDt (resetSystem_ pb s))) i
                   = dofColor pb s i).
    { apply dofColor_same. simpl. by rewrite Hd. }
    rewrite Hcol in HJ. rewrite HT, HJ, He, HT0, HJ0. split.
    + by destruct (storageTerm_ s !! i).
    + destruct (storageJacobian_ s !! i); simpl; [|done].
      by destruct (bool_decide (dofColor pb s i = Green)).
  - pose proof (assemble__caches_untouched pb ev Hrec curDt s Hreuse)
      as Hkept.
    by rewrite Hasm in Hkept.
Qed.

Lemma assemble_storage_caches_witness :
  dofColor chain chain_colored 2 = Green
  ∧ storageTerm_ chain_colored !! 2 = Some [b64_of_Z 2]
  ∧ storageTerm_
      (final_state (assemble chain chainEvaluator (b64_of_Z 1) chain_colored))
      !! 2 = Some [b64_of_Z 4]
  ∧ storageTerm_
      (final_state (assemble chain chainEvaluator (b64_of_Z 1) chain_colored))
      !! 0 = Some [b64_of_Z 2].
Proof.
  split; [reflexivity|]. split; [reflexivity|].
  assert (Hrun : assemble chain chainEvaluator (b64_of_Z 1) chain_colored
                 = Done (final_state
                           (assemble chain chainEvaluator (b64_of_Z 1)
                              chain_colored)))
    by (vm_compute; reflexivity).
  split.
  - destruct (assemble_storage_caches chain chainEvaluator (b64_of_Z 1)
                chain_colored _ 2 eq_refl ltac:(vm_compute; lia) Hrun)
      as [-> _].
    reflexivity.
  - destruct (assemble_storage_caches chain chainEvaluator (b64_of_Z 1)
                chain_colored _ 0 eq_refl ltac:(vm_compute; lia) Hrun)
      as [-> _].
    reflexivity.
Defined.

(** * Further properties: [relinearizeAll] followed by [assemble] *)



